(** * AIJobScraper: the ingestion, normalisation, enrichment, scoring and
      ranking pipeline of [job_agent.py] and [job_agent_2.py]

    A shallow embedding of the two scripts.  Python [str] values are lists of
    Unicode code points, dictionaries that the scripts use as records are
    records, the values [json.loads] hands back are a small universe of Python
    values, and every call that the scripts guard with [try]/[except] returns
    an [outcome].  The browser, the feeds, the clock and the text-generation
    endpoint are inputs of the functions that consult them. *)

From Stdlib Require Import ZArith NArith QArith List Ascii String Lia.
From Stdlib Require Import Permutation Sorted.
From stdpp Require Import base decidable option list gmap sets.

Close Scope Q_scope.
Close Scope string_scope.
#[local] Set Warnings "-register-all,-clear-no-such-hyp".

(** ** Text *)

Module Text.

(** A character is a code point; a Python [str] is a list of them, so that
    [len], slicing and indexing count code points as Python does. *)
Definition char := N.
Definition str := list char.

Definition pystr (s : string) : str := map N_of_ascii (list_ascii_of_string s).

(** The part of the Unicode character database that lies beyond ASCII is an
    input: which code points are decimal digits ([\d]), which are white space
    ([\s], [str.strip], [str.isspace]), which match an ASCII pattern letter
    under [re.IGNORECASE], and what [str.lower] makes of a string that is not
    pure ASCII.  The two laws hold of the real database: no decimal digit and
    no case variant of a letter is white space. *)
Class Unicode := {
  uni_decimal : char -> bool;
  uni_space : char -> bool;
  uni_caseless : char -> char -> bool;
  uni_lower : str -> str;
  uni_decimal_not_space : forall c, uni_decimal c = true -> uni_space c = false;
  uni_caseless_not_space : forall p c, uni_caseless p c = true -> uni_space c = false
}.

(** The database restricted to ASCII text: nothing beyond ASCII is a digit,
    white space or a case variant. *)
Definition ascii_only : Unicode :=
  {| uni_decimal := fun _ => false;
     uni_space := fun _ => false;
     uni_caseless := fun _ _ => false;
     uni_lower := fun s => s;
     uni_decimal_not_space := fun _ _ => eq_refl;
     uni_caseless_not_space := fun _ _ _ => eq_refl |}.

Definition is_ascii (c : char) : bool := (c <? 128)%N.

Definition ascii_lower (c : char) : char :=
  if ((65 <=? c) && (c <=? 90))%N then (c + 32)%N else c.

Section WithUnicode.
Context {U : Unicode}.

Definition is_digit (c : char) : bool :=
  if is_ascii c then ((48 <=? c) && (c <=? 57))%N else uni_decimal c.

Definition is_space (c : char) : bool :=
  if is_ascii c
  then (((9 <=? c) && (c <=? 13)) || ((28 <=? c) && (c <=? 32)))%N
  else uni_space c.

(** Does subject character [c] match pattern character [p] when the pattern
    is compiled with [re.IGNORECASE]?  ([p] is ASCII in every pattern here.) *)
Definition ci_eq (p c : char) : bool :=
  if is_ascii c then (ascii_lower c =? ascii_lower p)%N else uni_caseless p c.

(** [s.lower()] *)
Definition lower (s : str) : str :=
  if forallb is_ascii s then map ascii_lower s else uni_lower s.

End WithUnicode.

(** [s.strip(chars)], with the set of characters as a predicate. *)
Fixpoint lstrip_by (p : char -> bool) (s : str) : str :=
  match s with
  | [] => []
  | c :: s' => if p c then lstrip_by p s' else s
  end.

Definition rstrip_by (p : char -> bool) (s : str) : str :=
  rev (lstrip_by p (rev s)).

Definition strip_by (p : char -> bool) (s : str) : str :=
  rstrip_by p (lstrip_by p s).

(** [s.strip()] *)
Definition strip {U : Unicode} (s : str) : str := strip_by is_space s.

(** [s.startswith(p)], and the rest of [s] after the prefix. *)
Fixpoint strip_prefix (p s : str) : option str :=
  match p, s with
  | [], _ => Some s
  | _ :: _, [] => None
  | a :: p', c :: s' => if (a =? c)%N then strip_prefix p' s' else None
  end.

Definition startswith (s p : str) : bool :=
  match strip_prefix p s with Some _ => true | None => false end.

(** [p in s] for strings: [p] occurs in [s] as a contiguous substring. *)
Fixpoint contains (s p : str) : bool :=
  startswith s p ||
  match s with
  | [] => false
  | _ :: s' => contains s' p
  end.

(** [s.split(sep)] for a one-character separator: never an empty list. *)
Fixpoint split_on (sep : char) (s : str) : list str :=
  match s with
  | [] => [[]]
  | c :: s' =>
      if (c =? sep)%N then [] :: split_on sep s'
      else match split_on sep s' with
           | w :: ws => (c :: w) :: ws
           | [] => [[c]]
           end
  end.

(** [sep.join(parts)] *)
Fixpoint join (sep : str) (parts : list str) : str :=
  match parts with
  | [] => []
  | [w] => w
  | w :: ws => w ++ sep ++ join sep ws
  end.

(** Truth value of a string: [if s:]. *)
Definition nonempty (s : str) : bool :=
  match s with [] => false | _ :: _ => true end.

End Text.
Import Text.

(** ** Regular expressions: the fragment of [re] that the scripts use *)

Module Re.

(** Items that repeat are single characters in every pattern of the scripts,
    so [Star] takes a character class. *)
Inductive regex : Type :=
| Eps
| Chr (p : char -> bool)
| Seq (r1 r2 : regex)
| Alt (r1 r2 : regex)
| Opt (r : regex)
| Star (p : char -> bool).

Definition Plus (p : char -> bool) : regex := Seq (Chr p) (Star p).

Definition one (c : char) : char -> bool := fun x => (x =? c)%N.

Fixpoint Lit (s : str) : regex :=
  match s with
  | [] => Eps
  | c :: s' => Seq (Chr (one c)) (Lit s')
  end.

(** The words a pattern stands for. *)
Inductive matches : regex -> str -> Prop :=
| m_eps : matches Eps []
| m_chr p c : p c = true -> matches (Chr p) [c]
| m_seq r1 r2 s1 s2 :
    matches r1 s1 -> matches r2 s2 -> matches (Seq r1 r2) (s1 ++ s2)
| m_alt_l r1 r2 s : matches r1 s -> matches (Alt r1 r2) s
| m_alt_r r1 r2 s : matches r2 s -> matches (Alt r1 r2) s
| m_opt_skip r : matches (Opt r) []
| m_opt_take r s : matches r s -> matches (Opt r) s
| m_star p s : Forall (fun c => p c = true) s -> matches (Star p) s.

(** The backtracking matcher of [re]: alternatives in order, repetitions and
    options greedy, and a continuation [k] that may reject what is left and
    so force the next choice. *)
Fixpoint star {A} (p : char -> bool) (s : str) (k : str -> option A) : option A :=
  match s with
  | [] => k []
  | c :: s' =>
      if p c
      then match star p s' k with
           | Some x => Some x
           | None => k s
           end
      else k s
  end.

Fixpoint bt {A} (r : regex) (s : str) (k : str -> option A) : option A :=
  match r with
  | Eps => k s
  | Chr p =>
      match s with
      | c :: s' => if p c then k s' else None
      | [] => None
      end
  | Seq r1 r2 => bt r1 s (fun s1 => bt r2 s1 k)
  | Alt r1 r2 =>
      match bt r1 s k with
      | Some x => Some x
      | None => bt r2 s k
      end
  | Opt r1 =>
      match bt r1 s k with
      | Some x => Some x
      | None => k s
      end
  | Star p => star p s k
  end.

(** [re.match]: the matched prefix and what follows it. *)
Definition re_match (r : regex) (s : str) : option (str * str) :=
  match bt r s Some with
  | Some rest => Some (take (length s - length rest) s, rest)
  | None => None
  end.

(** [re.fullmatch] as a test. *)
Definition re_fullmatch (r : regex) (s : str) : bool :=
  match bt r s (fun rest => match rest with [] => Some tt | _ => None end) with
  | Some _ => true
  | None => false
  end.

(** [re.search]: the first position at which the pattern matches, as the
    text before the match, the match ([group(0)]) and the text after it. *)
Fixpoint re_search (r : regex) (s : str) : option (str * str * str) :=
  match re_match r s with
  | Some (m, rest) => Some ([], m, rest)
  | None =>
      match s with
      | [] => None
      | c :: s' =>
          match re_search r s' with
          | Some (pre, m, post) => Some (c :: pre, m, post)
          | None => None
          end
      end
  end.

(** [re.sub(r, "", s)]: every match, found left to right without overlap, is
    deleted.  [skip] counts the characters of the current match that are
    still to be dropped.  (An empty match deletes nothing and the scan moves
    on by one character.) *)
Fixpoint re_delete_from (r : regex) (skip : nat) (s : str) : str :=
  match s with
  | [] => []
  | c :: s' =>
      match skip with
      | S n => re_delete_from r n s'
      | O =>
          match re_match r s with
          | Some (_ :: m, _) => re_delete_from r (length m) s'
          | _ => c :: re_delete_from r 0 s'
          end
      end
  end.

Definition re_delete (r : regex) (s : str) : str := re_delete_from r 0 s.

End Re.
Import Re.

(** ** Exceptions *)

(** A call that the scripts wrap in [try]/[except Exception] either returns
    or raises. *)
Inductive outcome (A : Type) : Type :=
| Ret (a : A)
| Raised.
Arguments Ret {A} a.
Arguments Raised {A}.

#[export] Instance outcome_ret : MRet outcome := fun A a => Ret a.
#[export] Instance outcome_bind : MBind outcome :=
  fun A B f m => match m with Ret a => f a | Raised => Raised end.

(** [try: body / except Exception: handler] *)
Definition try_except {A} (body : outcome A) (handler : A) : A :=
  match body with Ret a => a | Raised => handler end.

(** [xs[i]], raising [IndexError] out of range. *)
Definition index {A} (xs : list A) (i : nat) : outcome A :=
  match xs !! i with Some x => Ret x | None => Raised end.

(** ** Listings *)

(** The dictionary that the adapters build for a posting.  The page-based
    adapters set no ["description"] key and [scrape_board] sets no
    ["company"] key, so these two are optional. *)
Record Job : Type := {
  title : str;
  company : option str;
  link : str;
  salary : str;
  summary : str;
  description : option str;
  source : str
}.

(** [job["description"] = d] *)
Definition set_description (d : str) (job : Job) : Job :=
  {| title := title job; company := company job; link := link job;
     salary := salary job; summary := summary job;
     description := Some d; source := source job |}.

(** ** The rendered page *)

(** What the scripts can ask of an element handle; each call may raise. *)
Inductive Element : Type :=
  El (inner_text : outcome str)
     (get_attribute : str -> outcome (option str))
     (query_selector : str -> outcome (option Element)).

Definition inner_text (e : Element) : outcome str :=
  match e with El t _ _ => t end.
Definition get_attribute (e : Element) (name : str) : outcome (option str) :=
  match e with El _ a _ => a name end.
Definition query_selector (e : Element) (sel : str) : outcome (option Element) :=
  match e with El _ _ q => q sel end.

(** A document after navigation has settled. *)
Record Page : Type := {
  page_query_selector_all : str -> outcome (list Element);
  page_query_selector : str -> outcome (option Element)
}.

(** [page.goto(url, ...)] followed by [page.wait_for_timeout(...)]: the
    document that results, unless either call raises. *)
Definition Browser : Type := str -> outcome Page.

(** [x or ""] for an optional string. *)
Definition or_empty (x : option str) : str :=
  match x with Some s => s | None => [] end.

(** ** Salary extraction and URL helpers *)

Section Helpers.
Context {U : Unicode}.

Definition dollar : char := 36%N.
Definition comma : char := 44%N.
Definition hyphen : char := 45%N.
Definition en_dash : char := 8211%N.
Definition slash : char := 47%N.
Definition newline : char := 10%N.
Definition backtick : char := 96%N.

(** A literal of letters under [re.IGNORECASE]. *)
Fixpoint LitI (s : str) : regex :=
  match s with
  | [] => Eps
  | c :: s' => Seq (Chr (ci_eq c)) (LitI s')
  end.

(** [[\d,]] *)
Definition digit_or_comma (c : char) : bool := is_digit c || (c =? comma)%N.

(** [[-–]] *)
Definition dash (c : char) : bool := (c =? hyphen)%N || (c =? en_dash)%N.

(** [(?:k)?] *)
Definition opt_k : regex := Opt (Chr (ci_eq 107%N)).

(** [(?:\s*[-–]\s*\$?[\d,]+(?:k)?)?] *)
Definition salary_upper : regex :=
  Opt (Seq (Star is_space) (Seq (Chr dash) (Seq (Star is_space)
      (Seq (Opt (Chr (one dollar))) (Seq (Plus digit_or_comma) opt_k))))).

(** [(?:\s*(?:USD|/yr|/year|annually))?] *)
Definition salary_unit : regex :=
  Opt (Seq (Star is_space)
      (Alt (LitI (pystr "USD"))
      (Alt (Seq (Chr (one slash)) (LitI (pystr "yr")))
      (Alt (Seq (Chr (one slash)) (LitI (pystr "year")))
           (LitI (pystr "annually")))))).

(** [\$[\d,]+(?:k)?(?:\s*[-–]\s*\$?[\d,]+(?:k)?)?(?:\s*(?:USD|/yr|/year|annually))?]
    compiled with [re.IGNORECASE]. *)
Definition salary_re : regex :=
  Seq (Chr (one dollar)) (Seq (Plus digit_or_comma) (Seq opt_k
      (Seq salary_upper salary_unit))).

(** [extract_salary] of [job_agent_2.py]; [scrape_board] of [job_agent.py]
    runs the same search inline. *)
Definition extract_salary (text : str) : str :=
  match re_search salary_re text with
  | Some (_, m, _) => strip m
  | None => []
  end.

(** [make_absolute] *)
Definition make_absolute (href base_url : str) : str :=
  if negb (nonempty href) then []
  else if startswith href (pystr "http") then href
  else
    let domain := join [slash] (take 3 (split_on slash base_url)) in
    domain ++ href.

(** [[l.strip() for l in text.split("\n") if l.strip()]] *)
Definition nonblank_lines (text : str) : list str :=
  List.filter nonempty (map strip (split_on newline text)).

End Helpers.

(** ** Page-based adapters *)

Section Adapters.
Context {U : Unicode}.

(** A board of [JOB_BOARDS]. *)
Record Board : Type := { board_name : str; board_url : str }.

(** The selector strings are opaque to the model: the page answers them. *)
Definition card_selector : str :=
  pystr "li, article, [class*='job'], [class*='Job'], [class*='listing'], [class*='Listing'], [class*='card'], [class*='Card']".

(** One iteration of the card loop of [scrape_board]; the inner [try] turns
    a raise into [continue].  The result is the new [seen_titles] and the
    listing appended to [jobs], if any. *)
Definition scrape_board_card (board : Board) (seen_titles : gset str) (card : Element)
  : outcome (gset str * option Job) :=
  text ← inner_text card;
  let text := strip text in
  if (length text <? 10) || (2000 <? length text) then Ret (seen_titles, None)
  else
    link_el ← query_selector card (pystr "a");
    link ← match link_el with
           | None => Ret []
           | Some a =>
               href ← get_attribute a (pystr "href");
               let link := or_empty href in
               if nonempty link && negb (startswith link (pystr "http"))
               then
                 scheme ← index (split_on slash (board_url board)) 0;
                 host ← index (split_on slash (board_url board)) 2;
                 Ret ((scheme ++ pystr "//" ++ host) ++ link)
               else Ret link
           end;
    match nonblank_lines text with
    | [] => Ret (seen_titles, None)
    | first :: more =>
        let title := take 120 first in
        if bool_decide (title ∈ seen_titles) || (length title <? 5)
        then Ret (seen_titles, None)
        else
          Ret ({[title]} ∪ seen_titles,
               Some {| title := title; company := None; link := link;
                       salary := extract_salary text;
                       summary := join (pystr " | ") (take 5 more);
                       description := None; source := board_name board |})
    end.

(** The loop over [cards[:60]], threading [seen_titles] and [jobs]. *)
Fixpoint scrape_board_cards (board : Board) (seen_titles : gset str)
    (cards : list Element) : list Job :=
  match cards with
  | [] => []
  | card :: cards' =>
      match scrape_board_card board seen_titles card with
      | Ret (seen', Some job) => job :: scrape_board_cards board seen' cards'
      | Ret (seen', None) => scrape_board_cards board seen' cards'
      | Raised => scrape_board_cards board seen_titles cards'
      end
  end.

(** [scrape_board] of [job_agent.py]. *)
Definition scrape_board (browser : Browser) (board : Board) : list Job :=
  try_except
    (page ← browser (board_url board);
     cards ← page_query_selector_all page card_selector;
     Ret (scrape_board_cards board ∅ (take 60 cards)))
    [].

Definition himalayas_url : str := pystr "https://himalayas.app/jobs/engineering".
Definition himalayas_source : str := pystr "Himalayas".

(** One iteration of the item loop of [scrape_himalayas].  [seen] holds
    hrefs and is updated before the text is read, so a raise after that
    point keeps the href marked. *)
Definition scrape_himalayas_item (seen : gset str) (item : Element)
  : gset str * option Job :=
  match get_attribute item (pystr "href") with
  | Raised => (seen, None)
  | Ret h =>
      let href := or_empty h in
      let parts := split_on slash (strip_by (one slash) href) in
      if length parts <? 2 then (seen, None)
      else if bool_decide (href ∈ seen) then (seen, None)
      else
        let seen := {[href]} ∪ seen in
        match inner_text item with
        | Raised => (seen, None)
        | Ret t =>
            let text_content := strip t in
            match nonblank_lines text_content with
            | [] => (seen, None)
            | first :: more =>
                (seen,
                 Some {| title := first;
                         company := Some (match more with c :: _ => c | [] => [] end);
                         link := make_absolute href himalayas_url;
                         salary := extract_salary text_content;
                         summary := join (pystr " | ") (take 3 (drop 1 more));
                         description := None; source := himalayas_source |})
            end
        end
  end.

Fixpoint scrape_himalayas_items (seen : gset str) (items : list Element) : list Job :=
  match items with
  | [] => []
  | item :: items' =>
      match scrape_himalayas_item seen item with
      | (seen', Some job) => job :: scrape_himalayas_items seen' items'
      | (seen', None) => scrape_himalayas_items seen' items'
      end
  end.

(** [scrape_himalayas] of [job_agent_2.py]. *)
Definition scrape_himalayas (browser : Browser) : list Job :=
  try_except
    (page ← browser himalayas_url;
     items ← page_query_selector_all page (pystr "a[href^='/jobs/'][href*='/']");
     Ret (scrape_himalayas_items ∅ items))
    [].

Definition workingnomads_url : str :=
  pystr "https://www.workingnomads.com/jobs?category=development".
Definition workingnomads_source : str := pystr "Working Nomads".

(** [(await el.inner_text()).strip() if el else ""] *)
Definition text_of_optional (el : option Element) : outcome str :=
  match el with
  | Some e => t ← inner_text e; Ret (strip t)
  | None => Ret []
  end.

(** One iteration of the item loop of [scrape_workingnomads]: no set of seen
    titles or links is kept. *)
Definition scrape_workingnomads_item (item : Element) : outcome (option Job) :=
  title_el ← query_selector item (pystr "a.job-title, h2 a, h3 a");
  match title_el with
  | None => Ret None
  | Some title_el =>
      t ← inner_text title_el;
      let title := strip t in
      h ← get_attribute title_el (pystr "href");
      let href := or_empty h in
      company_el ← query_selector item (pystr ".company, [class*='company']");
      salary_el ← query_selector item (pystr "[class*='salary']");
      company ← text_of_optional company_el;
      salary ← text_of_optional salary_el;
      if negb (nonempty title) then Ret None
      else
        Ret (Some {| title := title; company := Some company;
                     link := make_absolute href workingnomads_url;
                     salary := salary; summary := company;
                     description := None; source := workingnomads_source |})
  end.

Fixpoint scrape_workingnomads_items (items : list Element) : list Job :=
  match items with
  | [] => []
  | item :: items' =>
      match scrape_workingnomads_item item with
      | Ret (Some job) => job :: scrape_workingnomads_items items'
      | _ => scrape_workingnomads_items items'
      end
  end.

(** [scrape_workingnomads] of [job_agent_2.py]. *)
Definition scrape_workingnomads (browser : Browser) : list Job :=
  try_except
    (page ← browser workingnomads_url;
     items ← page_query_selector_all page (pystr ".job-item, li[class*='job']");
     Ret (scrape_workingnomads_items items))
    [].

End Adapters.

(** ** Normaliser *)

(** The loop [for job in all_jobs: if job["link"] and job["link"] not in
    seen: seen.add(job["link"]); unique.append(job)], with the pair
    [(seen, unique)] as its state. *)
Definition dedup_step (st : gset str * list Job) (job : Job) : gset str * list Job :=
  let '(seen, unique) := st in
  if nonempty (link job) && bool_decide (link job ∉ seen)
  then ({[link job]} ∪ seen, unique ++ [job])
  else (seen, unique).

Definition dedup_by_link (all_jobs : list Job) : list Job :=
  snd (fold_left dedup_step all_jobs (∅, [])).

(** The tail of [scrape_all_boards] of [job_agent_2.py]: the four adapter
    results are concatenated in this order and deduplicated.  [main] of
    [job_agent.py] runs the same loop over the boards' results. *)
Definition scrape_all_boards (weworkremotely remotive himalayas workingnomads : list Job)
  : list Job :=
  dedup_by_link (weworkremotely ++ remotive ++ himalayas ++ workingnomads).

(** ** Detail fetcher *)

Section DetailFetcher.
Context {U : Unicode}.

(** [source_selectors.get(source, [])] *)
Definition source_selectors (source : str) : list str :=
  if bool_decide (source = pystr "We Work Remotely") then
    [pystr "#job-listing"; pystr ".listing-container > div:first-child";
     pystr "section.job"; pystr "div.job"]
  else if bool_decide (source = pystr "Remotive") then
    [pystr ".job-description"; pystr "[class*='JobDescription']"; pystr "article"]
  else if bool_decide (source = pystr "Himalayas") then
    [pystr "[class*='description']"; pystr "[class*='JobDescription']"; pystr "article"]
  else if bool_decide (source = pystr "Working Nomads") then
    [pystr ".job-description"; pystr "article"; pystr "main"]
  else [].

Definition generic_selectors : list str :=
  [pystr ".job-description"; pystr "#job-description";
   pystr "[class*='job-description']"; pystr "[class*='jobDescription']";
   pystr "article"; pystr "main"].

Definition noise_phrases : list str :=
  [pystr "learn the skills employers are hiring for";
   pystr "powered by learnisa";
   pystr "related jobs";
   pystr "sign in to apply";
   pystr "create an account"].

(** [any(phrase in text_lower for phrase in noise_phrases)] *)
Definition has_noise (text : str) : bool :=
  existsb (contains (lower text)) noise_phrases.

(** The loop over the elements that one selector matched.  [Ret (Some t)]:
    [t] was accepted; [Ret None]: the elements ran out; [Raised]: reading an
    element raised, which ends the work on this selector. *)
Fixpoint scan_elements (els : list Element) : outcome (option str) :=
  match els with
  | [] => Ret None
  | el :: els' =>
      t ← inner_text el;
      let text := strip t in
      if length text <? 150 then scan_elements els'
      else if has_noise text then scan_elements els'
      else Ret (Some text)
  end.

(** The loop over the selectors; its inner [try] turns a raise into
    [continue] with the next selector. *)
Fixpoint scan_selectors (page : Page) (selectors : list str) : option str :=
  match selectors with
  | [] => None
  | selector :: selectors' =>
      match els ← page_query_selector_all page selector; scan_elements els with
      | Ret (Some text) => Some text
      | _ => scan_selectors page selectors'
      end
  end.

(** [job.get("description") and len(job["description"]) > 200] *)
Definition has_usable_description (job : Job) : bool :=
  match description job with
  | Some d => nonempty d && (200 <? length d)
  | None => false
  end.

(** [fetch_job_detail] of [job_agent_2.py]. *)
Definition fetch_job_detail (browser : Browser) (job : Job) : Job :=
  if has_usable_description job then job
  else if negb (nonempty (link job)) then job
  else
    match browser (link job) with
    | Raised => job
    | Ret page =>
        match scan_selectors page (source_selectors (source job) ++ generic_selectors) with
        | Some text => set_description (take 3000 text) job
        | None => job
        end
    end.

Definition v1_selectors : list str :=
  [pystr "[class*='description']"; pystr "[class*='content']";
   pystr "article"; pystr "main"; pystr "body"].

(** The selector loop of [fetch_job_detail] of [job_agent.py]: the first
    element of each selector only, no inner [try], [break] on success. *)
Fixpoint v1_scan (page : Page) (selectors : list str) : outcome (option str) :=
  match selectors with
  | [] => Ret None
  | selector :: selectors' =>
      el ← page_query_selector page selector;
      match el with
      | None => v1_scan page selectors'
      | Some e =>
          t ← inner_text e;
          let text := strip t in
          if 200 <? length text then Ret (Some text) else v1_scan page selectors'
      end
  end.

(** [fetch_job_detail] of [job_agent.py]. *)
Definition fetch_job_detail_v1 (browser : Browser) (job : Job) : Job :=
  if negb (nonempty (link job)) then job
  else
    match page ← browser (link job); v1_scan page v1_selectors with
    | Ret (Some text) => set_description (take 3000 text) job
    | _ => job
    end.

End DetailFetcher.

(** ** Python values *)

(** A [float]: a finite one by its exact value, the two infinities and
    [nan]; [json.loads] returns each of them (for [Infinity], [-Infinity]
    and [NaN] in the text). *)
Inductive pyfloat : Type :=
| Finite (q : Q)
| PosInf
| NegInf
| NaN.

(** What [response.json()] and [json.loads] return. *)
Inductive pyval : Type :=
| VNone
| VBool (b : bool)
| VInt (z : Z)
| VFloat (x : pyfloat)
| VStr (s : str)
| VList (l : list pyval)
| VDict (d : gmap str pyval).

(** [bool(v)] *)
Definition truthy (v : pyval) : bool :=
  match v with
  | VNone => false
  | VBool b => b
  | VInt z => negb (z =? 0)%Z
  | VFloat (Finite q) => negb (Qeq_bool q 0)
  | VFloat _ => true
  | VStr s => nonempty s
  | VList l => match l with [] => false | _ :: _ => true end
  | VDict d => match map_to_list d with [] => false | _ :: _ => true end
  end.

(** [v.get(key, default)]: only a [dict] has the method. *)
Definition py_get (v : pyval) (key : str) (default : pyval) : outcome pyval :=
  match v with
  | VDict d => Ret (match d !! key with Some x => x | None => default end)
  | _ => Raised
  end.

(** The number a value stands for in an ordering comparison with a number;
    [bool] is a subclass of [int], and an [int] is compared with a [float]
    by its exact value. *)
Definition number (v : pyval) : outcome pyfloat :=
  match v with
  | VBool b => Ret (Finite (inject_Z (Z.b2z b)))
  | VInt z => Ret (Finite (inject_Z z))
  | VFloat x => Ret x
  | _ => Raised
  end.

Definition Qlt_bool (x y : Q) : bool := negb (Qle_bool y x).

(** [x < y] and [x <= y] on numbers: every comparison with [nan] is
    [False]. *)
Definition float_lt (x y : pyfloat) : bool :=
  match x, y with
  | NaN, _ | _, NaN => false
  | Finite a, Finite b => Qlt_bool a b
  | NegInf, NegInf => false
  | NegInf, _ => true
  | _, NegInf => false
  | PosInf, _ => false
  | _, PosInf => true
  end.

Definition float_le (x y : pyfloat) : bool :=
  match x, y with
  | NaN, _ | _, NaN => false
  | Finite a, Finite b => Qle_bool a b
  | NegInf, _ => true
  | _, NegInf => false
  | _, PosInf => true
  | PosInf, _ => false
  end.

Definition is_nan (x : pyfloat) : bool :=
  match x with NaN => true | _ => false end.

(** An [int] literal as a number. *)
Definition of_int (n : Z) : pyfloat := Finite (inject_Z n).

(** [v < n] for an [int] literal [n]; [TypeError] for a non-number. *)
Definition py_lt_int (v : pyval) (n : Z) : outcome bool :=
  x ← number v; Ret (float_lt x (of_int n)).

(** ** [list.sort(key=..., reverse=True)] *)

(** Python's sort is stable, with [reverse=True] too: items whose keys are
    equal stay in their original order.  Where [<] orders the keys -- no key
    is [nan] -- that fixes the result: [insert_desc x l] puts [x] in front
    of the first item whose key is not larger. *)
Section Sort.
Context {A : Type} (key : A -> pyfloat).

Fixpoint insert_desc (x : A) (l : list A) : list A :=
  match l with
  | [] => [x]
  | y :: l' => if float_lt (key x) (key y) then y :: insert_desc x l' else x :: l
  end.

Fixpoint sort_desc (l : list A) : list A :=
  match l with
  | [] => []
  | x :: l' => insert_desc x (sort_desc l')
  end.

(** The order that the result is in: no key ahead of a larger one. *)
Definition key_ge (a b : A) : Prop := float_le (key b) (key a) = true.

(** Does [<] order the keys of the list? *)
Definition ordered_keys (l : list A) : bool :=
  forallb (fun x => negb (is_nan (key x))) l.

End Sort.

(** With a [nan] among the keys, [<] is no order and the result of
    [list.sort] depends on the sorting algorithm of the interpreter; it is
    given, and known to be a rearrangement of the list. *)
Class PySort := {
  sort_unordered : forall A : Type, (A -> pyfloat) -> list A -> list A;
  sort_unordered_perm :
    forall (A : Type) (key : A -> pyfloat) (l : list A),
      Permutation (sort_unordered A key l) l
}.

(** [l.sort(key=key, reverse=True)] *)
Definition list_sort_desc `{S : PySort} {A : Type} (key : A -> pyfloat) (l : list A)
  : list A :=
  if ordered_keys key l then sort_desc key l else sort_unordered A key l.

(** ** Scoring client *)

(** The parts of the prompt that vary with the listing; the rest of the
    prompt is the fixed profile and the fixed instructions. *)
Record ScoringRequest : Type := {
  req_title : str;
  req_source : str;
  req_salary : str;
  req_description : str
}.

(** What [requests.post(..., timeout=300)] does: it raises for a transport
    error or a timeout, or returns a response whose [.json()] raises or
    returns a value. *)
Inductive HttpReply : Type :=
| ConnectionFailed
| TimedOut
| Replied (body : outcome pyval).

Section Scoring.
Context {U : Unicode} {S : PySort}.

(** The text-generation endpoint and [json.loads] (which raises on text
    that is not JSON) are given. *)
Variable post : ScoringRequest -> HttpReply.
Variable json_loads : str -> outcome pyval.

(** [job.get("description") or job.get("summary") or job["title"]], cut to
    2000 characters, and [job['salary'] or 'Not listed']. *)
Definition build_request (job : Job) : ScoringRequest :=
  let d := match description job with
           | Some d => if nonempty d then d
                       else if nonempty (summary job) then summary job else title job
           | None => if nonempty (summary job) then summary job else title job
           end in
  {| req_title := title job;
     req_source := source job;
     req_salary := if nonempty (salary job) then salary job else pystr "Not listed";
     req_description := take 2000 d |}.

(** [response.json()["response"].strip()], before the [strip]. *)
Definition response_text (body : pyval) : outcome str :=
  match body with
  | VDict d => match d !! pystr "response" with
               | Some (VStr s) => Ret s
               | _ => Raised
               end
  | _ => Raised
  end.

Definition fence : str := [backtick; backtick; backtick].

(** [```(?:json)?] *)
Definition fence_re : regex := Seq (Lit fence) (Opt (Lit (pystr "json"))).

(** [if "```" in raw: raw = re.sub(r"```(?:json)?", "", raw).strip().strip("`")] *)
Definition strip_fences (raw : str) : str :=
  if contains raw fence
  then strip_by (one backtick) (strip (re_delete fence_re raw))
  else raw.

(** From the generated text to the parsed value. *)
Definition parse_response (text : str) : outcome pyval :=
  json_loads (strip_fences (strip text)).

(** [score_job_with_ollama]: the requests it posted and the value it
    returned, [None] after any exception. *)
Definition score_job_with_ollama (job : Job) : list ScoringRequest * pyval :=
  let request := build_request job in
  ([request],
   try_except
     (match post request with
      | ConnectionFailed => Raised
      | TimedOut => Raised
      | Replied body =>
          b ← body;
          text ← response_text b;
          parse_response text
      end)
     VNone).

(** ** Filter and rank *)

(** The four [continue] tests of the scoring loop of [main]; [Ret true]
    means the pair is appended to [scored].  [.get] and [<] can raise, and
    nothing in [main] catches that. *)
Definition passes_filter (analysis : pyval) : outcome bool :=
  if negb (truthy analysis) then Ret false
  else
    is_backend ← py_get analysis (pystr "is_backend") VNone;
    if negb (truthy is_backend) then Ret false
    else
      is_remote ← py_get analysis (pystr "is_remote") VNone;
      if negb (truthy is_remote) then Ret false
      else
        fit_score ← py_get analysis (pystr "fit_score") (VInt 0);
        below ← py_lt_int fit_score 5;
        Ret (negb below).

(** The scoring loop of [main]: each listing is scored and put through the
    tests before the next one is scored.  The first component lists the
    requests posted, in order; an exception that escapes ends the loop. *)
Fixpoint scoring_loop (jobs : list Job)
  : list ScoringRequest * outcome (list (Job * pyval)) :=
  match jobs with
  | [] => ([], Ret [])
  | job :: jobs' =>
      let '(posted, analysis) := score_job_with_ollama job in
      match passes_filter analysis with
      | Raised => (posted, Raised)
      | Ret keep =>
          let '(posted', rest) := scoring_loop jobs' in
          (posted ++ posted',
           scored ← rest;
           Ret (if keep : bool then (job, analysis) :: scored else scored))
      end
  end.

(** The same tests over pairs that are already scored: what the loop does
    to the pairs that enter the filter. *)
Fixpoint filter_scored (pairs : list (Job * pyval)) : outcome (list (Job * pyval)) :=
  match pairs with
  | [] => Ret []
  | (job, analysis) :: pairs' =>
      keep ← passes_filter analysis;
      scored ← filter_scored pairs';
      Ret (if keep : bool then (job, analysis) :: scored else scored)
  end.

(** [x[1].get("fit_score", 0)] as the number that the sort compares.  Every
    pair that passed the filter has a number there. *)
Definition fit_key (x : Job * pyval) : pyfloat :=
  match f ← py_get (snd x) (pystr "fit_score") (VInt 0); number f with
  | Ret q => q
  | Raised => of_int 0
  end.

(** [scored.sort(key=..., reverse=True); top_10 = scored[:10]] *)
Definition rank (scored : list (Job * pyval)) : list (Job * pyval) :=
  take 10 (list_sort_desc fit_key scored).

(** Filter and rank over pairs that are already scored. *)
Definition filter_rank (pairs : list (Job * pyval)) : outcome (list (Job * pyval)) :=
  scored ← filter_scored pairs; Ret (rank scored).

(** Step 3 of [main]: the requests posted and the shortlist, unless an
    exception escapes. *)
Definition main_scoring (jobs : list Job)
  : list ScoringRequest * outcome (list (Job * pyval)) :=
  let '(posted, scored) := scoring_loop jobs in
  (posted, s ← scored; Ret (rank s)).

(** [main] of [job_agent_2.py] after the two feed adapters have run. *)
Definition main (browser : Browser) (weworkremotely remotive : list Job)
  : list ScoringRequest * outcome (list (Job * pyval)) :=
  let all_jobs :=
    scrape_all_boards weworkremotely remotive
      (scrape_himalayas browser) (scrape_workingnomads browser) in
  let unique_jobs := map (fetch_job_detail browser) (take 40 all_jobs) in
  main_scoring unique_jobs.

(** [main] of [job_agent.py] over a list of boards. *)
Definition main_v1 (browser : Browser) (boards : list Board)
  : list ScoringRequest * outcome (list (Job * pyval)) :=
  let all_jobs := concat (map (scrape_board browser) boards) in
  let unique_jobs := map (fetch_job_detail_v1 browser) (take 40 (dedup_by_link all_jobs)) in
  main_scoring unique_jobs.

End Scoring.

(** ** Recency filter *)

(** [time.struct_time], as feedparser fills [published_parsed]. *)
Record struct_time : Type := {
  tm_year : Z; tm_mon : Z; tm_mday : Z; tm_hour : Z; tm_min : Z; tm_sec : Z;
  tm_wday : Z; tm_yday : Z; tm_isdst : Z
}.

(** A [datetime]: its wall-clock reading in microseconds, and the UTC offset
    of its fixed-offset [tzinfo] in microseconds, or [None] when naive. *)
Record datetime : Type := { wall : Z; tzinfo : option Z }.

(** One reading of the clock.  [time.time()] is a float; it is taken here as
    the exact number of seconds. *)
Record Clock : Type := {
  time_time : Q;
  utc_now : Z;
  local_now : Z
}.

(** The entry of a feed, by what [entry.get] returns for each key. *)
Record FeedEntry : Type := {
  published_parsed : option struct_time;
  updated_parsed : option struct_time;
  published : option str;
  updated : option str;
  entry_summary : option str
}.

(** The date and time library: each of the three calls can raise. *)
Class TimeLib := {
  mktime : struct_time -> outcome Q;
  parsedate_to_datetime : str -> outcome datetime;
  strptime_B_d_Y : str -> outcome datetime
}.

Section Recency.
Context {U : Unicode} {T : TimeLib}.

(** [datetime.now(tz)]: the wall-clock reading in that zone. *)
Definition datetime_now (clock : Clock) (tz : option Z) : Z :=
  match tz with
  | Some offset => (utc_now clock + offset)%Z
  | None => local_now clock
  end.

Definition microseconds_per_day : Z := 86400000000%Z.

(** [(a - b).days]: a [timedelta] keeps its days rounded towards minus
    infinity. *)
Definition timedelta_days (a b : Z) : Z := ((a - b) / microseconds_per_day)%Z.

Definition month_names : list str :=
  [pystr "January"; pystr "February"; pystr "March"; pystr "April";
   pystr "May"; pystr "June"; pystr "July"; pystr "August";
   pystr "September"; pystr "October"; pystr "November"; pystr "December"].

Fixpoint any_of (words : list str) : regex :=
  match words with
  | [] => Chr (fun _ => false)
  | [w] => Lit w
  | w :: ws => Alt (Lit w) (any_of ws)
  end.

(** [(January|...|December)\s+\d{1,2},?\s+(\d{4})] *)
Definition date_re : regex :=
  Seq (any_of month_names) (Seq (Plus is_space)
  (Seq (Chr is_digit) (Seq (Opt (Chr is_digit)) (Seq (Opt (Chr (one comma)))
  (Seq (Plus is_space)
  (Seq (Chr is_digit) (Seq (Chr is_digit) (Seq (Chr is_digit) (Chr is_digit))))))))).

(** [s.replace(",", "")] *)
Definition remove_commas (s : str) : str :=
  List.filter (fun c => negb (c =? comma)%N) s.

(** The date that the body of the entry spells out, if [strptime] takes it. *)
Definition date_in_body (summary : str) : option datetime :=
  match re_search date_re summary with
  | Some (_, m, _) =>
      match strptime_B_d_Y (remove_commas m) with
      | Ret parsed => Some parsed
      | Raised => None
      end
  | None => None
  end.

Definition first_some {A} (a b : option A) : option A :=
  match a with Some _ => a | None => b end.

(** [entry.get("published") or entry.get("updated") or ""] *)
Definition raw_date (entry : FeedEntry) : str :=
  match published entry with
  | Some (c :: s) => c :: s
  | _ => or_empty (updated entry)
  end.

(** [is_recent].  [mktime] is called outside any [try], so the function
    itself can raise. *)
Definition is_recent (clock : Clock) (entry : FeedEntry) (days : Z) : outcome bool :=
  match first_some (published_parsed entry) (updated_parsed entry) with
  | Some st =>
      t ← mktime st;
      let age_days := ((time_time clock - t) / 86400)%Q in
      Ret (Qle_bool age_days (inject_Z days))
  | None =>
      let from_raw :=
        if nonempty (raw_date entry) then
          match parsedate_to_datetime (raw_date entry) with
          | Ret parsed =>
              Some (timedelta_days (datetime_now clock (tzinfo parsed)) (wall parsed)
                    <=? days)%Z
          | Raised => None
          end
        else None in
      match from_raw with
      | Some answer => Ret answer
      | None =>
          match date_in_body (or_empty (entry_summary entry)) with
          | Some parsed => Ret (timedelta_days (local_now clock) (wall parsed) <=? days)%Z
          | None => Ret true
          end
      end
  end.

End Recency.

(** ** Feed-based adapters *)

(** [s.partition(sep)] for a non-empty separator: the text before the first
    occurrence of [sep], the separator, and the text after it; the whole
    text and two empty strings when [sep] does not occur. *)
Fixpoint str_partition (sep s : str) : str * str * str :=
  match strip_prefix sep s with
  | Some rest => ([], sep, rest)
  | None =>
      match s with
      | [] => ([], [], [])
      | c :: s' => let '(before, found, rest) := str_partition sep s' in
                   (c :: before, found, rest)
      end
  end.

(** The title of a We Work Remotely entry reads "Company: Job Title":
    [company, _, job_title = title.partition(": ")], and the whole title
    with an empty company when nothing follows the separator. *)
Definition wwr_title_split (title : str) : str * str :=
  let '(company, _, job_title) := str_partition (pystr ": ") title in
  if nonempty job_title then (company, job_title) else ([], title).

(** [BeautifulSoup(raw, "html.parser").get_text()] is given. *)
Class HtmlLib := { get_text : str -> outcome str }.

(** An entry of a feed: its date fields and summary, and what [entry.get]
    returns for the title, the link and the author. *)
Record FeedItem : Type := {
  item_entry : FeedEntry;
  item_title : option str;
  item_link : option str;
  item_author : option str
}.

Section Feeds.
Context {U : Unicode} {T : TimeLib} {H : HtmlLib}.

Definition weworkremotely_source : str := pystr "We Work Remotely".
Definition remotive_source : str := pystr "Remotive".

(** One iteration of the entry loop of [scrape_weworkremotely_rss], with
    the reading of the clock at that moment: [Ret None] is [continue]. *)
Definition weworkremotely_entry (clock : Clock) (item : FeedItem) : outcome (option Job) :=
  recent ← is_recent clock (item_entry item) 30;
  if negb recent then Ret None
  else
    let title := strip (or_empty (item_title item)) in
    let link := strip (or_empty (item_link item)) in
    let '(company, job_title) := wwr_title_split title in
    text ← get_text (or_empty (entry_summary (item_entry item)));
    let summary_full := strip (take 2000 text) in
    let summary_short := take 300 summary_full in
    let salary := extract_salary summary_full in
    if negb (nonempty job_title) || negb (nonempty link) then Ret None
    else
      Ret (Some {| title := strip job_title; company := Some (strip company);
                   link := link; salary := salary; summary := summary_short;
                   description := Some summary_full;
                   source := weworkremotely_source |}).

(** One iteration of the entry loop of [scrape_remotive_rss]. *)
Definition remotive_entry (clock : Clock) (item : FeedItem) : outcome (option Job) :=
  recent ← is_recent clock (item_entry item) 30;
  if negb recent then Ret None
  else
    let title := strip (or_empty (item_title item)) in
    let link := strip (or_empty (item_link item)) in
    let company := strip (or_empty (item_author item)) in
    text ← get_text (or_empty (entry_summary (item_entry item)));
    let summary_full := strip (take 2000 text) in
    let summary_short := take 300 summary_full in
    let salary := extract_salary summary_full in
    if negb (nonempty title) || negb (nonempty link) then Ret None
    else
      Ret (Some {| title := title; company := Some company;
                   link := link; salary := salary; summary := summary_short;
                   description := Some summary_full;
                   source := remotive_source |}).

(** The entry loop of both feed adapters.  The [try] is around the whole
    loop: a raise ends the loop and the listings appended so far stay. *)
Fixpoint feed_entries (entry : Clock -> FeedItem -> outcome (option Job))
    (items : list (Clock * FeedItem)) : list Job :=
  match items with
  | [] => []
  | (clock, item) :: items' =>
      match entry clock item with
      | Raised => []
      | Ret None => feed_entries entry items'
      | Ret (Some job) => job :: feed_entries entry items'
      end
  end.

(** [scrape_weworkremotely_rss] and [scrape_remotive_rss]: [feed] is what
    [feedparser.parse(url).entries] yields, each entry with the reading of
    the clock at the moment it is examined. *)
Definition scrape_weworkremotely_rss (feed : outcome (list (Clock * FeedItem))) : list Job :=
  match feed with
  | Ret items => feed_entries weworkremotely_entry items
  | Raised => []
  end.

Definition scrape_remotive_rss (feed : outcome (list (Clock * FeedItem))) : list Job :=
  match feed with
  | Ret items => feed_entries remotive_entry items
  | Raised => []
  end.

End Feeds.

(** ** Digest *)

(** [v >= n] for an [int] literal [n]; [TypeError] for a non-number. *)
Definition py_ge_int (v : pyval) (n : Z) : outcome bool :=
  x ← number v; Ret (float_le (of_int n) x).

(** [score_color] and [score_label] of [build_email]. *)
Definition score_color (score : pyval) : outcome str :=
  strong ← py_ge_int score 8;
  if strong : bool then Ret (pystr "#27ae60")
  else
    decent ← py_ge_int score 6;
    if decent : bool then Ret (pystr "#f39c12") else Ret (pystr "#e74c3c").

Definition score_label (score : pyval) : outcome str :=
  strong ← py_ge_int score 8;
  if strong : bool then Ret (pystr "Strong fit")
  else
    decent ← py_ge_int score 6;
    if decent : bool then Ret (pystr "Decent fit") else Ret (pystr "Weak fit").

(** [score = analysis.get("fit_score", 0)] *)
Definition card_score (analysis : pyval) : outcome pyval :=
  py_get analysis (pystr "fit_score") (VInt 0).

(** * Vocabulary of the properties *)

(** ** Salary extraction *)

(** [result] is the leftmost substring of [text] that is a word of [shape],
    or the empty string when no substring of [text] is one. *)
Definition leftmost_match (shape : str -> Prop) (text result : str) : Prop :=
  (exists pre post,
     text = pre ++ result ++ post /\ shape result /\
     forall pre' m' post', text = pre' ++ m' ++ post' -> shape m' ->
       length pre <= length pre') \/
  (result = [] /\
   forall pre' m' post', text = pre' ++ m' ++ post' -> ~ shape m').

(** Can the pattern match the empty string, and which characters can end a
    non-empty match? *)
Fixpoint nullable (r : regex) : bool :=
  match r with
  | Eps => true
  | Chr _ => false
  | Seq r1 r2 => nullable r1 && nullable r2
  | Alt r1 r2 => nullable r1 || nullable r2
  | Opt _ => true
  | Star _ => true
  end.

Fixpoint last_char (r : regex) (c : char) : bool :=
  match r with
  | Eps => false
  | Chr p => p c
  | Seq r1 r2 => last_char r2 c || (nullable r2 && last_char r1 c)
  | Alt r1 r2 => last_char r1 c || last_char r2 c
  | Opt r1 => last_char r1 c
  | Star p => p c
  end.

Section SalaryVocabulary.
Context {U : Unicode}.

(** The shape in the words of the specification: the upper bound has "the
    same shape" as the lower one, dollar sign included. *)
Definition claimed_upper : regex :=
  Opt (Seq (Star is_space) (Seq (Chr dash) (Seq (Star is_space)
      (Seq (Chr (one dollar)) (Seq (Plus digit_or_comma) opt_k))))).

Definition claimed_salary_re : regex :=
  Seq (Chr (one dollar)) (Seq (Plus digit_or_comma) (Seq opt_k
      (Seq claimed_upper salary_unit))).

End SalaryVocabulary.

(** ** Normaliser *)

(** Position [i] of [all_jobs] holds [job], whose link is not empty, is not
    in [seen], and is carried by no earlier listing. *)
Definition fresh_occurrence (seen : gset str) (all_jobs : list Job)
    (i : nat) (job : Job) : Prop :=
  all_jobs !! i = Some job /\ link job <> [] /\ (link job ∉ seen) /\
  forall i' job', i' < i -> all_jobs !! i' = Some job' -> link job' <> link job.

(** Position [i] of [all_jobs] holds the first listing with its (non-empty)
    link. *)
Definition first_occurrence (all_jobs : list Job) (i : nat) (job : Job) : Prop :=
  fresh_occurrence ∅ all_jobs i job.

(** ** Filter and rank *)

(** The verdict of the data model: every field present and of its type. *)
Record FitAssessment : Type := {
  fit_score : Z;
  is_backend : bool;
  is_remote : bool;
  estimated_salary : str;
  salary_in_range : bool;
  fit_summary : str;
  key_match : str;
  concern : str
}.

(** The [dict] that [json.loads] returns for such a verdict. *)
Definition assessment_dict (a : FitAssessment) : gmap str pyval :=
  list_to_map
    [(pystr "fit_score", VInt (fit_score a));
     (pystr "is_backend", VBool (is_backend a));
     (pystr "is_remote", VBool (is_remote a));
     (pystr "estimated_salary", VStr (estimated_salary a));
     (pystr "salary_in_range", VBool (salary_in_range a));
     (pystr "fit_summary", VStr (fit_summary a));
     (pystr "key_match", VStr (key_match a));
     (pystr "concern", VStr (concern a))].

Definition scored_pair (p : Job * FitAssessment) : Job * pyval :=
  (fst p, VDict (assessment_dict (snd p))).

(** The admission rule in the words of the specification. *)
Definition admitted (p : Job * FitAssessment) : bool :=
  is_backend (snd p) && is_remote (snd p) && (5 <=? fit_score (snd p))%Z.

Definition has_score (s : Z) (p : Job * FitAssessment) : bool :=
  (fit_score (snd p) =? s)%Z.

(** The example of the specification: scores 9, 7, 5, 4, 8, where the 4 is
    not remote and the 5 is not backend. *)
Definition example_job (name : string) : Job :=
  {| title := pystr name; company := Some []; link := pystr "https://example.com/" ++ pystr name;
     salary := []; summary := []; description := None; source := pystr "Remotive" |}.

Definition example_assessment (score : Z) (backend remote : bool) : FitAssessment :=
  {| fit_score := score; is_backend := backend; is_remote := remote;
     estimated_salary := []; salary_in_range := true; fit_summary := [];
     key_match := []; concern := pystr "None" |}.

Definition example_pairs : list (Job * FitAssessment) :=
  [(example_job "a", example_assessment 9 true true);
   (example_job "b", example_assessment 7 true true);
   (example_job "c", example_assessment 5 false true);
   (example_job "d", example_assessment 4 true false);
   (example_job "e", example_assessment 8 true true)].

(** A verdict that lacks a key, or holds a falsy value under it. *)
Definition lacks_or_falsy (d : gmap str pyval) (key : str) : Prop :=
  match d !! key with
  | None => True
  | Some v => truthy v = false
  end.

(** A verdict that is incomplete for the filter. *)
Definition incomplete (d : gmap str pyval) : Prop :=
  lacks_or_falsy d (pystr "is_backend") \/
  lacks_or_falsy d (pystr "is_remote") \/
  d !! pystr "fit_score" = None.

(** A verdict without the ["is_backend"] key. *)
Definition example_incomplete : gmap str pyval :=
  list_to_map [(pystr "fit_score", VInt 9); (pystr "is_remote", VBool true)].

(** ** Detail fetcher *)

(** [job'] has every field of [job] except, possibly, the description. *)
Definition same_but_description (job job' : Job) : Prop :=
  title job' = title job /\ company job' = company job /\ link job' = link job /\
  salary job' = salary job /\ summary job' = summary job /\ source job' = source job.

(** [p] occurs in [s]. *)
Definition occurs_in (p s : str) : Prop := exists pre post, s = pre ++ p ++ post.

Section DetailVocabulary.
Context {U : Unicode}.

(** The acceptance rule of [job_agent_2.py] in words: at least 150
    characters, and no noise phrase in the lower-cased text. *)
Definition acceptable (text : str) : Prop :=
  150 <= length text /\
  forall phrase, phrase ∈ noise_phrases -> ~ occurs_in phrase (lower text).

(** The same rule as the two tests of the loop. *)
Definition accepts (text : str) : bool :=
  negb (length text <? 150) && negb (has_noise text).

(** The acceptance rule of [job_agent.py]: more than 200 characters. *)
Definition acceptable_v1 (text : str) : Prop := 200 < length text.

(** The texts that the element loop can get to see for one selector: those
    of the elements before the first whose [inner_text] raises. *)
Fixpoint element_texts (els : list Element) : list str :=
  match els with
  | [] => []
  | el :: els' =>
      match inner_text el with
      | Ret t => strip t :: element_texts els'
      | Raised => []
      end
  end.

(** The candidates of a page in strategy order: selector by selector, and
    within a selector in document order. *)
Definition candidate_texts (page : Page) (selectors : list str) : list str :=
  flat_map
    (fun selector =>
       match page_query_selector_all page selector with
       | Ret els => element_texts els
       | Raised => []
       end)
    selectors.

(** The candidates of [job_agent.py]: the first element of each selector,
    up to the first call that raises. *)
Fixpoint candidate_texts_v1 (page : Page) (selectors : list str) : list str :=
  match selectors with
  | [] => []
  | selector :: selectors' =>
      match page_query_selector page selector with
      | Raised => []
      | Ret None => candidate_texts_v1 page selectors'
      | Ret (Some e) =>
          match inner_text e with
          | Raised => []
          | Ret t => strip t :: candidate_texts_v1 page selectors'
          end
      end
  end.

End DetailVocabulary.

(** A widget text of 212 characters that holds a noise phrase, and a clean
    posting text of 160 characters. *)
Definition widget_text : str := pystr "Related jobs" ++ repeat 120%N 200.
Definition posting_text : str := repeat 121%N 160.

Definition text_element (t : str) : Element :=
  El (Ret t) (fun _ => Ret None) (fun _ => Ret None).

(** A page that shows the widget and then the posting under
    [.job-description], and the widget as the first element whose class
    holds [description]. *)
Definition example_detail_page : Page :=
  {| page_query_selector_all :=
       fun sel => if bool_decide (sel = pystr ".job-description")
                  then Ret [text_element widget_text; text_element posting_text]
                  else Ret [];
     page_query_selector :=
       fun sel => if bool_decide (sel = pystr "[class*='description']")
                  then Ret (Some (text_element widget_text))
                  else Ret None |}.

Definition example_detail_browser : Browser := fun _ => Ret example_detail_page.

(** ** Scoring client *)

Definition lbrace : char := 123%N.
Definition rbrace : char := 125%N.
Definition dquote : char := 34%N.

Section ScoringVocabulary.
Context {U : Unicode}.

Definition blank (w : str) : Prop := Forall (fun c => is_space c = true) w.

(** The text of a JSON object: between optional white space, it starts with
    an opening brace and ends with a closing one. *)
Definition json_object_text (x : str) : Prop :=
  exists w1 body w2,
    x = w1 ++ (lbrace :: body ++ [rbrace]) ++ w2 /\ blank w1 /\ blank w2.

(** [x] inside a fenced code block that is marked as JSON. *)
Definition fenced (ws1 x ws2 : str) : str :=
  fence ++ pystr "json" ++ ws1 ++ x ++ ws2 ++ fence.

(** The failures of one scoring call: the transport fails, the call times
    out, the body of the reply is not JSON, the body has no text under
    ["response"], or that text, fences stripped, is not JSON. *)
Inductive scoring_failure (json_loads : str -> outcome pyval) : HttpReply -> Prop :=
| fail_connection : scoring_failure json_loads ConnectionFailed
| fail_timeout : scoring_failure json_loads TimedOut
| fail_body_not_json : scoring_failure json_loads (Replied Raised)
| fail_no_response_text body :
    response_text body = Raised -> scoring_failure json_loads (Replied (Ret body))
| fail_text_not_json body text :
    response_text body = Ret text -> parse_response json_loads text = Raised ->
    scoring_failure json_loads (Replied (Ret body)).

End ScoringVocabulary.

(** A generated text that is a JSON object with three of the eight fields,
    and the value [json.loads] returns for it. *)
Definition quoted (s : string) : str := dquote :: pystr s ++ [dquote].

Definition three_field_text : str :=
  pystr "{" ++ quoted "is_backend" ++ pystr ": true, " ++
  quoted "is_remote" ++ pystr ": true, " ++
  quoted "fit_score" ++ pystr ": 9}".

Definition three_fields : gmap str pyval :=
  list_to_map [(pystr "is_backend", VBool true); (pystr "is_remote", VBool true);
               (pystr "fit_score", VInt 9)].

(** [json.loads] on the text of the example; no other text is parsed in it. *)
Definition example_loads (s : str) : outcome pyval :=
  if bool_decide (s = three_field_text) then Ret (VDict three_fields) else Raised.

(** An endpoint that answers every request with that text. *)
Definition example_post (_ : ScoringRequest) : HttpReply :=
  Replied (Ret (VDict (list_to_map [(pystr "response", VStr three_field_text)]))).

(** ** Recency filter *)

(** The instant that a UTC tuple denotes, in seconds since the epoch
    ([calendar.timegm]): the days from 1970-01-01 to the civil date, and the
    time of day. *)
Definition days_from_civil (y m d : Z) : Z :=
  let y' := if (m <=? 2)%Z then (y - 1)%Z else y in
  let era := (y' / 400)%Z in
  let yoe := (y' - era * 400)%Z in
  let mp := ((m + 9) mod 12)%Z in
  let doy := ((153 * mp + 2) / 5 + d - 1)%Z in
  let doe := (yoe * 365 + yoe / 4 - yoe / 100 + doy)%Z in
  (era * 146097 + doe - 719468)%Z.

Definition timegm (st : struct_time) : Z :=
  (86400 * days_from_civil (tm_year st) (tm_mon st) (tm_mday st)
   + 3600 * tm_hour st + 60 * tm_min st + tm_sec st)%Z.

(** The date library of a host whose local time is [offset] seconds ahead
    of UTC all year: [time.mktime] reads its tuple as local time, so the
    instant it returns is [offset] seconds before the one the same tuple
    denotes in UTC.  No text is parsed. *)
Definition zone_timelib (offset : Z) : TimeLib :=
  {| mktime := fun st => Ret (inject_Z (timegm st - offset));
     parsedate_to_datetime := fun _ => Raised;
     strptime_B_d_Y := fun _ => Raised |}.

(** An entry that the feed dates 2026-01-10 00:00:00 UTC ([published_parsed]
    is a UTC tuple), and the clock exactly thirty days later. *)
Definition boundary_stamp : struct_time :=
  {| tm_year := 2026; tm_mon := 1; tm_mday := 10; tm_hour := 0; tm_min := 0;
     tm_sec := 0; tm_wday := 5; tm_yday := 10; tm_isdst := 0 |}.

Definition boundary_entry : FeedEntry :=
  {| published_parsed := Some boundary_stamp;
     updated_parsed := None; published := None; updated := None; entry_summary := None |}.

Definition boundary_clock : Clock :=
  {| time_time := inject_Z (timegm boundary_stamp + 30 * 86400);
     utc_now := 0; local_now := 0 |}.

(** A date library for the example: [mktime] counts the seconds into the
    year, and no text is parsed. *)
Definition example_timelib : TimeLib :=
  {| mktime := fun st =>
       Ret (inject_Z (86400 * tm_yday st + 3600 * tm_hour st + 60 * tm_min st + tm_sec st));
     parsedate_to_datetime := fun _ => Raised;
     strptime_B_d_Y := fun _ => Raised |}.

(** An entry published on day 10 of the year, read on day 40. *)
Definition example_entry : FeedEntry :=
  {| published_parsed :=
       Some {| tm_year := 2026; tm_mon := 1; tm_mday := 10; tm_hour := 0; tm_min := 0;
               tm_sec := 0; tm_wday := 5; tm_yday := 10; tm_isdst := 0 |};
     updated_parsed := None; published := None; updated := None; entry_summary := None |}.

Definition example_clock : Clock :=
  {| time_time := inject_Z (86400 * 40); utc_now := 0; local_now := 0 |}.

(** ** Page-based adapters *)

(** A Working Nomads item whose title link reads [t] and points to [href]. *)
Definition example_item (t href : string) : Element :=
  let title_el := El (Ret (pystr t)) (fun _ => Ret (Some (pystr href))) (fun _ => Ret None) in
  El (Ret (pystr t)) (fun _ => Ret None)
     (fun sel => if bool_decide (sel = pystr "a.job-title, h2 a, h3 a")
                 then Ret (Some title_el) else Ret None).

(** A browser that shows two items, both titled "QA". *)
Definition example_listing : Browser :=
  fun _ =>
    Ret {| page_query_selector_all :=
             fun _ => Ret [example_item "QA" "/jobs/1"; example_item "QA" "/jobs/2"];
           page_query_selector := fun _ => Ret None |}.

(** ** More vocabulary *)

(** [s] neither starts nor ends with a character of the class [p]. *)
Definition trimmed (p : char -> bool) (s : str) : Prop :=
  (forall c s', s = c :: s' -> p c = false) /\
  (forall s' c, s = s' ++ [c] -> p c = false).

(** The loop of the normaliser as a recursion over the listings still to
    come, from a given [seen]. *)
Fixpoint dedup_from (seen : gset str) (all_jobs : list Job) : list Job :=
  match all_jobs with
  | [] => []
  | job :: rest =>
      if nonempty (link job) && bool_decide (link job ∉ seen)
      then job :: dedup_from ({[link job]} ∪ seen) rest
      else dedup_from seen rest
  end.

(** The links that the loop has put in [seen] after [all_jobs]. *)
Definition seen_links (all_jobs : list Job) : gset str :=
  list_to_set (List.filter nonempty (link <$> all_jobs)).

(** A value that [analysis.get] can be called on. *)
Definition is_dict (v : pyval) : bool :=
  match v with VDict _ => true | _ => false end.

(** The band of a score on the digest card. *)
Inductive band : Type := Strong | Decent | Weak.

Definition band_color (b : band) : str :=
  match b with
  | Strong => pystr "#27ae60"
  | Decent => pystr "#f39c12"
  | Weak => pystr "#e74c3c"
  end.

Definition band_label (b : band) : str :=
  match b with
  | Strong => pystr "Strong fit"
  | Decent => pystr "Decent fit"
  | Weak => pystr "Weak fit"
  end.

(** A parsed reply that is a JSON array: truthy, and not an object. *)
Definition array_reply_text : str := pystr "[1]".

Definition array_loads (s : str) : outcome pyval :=
  if bool_decide (s = array_reply_text) then Ret (VList [VInt 1]) else Raised.

Definition array_post (_ : ScoringRequest) : HttpReply :=
  Replied (Ret (VDict (list_to_map [(pystr "response", VStr array_reply_text)]))).

(** The shape of a listing of [scrape_board]: a title of at most 120
    characters on one line, no company and no description, the name of the
    board as source, and a salary that is empty or holds a dollar sign. *)
Definition board_listing (board : Board) (job : Job) : Prop :=
  length (title job) <= 120 /\ (newline ∉ title job) /\
  company job = None /\ description job = None /\
  source job = board_name board /\
  (salary job = [] \/ dollar ∈ salary job).

(** A board and a card whose first link is relative. *)
Definition example_board : Board :=
  {| board_name := pystr "Example"; board_url := pystr "https://example.com/jobs" |}.

Definition example_card : Element :=
  let a := El Raised (fun _ => Ret (Some (pystr "/jobs/1"))) (fun _ => Raised) in
  El (Ret (pystr "Backend Engineer")) (fun _ => Ret None) (fun _ => Ret (Some a)).

(** No listing of [earlier] carries the link of [job]. *)
Definition link_unseen_in (earlier : list Job) (job : Job) : bool :=
  forallb (fun job' => negb (bool_decide (link job' = link job))) earlier.

(** The shape of a listing of a feed adapter: a title and a link that are
    not empty and carry no white space at either end, a company, and a
    description of at most 2000 characters from which the summary (its
    first 300 characters) and the salary are taken. *)
Definition feed_listing `{U : Unicode} (src : str) (job : Job) : Prop :=
  title job <> [] /\ trimmed is_space (title job) /\
  link job <> [] /\ trimmed is_space (link job) /\
  (exists c, company job = Some c /\ trimmed is_space c) /\
  source job = src /\
  exists d, description job = Some d /\ length d <= 2000 /\ trimmed is_space d /\
            summary job = take 300 d /\ salary job = extract_salary d.

(** A date library whose [mktime] raises, as [time.mktime] does with
    [OverflowError] for a date out of its range. *)
Definition failing_timelib : TimeLib :=
  {| mktime := fun _ => Raised;
     parsedate_to_datetime := fun _ => Raised;
     strptime_B_d_Y := fun _ => Raised |}.

(** Markup-free summaries: [get_text] returns the text as it is. *)
Definition plain_html : HtmlLib := {| get_text := fun raw => Ret raw |}.

Definition example_feed_item : FeedItem :=
  {| item_entry := example_entry;
     item_title := Some (pystr "Acme: Backend Engineer");
     item_link := Some (pystr "https://example.com/jobs/1");
     item_author := None |}.

(** An interpreter whose sort leaves a list with a [nan] key as it is. *)
Definition sort_as_is : PySort :=
  {| sort_unordered := fun A key l => l;
     sort_unordered_perm := fun A key l => Permutation_refl l |}.

(** A verdict that is backend and remote, with the given value under
    "fit_score". *)
Definition scored_verdict (score : pyval) : pyval :=
  VDict (list_to_map [(pystr "is_backend", VBool true); (pystr "is_remote", VBool true);
                      (pystr "fit_score", score)]).

(** ** The salary shape in words *)

Section SalaryShape.
Context {U : Unicode}.

(** A run of digits and commas, not empty. *)
Definition amount_text (s : str) : Prop :=
  s <> [] /\ Forall (fun c => is_digit c = true \/ c = comma) s.

(** The letters of [w], each in either case. *)
Definition in_either_case (w : string) (s : str) : Prop :=
  Forall2 (fun p c => ci_eq p c = true) (pystr w) s.

(** An optional "k". *)
Definition k_text (s : str) : Prop := s = [] \/ in_either_case "k" s.

(** An optional upper bound: a hyphen or an en dash with optional white
    space on both sides, an optional dollar sign, an amount, an optional
    "k". *)
Definition upper_text (s : str) : Prop :=
  s = [] \/
  exists ws1 d ws2 dol amt k,
    s = ws1 ++ d :: ws2 ++ dol ++ amt ++ k /\
    blank ws1 /\ (d = hyphen \/ d = en_dash) /\ blank ws2 /\
    (dol = [] \/ dol = [dollar]) /\ amount_text amt /\ k_text k.

(** "USD", "/yr", "/year" or "annually". *)
Definition unit_word (w : str) : Prop :=
  in_either_case "USD" w \/
  (exists w', w = slash :: w' /\ (in_either_case "yr" w' \/ in_either_case "year" w')) \/
  in_either_case "annually" w.

(** An optional unit after optional white space. *)
Definition unit_text (s : str) : Prop :=
  s = [] \/ exists ws w, s = ws ++ w /\ blank ws /\ unit_word w.

(** The shape of a salary: a dollar sign, an amount, an optional "k", an
    optional upper bound and an optional unit. *)
Definition salary_text (m : str) : Prop :=
  exists amt k up unit,
    m = dollar :: amt ++ k ++ up ++ unit /\
    amount_text amt /\ k_text k /\ upper_text up /\ unit_text unit.

(** Facts of the Unicode character database about the classes that the
    salary shape is made of: the en dash is neither white space nor a
    decimal digit nor a case variant of a letter, no decimal digit is a case
    variant of a letter, and no character is a case variant of two
    different letters. *)
Definition classes_apart : Prop :=
  uni_space en_dash = false /\ uni_decimal en_dash = false /\
  (forall p, uni_caseless p en_dash = false) /\
  (forall p c, uni_decimal c = true -> uni_caseless p c = false) /\
  (forall p p' c, uni_caseless p c = true -> uni_caseless p' c = true ->
                  ascii_lower p = ascii_lower p').

(** The greedy reading of the shape, part by part, as what is left of the
    text after the part: digit runs are taken in full, and an optional part
    is taken when it is there. *)
Fixpoint strip_ci (w s : str) : option str :=
  match w, s with
  | [], _ => Some s
  | _ :: _, [] => None
  | p :: w', c :: s' => if ci_eq p c then strip_ci w' s' else None
  end.

Definition eat_amount (s : str) : option str :=
  match s with
  | c :: t => if digit_or_comma c then Some (lstrip_by digit_or_comma t) else None
  | [] => None
  end.

Definition eat_k (s : str) : str :=
  match s with
  | c :: t => if ci_eq 107%N c then t else s
  | [] => []
  end.

Definition eat_dollar (s : str) : str :=
  match s with
  | c :: t => if (c =? dollar)%N then t else s
  | [] => []
  end.

Definition eat_upper (s : str) : option str :=
  match lstrip_by is_space s with
  | d :: t =>
      if dash d
      then option_map eat_k (eat_amount (eat_dollar (lstrip_by is_space t)))
      else None
  | [] => None
  end.

Definition strip_slash_ci (w t : str) : option str :=
  match t with
  | c :: t' => if (c =? slash)%N then strip_ci w t' else None
  | [] => None
  end.

Definition eat_unit_word (t : str) : option str :=
  match strip_ci (pystr "USD") t with
  | Some r => Some r
  | None =>
      match strip_slash_ci (pystr "yr") t with
      | Some r => Some r
      | None =>
          match strip_slash_ci (pystr "year") t with
          | Some r => Some r
          | None => strip_ci (pystr "annually") t
          end
      end
  end.

Definition eat_unit (s : str) : option str := eat_unit_word (lstrip_by is_space s).

Definition or_stay (s : str) (eaten : option str) : str :=
  match eaten with Some t => t | None => s end.

Definition eat_salary (s : str) : option str :=
  match s with
  | c :: s0 =>
      if (c =? dollar)%N
      then match eat_amount s0 with
           | Some s1 =>
               let s2 := eat_k s1 in
               let s3 := or_stay s2 (eat_upper s2) in
               Some (or_stay s3 (eat_unit s3))
           | None => None
           end
      else None
  | [] => None
  end.

End SalaryShape.

(** [result] is the leftmost substring of [text] that has the [shape], and
    the longest one that starts there; or the empty string when no
    substring of [text] has it. *)
Definition leftmost_longest (shape : str -> Prop) (text result : str) : Prop :=
  (exists pre post,
     text = pre ++ result ++ post /\ shape result /\
     forall pre' m' post', text = pre' ++ m' ++ post' -> shape m' ->
       length pre < length pre' \/
       (length pre = length pre' /\ length m' <= length result)) \/
  (result = [] /\
   forall pre' m' post', text = pre' ++ m' ++ post' -> ~ shape m').

(** Closes a goal whose premise equates a raise, or a skip, with a result. *)
Ltac raised := let H := fresh in intros H; discriminate H.

(** * Properties *)

(** ** The matcher against the words of a pattern *)

Section ReFacts.

Lemma star_sound {A} p s (k : str -> option A) x :
  star p s k = Some x ->
  exists m rest, s = m ++ rest /\ Forall (fun c => p c = true) m /\ k rest = Some x.
Proof.
  induction s as [|c s IH]; simpl; intros H.
  - exists [], []. auto.
  - destruct (p c) eqn:Hp.
    + destruct (star p s k) as [y|] eqn:Hs.
      * inversion H; subst y.
        destruct (IH eq_refl) as (m & rest & -> & Hm & Hk).
        exists (c :: m), rest. auto.
      * exists [], (c :: s). auto.
    + exists [], (c :: s). auto.
Qed.

Lemma bt_sound {A} r : forall s (k : str -> option A) x,
  bt r s k = Some x ->
  exists m rest, s = m ++ rest /\ matches r m /\ k rest = Some x.
Proof.
  induction r as [|p|r1 IH1 r2 IH2|r1 IH1 r2 IH2|r1 IH1|p]; simpl; intros s k x H.
  - exists [], s. split; [reflexivity|]. split; [constructor | assumption].
  - destruct s as [|c s]; [discriminate|].
    destruct (p c) eqn:Hp; [|discriminate].
    exists [c], s. split; [reflexivity|]. split; [constructor; assumption | assumption].
  - destruct (IH1 _ _ _ H) as (m1 & rest1 & -> & Hm1 & H1).
    destruct (IH2 _ _ _ H1) as (m2 & rest2 & -> & Hm2 & H2).
    exists (m1 ++ m2), rest2. rewrite <- app_assoc.
    split; [reflexivity|]. split; [constructor; assumption | assumption].
  - destruct (bt r1 s k) as [y|] eqn:H1.
    + inversion H; subst y.
      destruct (IH1 _ _ _ H1) as (m & rest & -> & Hm & Hk).
      exists m, rest. split; [reflexivity|]. split; [apply m_alt_l; assumption | assumption].
    + destruct (IH2 _ _ _ H) as (m & rest & -> & Hm & Hk).
      exists m, rest. split; [reflexivity|]. split; [apply m_alt_r; assumption | assumption].
  - destruct (bt r1 s k) as [y|] eqn:H1.
    + inversion H; subst y.
      destruct (IH1 _ _ _ H1) as (m & rest & -> & Hm & Hk).
      exists m, rest. split; [reflexivity|]. split; [apply m_opt_take; assumption | assumption].
    + exists [], s. split; [reflexivity|]. split; [apply m_opt_skip | assumption].
  - destruct (star_sound _ _ _ _ H) as (m & rest & -> & Hm & Hk).
    exists m, rest. split; [reflexivity|]. split; [constructor; assumption | assumption].
Qed.

Lemma star_fallback {A} p s (k : str -> option A) x :
  k s = Some x -> is_Some (star p s k).
Proof.
  intros Hk. destruct s as [|c s]; simpl.
  - rewrite Hk. eauto.
  - destruct (p c); [|rewrite Hk; eauto].
    destruct (star p s k); [eauto | rewrite Hk; eauto].
Qed.

Lemma star_complete {A} p m : forall rest (k : str -> option A) x,
  Forall (fun c => p c = true) m -> k rest = Some x -> is_Some (star p (m ++ rest) k).
Proof.
  induction m as [|c m IH]; intros rest k x Hm Hk.
  - simpl. eapply star_fallback; eassumption.
  - inversion Hm as [|? ? Hc Hm']; subst. simpl. rewrite Hc.
    destruct (IH rest k x Hm' Hk) as [y Hy]. rewrite Hy. eauto.
Qed.

Lemma bt_complete {A} r m :
  matches r m ->
  forall rest (k : str -> option A) x, k rest = Some x -> is_Some (bt r (m ++ rest) k).
Proof.
  induction 1 as [|p c Hp|r1 r2 s1 s2 H1 IH1 H2 IH2|r1 r2 s H1 IH1|r1 r2 s H2 IH2
                  |r|r s H1 IH1|p s Hs]; intros rest k x Hk; simpl.
  - rewrite Hk. eauto.
  - rewrite Hp, Hk. eauto.
  - rewrite <- app_assoc.
    destruct (IH2 rest k x Hk) as [y Hy].
    exact (IH1 (s2 ++ rest) (fun s => bt r2 s k) y Hy).
  - destruct (IH1 rest k x Hk) as [y Hy]. rewrite Hy. eauto.
  - destruct (bt r1 (s ++ rest) k); [eauto|]. exact (IH2 rest k x Hk).
  - destruct (bt r rest k); [eauto|]. rewrite Hk. eauto.
  - destruct (IH1 rest k x Hk) as [y Hy]. rewrite Hy. eauto.
  - eapply star_complete; eassumption.
Qed.

(** [re.match] finds a prefix that is a word of the pattern, and finds one
    whenever some prefix is. *)
Lemma re_match_sound r s m rest :
  re_match r s = Some (m, rest) -> s = m ++ rest /\ matches r m.
Proof.
  unfold re_match. destruct (bt r s Some) as [rest'|] eqn:H; [|discriminate].
  intros E. inversion E; subst rest'. clear E.
  destruct (bt_sound _ _ _ _ H) as (m' & rest'' & -> & Hm & Hk).
  inversion Hk; subst rest''.
  rewrite length_app.
  replace (length m' + length rest - length rest) with (length m') by lia.
  rewrite take_app_length. auto.
Qed.

Lemma re_match_complete r m rest :
  matches r m -> is_Some (re_match r (m ++ rest)).
Proof.
  intros Hm. unfold re_match.
  destruct (bt_complete r m Hm rest Some rest eq_refl) as [y Hy].
  rewrite Hy. eauto.
Qed.

Lemma re_fullmatch_spec r s : re_fullmatch r s = true <-> matches r s.
Proof.
  unfold re_fullmatch. split.
  - destruct (bt r s _) as [u|] eqn:H; [|discriminate]. intros _.
    destruct (bt_sound _ _ _ _ H) as (m & rest & -> & Hm & Hk).
    destruct rest; [|discriminate]. rewrite app_nil_r. assumption.
  - intros Hm.
    destruct (bt_complete r s Hm [] (fun rest => match rest with [] => Some tt | _ => None end)
                tt eq_refl) as [y Hy].
    rewrite app_nil_r in Hy. rewrite Hy. reflexivity.
Qed.

(** [re.search] returns the leftmost match. *)
Lemma re_search_some r s pre m post :
  re_search r s = Some (pre, m, post) ->
  s = pre ++ m ++ post /\ matches r m /\
  forall pre' m' post', s = pre' ++ m' ++ post' -> matches r m' ->
    length pre <= length pre'.
Proof.
  revert pre. induction s as [|c s IH]; intros pre; simpl.
  - destruct (re_match r []) as [[m0 rest0]|] eqn:Hm; [|discriminate].
    intros E. inversion E; subst. destruct (re_match_sound _ _ _ _ Hm) as [E1 ?].
    split; [exact E1|]. split; [assumption|]. intros; simpl; lia.
  - destruct (re_match r (c :: s)) as [[m0 rest0]|] eqn:Hm.
    + intros E. inversion E; subst. destruct (re_match_sound _ _ _ _ Hm) as [E1 ?].
      split; [exact E1|]. split; [assumption|]. intros; simpl; lia.
    + destruct (re_search r s) as [[[pre0 m0] post0]|] eqn:Hs; [|discriminate].
      intros E. inversion E; subst.
      destruct (IH pre0 eq_refl) as (-> & Hm0 & Hleft).
      split; [reflexivity|]. split; [assumption|].
      intros pre' m' post' E' Hm'. destruct pre' as [|c' pre'].
      * simpl in E'. rewrite E' in Hm.
        destruct (re_match_complete r m' post' Hm') as [y Hy]. congruence.
      * simpl in E'. inversion E' as [[Ec Es]]. simpl.
        specialize (Hleft pre' m' post' Es Hm'). lia.
Qed.

Lemma re_search_none r s :
  re_search r s = None ->
  forall pre' m' post', s = pre' ++ m' ++ post' -> ~ matches r m'.
Proof.
  induction s as [|c s IH]; simpl.
  - destruct (re_match r []) as [[m0 rest0]|] eqn:Hm; [discriminate|].
    intros _ pre' m' post' E Hm'.
    destruct pre'; [|discriminate]. simpl in E. rewrite E in Hm.
    destruct (re_match_complete r m' post' Hm') as [y Hy]. congruence.
  - destruct (re_match r (c :: s)) as [[m0 rest0]|] eqn:Hm; [discriminate|].
    destruct (re_search r s) as [[[pre0 m0] post0]|] eqn:Hs; [discriminate|].
    intros _ pre' m' post' E Hm'. destruct pre' as [|c' pre'].
    + simpl in E. rewrite E in Hm.
      destruct (re_match_complete r m' post' Hm') as [y Hy]. congruence.
    + simpl in E. inversion E as [[Ec Es]]. exact (IH eq_refl pre' m' post' Es Hm').
Qed.

End ReFacts.

(** ** Normaliser *)

Section DedupFacts.

Lemma StronglySorted_lt_shift (idx : list nat) :
  StronglySorted lt idx -> StronglySorted lt (map S idx).
Proof.
  induction 1 as [|i idx Hs IH Hall]; simpl; constructor.
  - assumption.
  - rewrite Forall_forall in *. intros j Hj.
    apply list_elem_of_fmap in Hj as (j' & -> & Hj'). apply Hall in Hj'. lia.
Qed.

Lemma fresh_occurrence_skip seen job0 l i job :
  (link job0 = [] \/ link job0 ∈ seen) ->
  fresh_occurrence seen (job0 :: l) (S i) job <-> fresh_occurrence seen l i job.
Proof.
  intros Hskip. unfold fresh_occurrence. simpl. split.
  - intros (Hi & Hne & Hseen & Hfirst). repeat split; try assumption.
    intros i' job' Hlt Hi'. apply (Hfirst (S i') job'); [lia | assumption].
  - intros (Hi & Hne & Hseen & Hfirst). repeat split; try assumption.
    intros [|i'] job' Hlt Hi'; simpl in Hi'.
    + inversion Hi'; subst job'. destruct Hskip as [E|E]; congruence.
    + apply (Hfirst i' job'); [lia | assumption].
Qed.

Lemma fresh_occurrence_keep seen job0 l i job :
  fresh_occurrence seen (job0 :: l) (S i) job <->
  fresh_occurrence ({[link job0]} ∪ seen) l i job.
Proof.
  unfold fresh_occurrence. simpl. split.
  - intros (Hi & Hne & Hseen & Hfirst).
    assert (link job0 <> link job) by (apply (Hfirst 0 job0); [lia | reflexivity]).
    repeat split; try assumption; [set_solver|].
    intros i' job' Hlt Hi'. apply (Hfirst (S i') job'); [lia | assumption].
  - intros (Hi & Hne & Hseen & Hfirst). repeat split; try assumption; [set_solver|].
    intros [|i'] job' Hlt Hi'; simpl in Hi'.
    + inversion Hi'; subst job'. set_solver.
    + apply (Hfirst i' job'); [lia | assumption].
Qed.

Lemma nonempty_true (s : str) : nonempty s = true <-> s <> [].
Proof. destruct s; simpl; split; congruence. Qed.

(** The loop, from any state: what it appends is the listings at the fresh
    positions, in increasing position. *)
Lemma dedup_loop_spec (l : list Job) : forall seen acc,
  exists idx out seen',
    fold_left dedup_step l (seen, acc) = (seen', acc ++ out) /\
    StronglySorted lt idx /\
    Forall2 (fresh_occurrence seen l) idx out /\
    (forall i job, fresh_occurrence seen l i job -> i ∈ idx) /\
    NoDup (link <$> out) /\
    (forall job, job ∈ out -> link job ∉ seen).
Proof.
  induction l as [|job0 l IH]; intros seen acc.
  - exists [], [], seen. simpl. rewrite app_nil_r.
    repeat split; try constructor.
    + intros i job (Hi & _). destruct i; discriminate.
    + intros job Hj. inversion Hj.
  - simpl. destruct (nonempty (link job0) && bool_decide (link job0 ∉ seen)) eqn:Hkeep.
    + apply andb_true_iff in Hkeep as [Hne Hseen].
      apply nonempty_true in Hne. apply bool_decide_eq_true in Hseen.
      destruct (IH ({[link job0]} ∪ seen) (acc ++ [job0]))
        as (idx & out & seen' & Heq & Hsorted & Hall & Hcomplete & Hnodup & Hout).
      exists (0 :: map S idx), (job0 :: out), seen'.
      split; [rewrite Heq, <- app_assoc; reflexivity|].
      split.
      { constructor; [apply StronglySorted_lt_shift; assumption|].
        rewrite Forall_forall. intros j Hj.
        apply list_elem_of_fmap in Hj as (j' & -> & _). lia. }
      split.
      { constructor.
        - unfold fresh_occurrence. simpl. repeat split; try assumption. intros; lia.
        - apply Forall2_fmap_l. eapply Forall2_impl; [exact Hall|].
          intros i job Hf. apply fresh_occurrence_keep. assumption. }
      split.
      { intros [|i] job Hf; [left|].
        right. apply list_elem_of_fmap. exists i. split; [reflexivity|].
        apply (Hcomplete i job). apply fresh_occurrence_keep. assumption. }
      split.
      { simpl. constructor; [|assumption].
        intros Hin. apply list_elem_of_fmap in Hin as (job & E & Hj).
        apply Hout in Hj. set_solver. }
      intros job Hj. inversion Hj; subst; [assumption|].
      match goal with H : job ∈ out |- _ => apply Hout in H end. set_solver.
    + assert (Hskip : link job0 = [] \/ link job0 ∈ seen).
      { apply andb_false_iff in Hkeep as [Hne|Hseen].
        - left. destruct (link job0); [reflexivity | discriminate].
        - right. apply bool_decide_eq_false in Hseen.
          destruct (decide (link job0 ∈ seen)); [assumption | contradiction]. }
      destruct (IH seen acc)
        as (idx & out & seen' & Heq & Hsorted & Hall & Hcomplete & Hnodup & Hout).
      exists (map S idx), out, seen'.
      split; [assumption|].
      split; [apply StronglySorted_lt_shift; assumption|].
      split.
      { apply Forall2_fmap_l. eapply Forall2_impl; [exact Hall|].
        intros i job Hf. apply fresh_occurrence_skip; assumption. }
      split.
      { intros [|i] job Hf.
        - destruct Hf as (Hi & Hne & Hseen & _). simpl in Hi. inversion Hi; subst job.
          destruct Hskip; contradiction.
        - apply list_elem_of_fmap. exists i. split; [reflexivity|].
          apply (Hcomplete i job). apply (fresh_occurrence_skip seen job0); assumption. }
      split; assumption.
Qed.

End DedupFacts.

(** C1.  The normaliser keeps exactly the listings that stand at the first
    occurrence of a non-empty link in the merged sequence: the output lists
    them in increasing position (so in the order of those first
    occurrences) and every such position is represented.  Hence no two kept
    listings share a link, no kept listing has an empty link, and for every
    listing with a non-empty link the first listing that carries this link
    is kept. *)
Theorem dedup_keeps_first_occurrences (all_jobs : list Job) :
  let unique := dedup_by_link all_jobs in
  (exists positions : list nat,
     StronglySorted lt positions /\
     Forall2 (first_occurrence all_jobs) positions unique /\
     forall i job, first_occurrence all_jobs i job -> i ∈ positions) /\
  NoDup (link <$> unique) /\
  (forall job, job ∈ unique -> link job <> []) /\
  (forall job0, job0 ∈ all_jobs -> link job0 <> [] ->
     exists i job,
       list_find (fun j => link j = link job0) all_jobs = Some (i, job) /\
       job ∈ unique).
Proof.
  unfold dedup_by_link, first_occurrence.
  destruct (dedup_loop_spec all_jobs ∅ [])
    as (idx & out & seen' & Heq & Hsorted & Hall & Hcomplete & Hnodup & _).
  rewrite Heq. simpl.
  split; [exists idx; auto|]. split; [assumption|]. split.
  - intros job Hjob. apply list_elem_of_lookup in Hjob as [p Hp].
    destruct (Forall2_lookup_r _ _ _ _ _ Hall Hp) as (i & _ & _ & Hne & _). assumption.
  - intros job0 Hin Hne.
    destruct (list_find_elem_of (fun j => link j = link job0) all_jobs job0 Hin eq_refl)
      as [[i job] Hfind].
    exists i, job. split; [assumption|].
    apply list_find_Some in Hfind as (Hi & Hlink & Hfirst).
    assert (Hocc : fresh_occurrence ∅ all_jobs i job).
    { unfold fresh_occurrence. repeat split; [assumption|congruence|set_solver|].
      intros i' job' Hlt Hi'. rewrite Hlink. exact (Hfirst i' job' Hi' Hlt). }
    apply Hcomplete in Hocc. apply list_elem_of_lookup in Hocc as [p Hp].
    destruct (Forall2_lookup_l _ _ _ _ _ Hall Hp) as (job' & Hp' & Hi' & _).
    assert (job' = job) by congruence. subst job'.
    apply list_elem_of_lookup. eauto.
Qed.

(** ** Sorting *)

Section OrderFacts.

Lemma Qlt_bool_true x y : Qlt_bool x y = true <-> (x < y)%Q.
Proof.
  unfold Qlt_bool. rewrite negb_true_iff. split.
  - intros H. apply Qnot_le_lt. intros Hle. apply Qle_bool_iff in Hle. congruence.
  - intros H. destruct (Qle_bool y x) eqn:E; [|reflexivity].
    apply Qle_bool_iff in E. exfalso. exact (Qlt_not_le _ _ H E).
Qed.

Lemma Qlt_bool_false x y : Qlt_bool x y = false <-> (y <= x)%Q.
Proof.
  unfold Qlt_bool. rewrite negb_false_iff. apply Qle_bool_iff.
Qed.

Lemma float_lt_le x y : float_lt x y = true -> float_le x y = true.
Proof.
  destruct x as [a| | |], y as [b| | |]; simpl; try reflexivity; try discriminate.
  intros H. apply Qlt_bool_true in H. apply Qle_bool_iff, Qlt_le_weak. exact H.
Qed.

(** Away from [nan] the order is total. *)
Lemma float_lt_false x y :
  is_nan x = false -> is_nan y = false -> float_lt x y = false -> float_le y x = true.
Proof.
  destruct x as [a| | |], y as [b| | |]; simpl; try reflexivity; try discriminate.
  intros _ _ H. apply Qlt_bool_false in H. apply Qle_bool_iff. exact H.
Qed.

Lemma float_le_trans x y z :
  float_le x y = true -> float_le y z = true -> float_le x z = true.
Proof.
  destruct x as [a| | |], y as [b| | |], z as [c| | |]; simpl;
    try reflexivity; try discriminate.
  intros H1 H2. apply Qle_bool_iff in H1, H2. apply Qle_bool_iff.
  eapply Qle_trans; eassumption.
Qed.

Lemma float_le_not_lt x y : float_le x y = true -> float_lt y x = false.
Proof.
  destruct x as [a| | |], y as [b| | |]; simpl; try reflexivity; try discriminate.
  intros H. apply Qlt_bool_false. apply Qle_bool_iff in H. exact H.
Qed.

End OrderFacts.

Section SortFacts.
Context {A : Type} (key : A -> pyfloat).

Lemma insert_desc_perm x l : Permutation (insert_desc key x l) (x :: l).
Proof.
  induction l as [|y l IH]; simpl; [reflexivity|].
  destruct (float_lt (key x) (key y)); [|reflexivity].
  rewrite IH. apply perm_swap.
Qed.

Lemma sort_desc_perm l : Permutation (sort_desc key l) l.
Proof.
  induction l as [|x l IH]; simpl; [reflexivity|].
  rewrite insert_desc_perm. constructor. assumption.
Qed.

Lemma ordered_keys_cons x l :
  ordered_keys key (x :: l) = true <-> is_nan (key x) = false /\ ordered_keys key l = true.
Proof.
  unfold ordered_keys. simpl. rewrite andb_true_iff, negb_true_iff. reflexivity.
Qed.

Lemma ordered_keys_elem l x : ordered_keys key l = true -> x ∈ l -> is_nan (key x) = false.
Proof.
  unfold ordered_keys. rewrite forallb_forall. intros H Hx.
  apply negb_true_iff. apply H. apply list_elem_of_In. exact Hx.
Qed.

Lemma insert_desc_sorted x l :
  ordered_keys key (x :: l) = true ->
  StronglySorted (key_ge key) l -> StronglySorted (key_ge key) (insert_desc key x l).
Proof.
  intros Hord Hs. apply ordered_keys_cons in Hord as [Hx Hord]. revert Hord.
  induction Hs as [|y l Hs IH Hall]; simpl; intros Hord.
  - constructor; constructor.
  - apply ordered_keys_cons in Hord as [Hy Hord].
    destruct (float_lt (key x) (key y)) eqn:E.
    + constructor; [apply IH; assumption|].
      rewrite Forall_forall in *. intros z Hz.
      rewrite (insert_desc_perm x l) in Hz. apply elem_of_cons in Hz as [->|Hz].
      * unfold key_ge. apply float_lt_le. assumption.
      * apply Hall. assumption.
    + apply float_lt_false in E; [|assumption|assumption].
      constructor; [constructor; assumption|].
      constructor; [exact E|].
      rewrite Forall_forall in *. intros z Hz. unfold key_ge in *.
      apply float_le_trans with (key y); [apply Hall; assumption | exact E].
Qed.

Lemma sort_desc_sorted l :
  ordered_keys key l = true -> StronglySorted (key_ge key) (sort_desc key l).
Proof.
  induction l as [|x l IH]; simpl; intros Hord; [constructor|].
  apply insert_desc_sorted.
  - apply ordered_keys_cons in Hord as [Hx Hord]. apply ordered_keys_cons. split; [assumption|].
    unfold ordered_keys in *. rewrite forallb_forall in *. intros z Hz. apply Hord.
    apply list_elem_of_In. apply list_elem_of_In in Hz.
    rewrite (sort_desc_perm l) in Hz. exact Hz.
  - apply IH. apply ordered_keys_cons in Hord as [_ Hord]. exact Hord.
Qed.

(** Stability: the items with any one key keep their order. *)
Lemma insert_desc_stable (same : A -> bool) x l :
  (forall y, same x = true -> same y = true -> float_lt (key x) (key y) = false) ->
  List.filter same (insert_desc key x l) = List.filter same (x :: l).
Proof.
  intros Hsame. induction l as [|y l IH]; [reflexivity|].
  simpl. destruct (float_lt (key x) (key y)) eqn:E; [|reflexivity].
  simpl. simpl in IH. rewrite IH.
  assert (Hxy : same x = true -> same y = true -> False).
  { intros Hx Hy. rewrite (Hsame y Hx Hy) in E. discriminate. }
  destruct (same x), (same y); try reflexivity. exfalso; auto.
Qed.

Lemma sort_desc_stable (same : A -> bool) l :
  (forall x y, same x = true -> same y = true -> float_lt (key x) (key y) = false) ->
  List.filter same (sort_desc key l) = List.filter same l.
Proof.
  intros Hsame. induction l as [|x l IH]; [reflexivity|].
  simpl sort_desc. rewrite insert_desc_stable by (intros y; apply Hsame).
  simpl. rewrite IH. reflexivity.
Qed.

(** Whatever the keys, the sort rearranges the list. *)
Lemma list_sort_desc_perm `{S : PySort} l : Permutation (list_sort_desc key l) l.
Proof.
  unfold list_sort_desc. destruct (ordered_keys key l);
    [apply sort_desc_perm | apply sort_unordered_perm].
Qed.

Lemma list_sort_desc_ordered `{S : PySort} l :
  ordered_keys key l = true -> list_sort_desc key l = sort_desc key l.
Proof. intros H. unfold list_sort_desc. rewrite H. reflexivity. Qed.

End SortFacts.

Lemma insert_desc_ext {A} (k1 k2 : A -> pyfloat) x l :
  (forall y, k1 y = k2 y) -> insert_desc k1 x l = insert_desc k2 x l.
Proof.
  intros E. induction l as [|y l IH]; simpl; [reflexivity|].
  rewrite !E, IH. reflexivity.
Qed.

Lemma sort_desc_ext {A} (k1 k2 : A -> pyfloat) l :
  (forall y, k1 y = k2 y) -> sort_desc k1 l = sort_desc k2 l.
Proof.
  intros E. induction l as [|x l IH]; simpl; [reflexivity|].
  rewrite IH. apply insert_desc_ext. assumption.
Qed.

Lemma insert_desc_map {A B} (f : A -> B) (key : B -> pyfloat) x l :
  insert_desc key (f x) (map f l) = map f (insert_desc (fun a => key (f a)) x l).
Proof.
  induction l as [|y l IH]; simpl; [reflexivity|].
  destruct (float_lt (key (f x)) (key (f y))); simpl; [rewrite IH|]; reflexivity.
Qed.

Lemma sort_desc_map {A B} (f : A -> B) (key : B -> pyfloat) l :
  sort_desc key (map f l) = map f (sort_desc (fun a => key (f a)) l).
Proof.
  induction l as [|x l IH]; simpl; [reflexivity|].
  rewrite IH. apply insert_desc_map.
Qed.

(** ** Filter and rank *)

Section FilterRankFacts.

Lemma Qlt_bool_inject_Z (a b : Z) : Qlt_bool (inject_Z a) (inject_Z b) = (a <? b)%Z.
Proof.
  unfold Qlt_bool, Qle_bool. simpl. rewrite !Z.mul_1_r.
  rewrite Z.ltb_antisym. reflexivity.
Qed.

Lemma passes_filter_assessment (a : FitAssessment) job :
  passes_filter (VDict (assessment_dict a)) = Ret (admitted (job, a)).
Proof.
  destruct a as [f b r es sr fs km cn].
  set (a := {| fit_score := f; is_backend := b; is_remote := r; estimated_salary := es;
               salary_in_range := sr; fit_summary := fs; key_match := km; concern := cn |}).
  assert (Ht : truthy (VDict (assessment_dict a)) = true) by (vm_compute; reflexivity).
  assert (Hb : assessment_dict a !! pystr "is_backend" = Some (VBool b))
    by (vm_compute; reflexivity).
  assert (Hr : assessment_dict a !! pystr "is_remote" = Some (VBool r))
    by (vm_compute; reflexivity).
  assert (Hf : assessment_dict a !! pystr "fit_score" = Some (VInt f))
    by (vm_compute; reflexivity).
  revert Ht Hb Hr Hf. generalize (assessment_dict a). intros d Ht Hb Hr Hf.
  unfold passes_filter, admitted, py_get. rewrite Ht. simpl. rewrite Hb. simpl.
  destruct b; simpl; [|reflexivity]. rewrite Hr. simpl.
  destruct r; simpl; [|reflexivity]. rewrite Hf. simpl.
  unfold py_lt_int, of_int. simpl. rewrite Qlt_bool_inject_Z, Z.leb_antisym. reflexivity.
Qed.

Lemma fit_key_assessment (p : Job * FitAssessment) :
  fit_key (scored_pair p) = of_int (fit_score (snd p)).
Proof.
  destruct p as [job [f b r es sr fs km cn]].
  set (a := {| fit_score := f; is_backend := b; is_remote := r; estimated_salary := es;
               salary_in_range := sr; fit_summary := fs; key_match := km; concern := cn |}).
  assert (Hf : assessment_dict a !! pystr "fit_score" = Some (VInt f))
    by (vm_compute; reflexivity).
  unfold fit_key, scored_pair. simpl snd.
  revert Hf. generalize (assessment_dict a). intros d Hf.
  unfold py_get. simpl. rewrite Hf. reflexivity.
Qed.

Lemma filter_scored_assessments (pairs : list (Job * FitAssessment)) :
  filter_scored (map scored_pair pairs) = Ret (map scored_pair (List.filter admitted pairs)).
Proof.
  induction pairs as [|[job a] pairs IH]; [reflexivity|].
  simpl. rewrite (passes_filter_assessment a job), IH. simpl.
  destruct (admitted (job, a)); reflexivity.
Qed.

Lemma filter_scored_elem pairs : forall kept,
  filter_scored pairs = Ret kept ->
  forall p, p ∈ kept -> passes_filter (snd p) = Ret true /\ p ∈ pairs.
Proof.
  induction pairs as [|[job a] pairs IH]; simpl; intros kept H p Hp.
  - inversion H; subst. inversion Hp.
  - destruct (passes_filter a) as [keep|] eqn:Ea; [|discriminate]. simpl in H.
    destruct (filter_scored pairs) as [scored|]; [|discriminate]. simpl in H.
    inversion H; subst kept. clear H.
    destruct keep.
    + apply elem_of_cons in Hp as [->|Hp].
      * split; [assumption | left].
      * destruct (IH scored eq_refl p Hp). split; [assumption | right; assumption].
    + destruct (IH scored eq_refl p Hp). split; [assumption | right; assumption].
Qed.

Lemma StronglySorted_impl {A} (R R' : A -> A -> Prop) l :
  (forall a b, R a b -> R' a b) -> StronglySorted R l -> StronglySorted R' l.
Proof.
  intros HR. induction 1 as [|x l Hs IH Hall]; constructor; [assumption|].
  eapply Forall_impl; [exact Hall|]. intros; apply HR; assumption.
Qed.

(** The scoring loop of [main] filters the scored pairs with these tests. *)
Lemma scoring_loop_filters `{U : Unicode} post json_loads (jobs : list Job) :
  snd (scoring_loop post json_loads jobs) =
  filter_scored (map (fun job => (job, snd (score_job_with_ollama post json_loads job))) jobs).
Proof.
  induction jobs as [|job jobs IH]; [reflexivity|].
  simpl. destruct (passes_filter _) as [keep|]; [|reflexivity].
  destruct (scoring_loop post json_loads jobs) as [posted' rest]. simpl in *.
  rewrite <- IH. reflexivity.
Qed.

(** Step 3 of [main] is filter and rank over the scored pairs. *)
Lemma main_scoring_ranks `{U : Unicode} `{S : PySort} post json_loads (jobs : list Job) :
  snd (main_scoring post json_loads jobs) =
  filter_rank (map (fun job => (job, snd (score_job_with_ollama post json_loads job))) jobs).
Proof.
  unfold main_scoring, filter_rank. rewrite <- scoring_loop_filters.
  destruct (scoring_loop post json_loads jobs). reflexivity.
Qed.

Lemma ordered_keys_of_int {A} (score : A -> Z) l :
  ordered_keys (fun a => of_int (score a)) l = true.
Proof. unfold ordered_keys. apply forallb_forall. intros; reflexivity. Qed.

End FilterRankFacts.

(** C2, as the code has it.  Of the pairs that enter the filter, exactly
    those whose verdict is backend, remote and scored at least 5 are kept;
    the kept pairs are sorted by score, highest first, pairs of equal score
    keeping their incoming order; the first ten are the shortlist.  For the
    scores 9, 7, 5, 4, 8 where the 4 is not remote and the 5 is not backend,
    the shortlist is the pairs scored 9, 8 and 7, in this order. *)
Theorem filter_rank_admits_sorts_truncates `{S : PySort} (pairs : list (Job * FitAssessment)) :
  let kept := List.filter admitted pairs in
  (exists ranked,
     Permutation ranked kept /\
     StronglySorted (fun a b => (fit_score (snd b) <= fit_score (snd a))%Z) ranked /\
     (forall s, List.filter (has_score s) ranked = List.filter (has_score s) kept) /\
     filter_rank (map scored_pair pairs) = Ret (map scored_pair (take 10 ranked))) /\
  filter_rank (map scored_pair example_pairs) =
    Ret (map scored_pair
           [(example_job "a", example_assessment 9 true true);
            (example_job "e", example_assessment 8 true true);
            (example_job "b", example_assessment 7 true true)]).
Proof.
  intros kept. split; [|vm_compute; reflexivity].
  exists (sort_desc (fun p => of_int (fit_score (snd p))) kept).
  split; [apply sort_desc_perm|].
  split.
  { eapply StronglySorted_impl; [|apply sort_desc_sorted, ordered_keys_of_int].
    intros a b. unfold key_ge, of_int. simpl. intros H.
    apply Qle_bool_iff in H. rewrite <- Zle_Qle in H. exact H. }
  split.
  { intros s. apply sort_desc_stable. intros x y Hx Hy.
    unfold has_score in *. apply Z.eqb_eq in Hx, Hy.
    unfold of_int. simpl. rewrite Qlt_bool_inject_Z. apply Z.ltb_ge. lia. }
  unfold filter_rank. rewrite filter_scored_assessments. simpl. f_equal.
  unfold rank. fold kept.
  assert (Hkeys : sort_desc fit_key (map scored_pair kept)
                  = map scored_pair (sort_desc (fun p => of_int (fit_score (snd p))) kept)).
  { rewrite sort_desc_map.
    rewrite (sort_desc_ext (fun p => fit_key (scored_pair p))
               (fun p => of_int (fit_score (snd p))))
      by (intros p; apply fit_key_assessment).
    reflexivity. }
  rewrite list_sort_desc_ordered, Hkeys, <- fmap_take; [reflexivity|].
  unfold ordered_keys. apply forallb_forall. intros x Hx.
  apply in_map_iff in Hx as (p & <- & _). rewrite fit_key_assessment. reflexivity.
Qed.

(** The shortlist of the example is not the pair scored 9 followed by the
    pair scored 8: the pair scored 7 passes all three tests and is ranked
    third. *)
Lemma filter_rank_example_keeps_the_seven :
  @filter_rank sort_as_is (map scored_pair example_pairs) <>
    Ret (map scored_pair
           [(example_job "a", example_assessment 9 true true);
            (example_job "e", example_assessment 8 true true)]).
Proof.
  intros H. vm_compute in H. discriminate H.
Qed.

Section IncompleteFacts.

Lemma passes_filter_key (a : pyval) (job : Job) :
  passes_filter a = Ret true -> float_lt (fit_key (job, a)) (of_int 5) = false.
Proof.
  unfold passes_filter, fit_key. simpl snd.
  destruct (truthy a); simpl; [|discriminate].
  destruct a as [| | | | | |d]; simpl; try discriminate.
  destruct (truthy _); simpl; [|discriminate].
  destruct (truthy _); simpl; [|discriminate].
  unfold py_lt_int.
  destruct (number _) as [q|]; simpl; [|discriminate].
  intros H. injection H as Hq. apply negb_true_iff in Hq. exact Hq.
Qed.

Lemma incomplete_fails_filter (d : gmap str pyval) : incomplete d -> passes_filter (VDict d) = Ret false.
Proof.
  unfold incomplete, lacks_or_falsy, passes_filter, py_get. intros H.
  destruct (truthy (VDict d)); simpl; [|reflexivity].
  destruct (d !! pystr "is_backend") as [b|] eqn:Eb; simpl.
  - destruct (truthy b) eqn:Tb; simpl; [|reflexivity].
    destruct (d !! pystr "is_remote") as [r|] eqn:Er; simpl; [|reflexivity].
    destruct (truthy r) eqn:Tr; simpl; [|reflexivity].
    destruct H as [H|[H|H]]; try discriminate.
    rewrite H. reflexivity.
  - reflexivity.
Qed.

End IncompleteFacts.

(** C10.  A parsed verdict that lacks the [is_backend] or the [is_remote]
    key (or holds a falsy value there), or lacks the [fit_score] key, is
    rejected by the tests of the filter without any exception; without
    [fit_score] its sort key is 0, which is below the threshold 5, while no
    admitted pair has a key below 5; and no shortlist contains a pair with
    such a verdict. *)
Theorem incomplete_assessment_never_shortlisted `{S : PySort} (d : gmap str pyval) :
  incomplete d ->
  passes_filter (VDict d) = Ret false /\
  (d !! pystr "fit_score" = None ->
   forall job, fit_key (job, VDict d) = of_int 0 /\
               float_lt (fit_key (job, VDict d)) (of_int 5) = true) /\
  (forall job a, passes_filter a = Ret true ->
                 float_lt (fit_key (job, a)) (of_int 5) = false) /\
  forall pairs shortlist job,
    filter_rank pairs = Ret shortlist -> (job, VDict d) ∉ shortlist.
Proof.
  intros Hinc. pose proof (incomplete_fails_filter d Hinc) as Hrej.
  split; [assumption|]. split.
  { intros Hnone job. unfold fit_key, py_get. simpl. rewrite Hnone. split; reflexivity. }
  split; [intros job a; apply passes_filter_key|].
  intros pairs shortlist job Hrank Hin.
  unfold filter_rank in Hrank.
  destruct (filter_scored pairs) as [kept|] eqn:Hkept; [|discriminate].
  simpl in Hrank. inversion Hrank; subst shortlist. clear Hrank.
  unfold rank in Hin. apply elem_of_take in Hin as (i & Hi & _).
  apply list_elem_of_lookup_2 in Hi. rewrite list_sort_desc_perm in Hi.
  destruct (filter_scored_elem pairs kept Hkept _ Hi) as [Hadm _].
  simpl in Hadm. congruence.
Qed.

Lemma incomplete_assessment_witness : passes_filter (VDict example_incomplete) = Ret false.
Proof.
  refine (proj1 (@incomplete_assessment_never_shortlisted sort_as_is example_incomplete _)).
  left. vm_compute. exact I.
Defined.

(** ** Detail fetcher: the frame *)

(** C8.  Whatever the browser does and whether the fetch is skipped, fails
    or succeeds, the listing that either [fetch_job_detail] returns has the
    title, company, link, salary, summary and source of the listing it was
    given: only the description can differ. *)
Theorem fetch_job_detail_changes_description_only
    `{U : Unicode} (browser : Browser) (job : Job) :
  same_but_description job (fetch_job_detail browser job) /\
  same_but_description job (fetch_job_detail_v1 browser job).
Proof.
  unfold same_but_description. split.
  - unfold fetch_job_detail.
    destruct (has_usable_description job); [auto 10|].
    destruct (negb (nonempty (link job))); [auto 10|].
    destruct (browser (link job)) as [page|]; [|auto 10].
    destruct (scan_selectors page _); simpl; auto 10.
  - unfold fetch_job_detail_v1.
    destruct (negb (nonempty (link job))); [auto 10|].
    destruct (_ ≫= _) as [[text|]|]; simpl; auto 10.
Qed.

(** ** Page-based adapters *)

Section AdapterFacts.
Context `{U : Unicode}.

Lemma scrape_board_card_spec board seen card seen' r :
  scrape_board_card board seen card = Ret (seen', r) ->
  match r with
  | Some job =>
      (title job ∉ seen) /\ 5 <= length (title job) /\ seen' = {[title job]} ∪ seen
  | None => seen' = seen
  end.
Proof.
  unfold scrape_board_card.
  destruct (inner_text card) as [text|]; simpl; [|discriminate].
  destruct (_ || _); [intros H; inversion H; reflexivity|].
  destruct (query_selector card _) as [link_el|]; simpl; [|discriminate].
  match goal with |- context [mbind _ ?m] => destruct m as [lnk|] end;
    simpl; [|discriminate].
  destruct (nonblank_lines _) as [|first more]; [intros H; inversion H; reflexivity|].
  destruct (bool_decide _ || _) eqn:E; [intros H; inversion H; reflexivity|].
  intros H; inversion H; subst; simpl. clear H.
  apply orb_false_iff in E as [E1 E2].
  apply bool_decide_eq_false in E1. apply Nat.ltb_ge in E2. auto.
Qed.

Lemma scrape_board_cards_spec board cards : forall seen,
  let jobs := scrape_board_cards board seen cards in
  NoDup (title <$> jobs) /\
  forall job, job ∈ jobs -> (title job ∉ seen) /\ 5 <= length (title job).
Proof.
  induction cards as [|card cards IH]; intros seen; simpl.
  - split; [constructor|]. intros job Hj. inversion Hj.
  - destruct (scrape_board_card board seen card) as [[seen' [job0|]]|] eqn:E.
    + apply scrape_board_card_spec in E as (Hfresh & Hlen & ->).
      destruct (IH ({[title job0]} ∪ seen)) as [Hnodup Hall].
      split.
      * simpl. constructor; [|assumption].
        intros Hin. apply list_elem_of_fmap in Hin as (job & Et & Hj).
        apply Hall in Hj as [Hj _]. set_solver.
      * intros job Hj. apply elem_of_cons in Hj as [->|Hj]; [auto|].
        apply Hall in Hj as [Hj ?]. split; [set_solver | assumption].
    + apply scrape_board_card_spec in E as ->. apply IH.
    + apply IH.
Qed.

Lemma nonblank_lines_nonempty text first more :
  nonblank_lines text = first :: more -> first <> [].
Proof.
  unfold nonblank_lines. intros E.
  assert (Hin : In first (List.filter nonempty (map strip (split_on newline text))))
    by (rewrite E; left; reflexivity).
  apply filter_In in Hin as [_ Hne]. apply nonempty_true. assumption.
Qed.

Lemma scrape_himalayas_item_spec seen item seen' r :
  scrape_himalayas_item seen item = (seen', r) ->
  match r with
  | Some job =>
      exists href, (href ∉ seen) /\ seen' = {[href]} ∪ seen /\
        link job = make_absolute href himalayas_url /\ title job <> []
  | None => seen ⊆ seen'
  end.
Proof.
  unfold scrape_himalayas_item.
  destruct (get_attribute item _) as [h|]; [|intros H; inversion H; reflexivity].
  destruct (_ <? 2); [intros H; inversion H; reflexivity|].
  destruct (bool_decide _) eqn:Eseen; [intros H; inversion H; reflexivity|].
  apply bool_decide_eq_false in Eseen.
  destruct (inner_text item) as [t|]; [|intros H; inversion H; set_solver].
  destruct (nonblank_lines _) as [|first more] eqn:El; [intros H; inversion H; set_solver|].
  intros H; inversion H; subst; simpl. exists (or_empty h).
  repeat split; try assumption; try reflexivity.
  eapply nonblank_lines_nonempty; eassumption.
Qed.

Lemma scrape_himalayas_items_spec items : forall seen,
  let jobs := scrape_himalayas_items seen items in
  exists hrefs,
    NoDup hrefs /\ (forall h, h ∈ hrefs -> h ∉ seen) /\
    link <$> jobs = (fun h => make_absolute h himalayas_url) <$> hrefs /\
    Forall (fun job => title job <> []) jobs.
Proof.
  induction items as [|item items IH]; intros seen; simpl.
  - exists []. repeat split; try constructor. intros h Hh. inversion Hh.
  - destruct (scrape_himalayas_item seen item) as [seen' [job0|]] eqn:E.
    + apply scrape_himalayas_item_spec in E as (href & Hfresh & -> & Hlink & Htitle).
      destruct (IH ({[href]} ∪ seen)) as (hrefs & Hnodup & Hout & Hlinks & Htitles).
      exists (href :: hrefs). split.
      { constructor; [|assumption]. intros Hin. apply Hout in Hin. set_solver. }
      split.
      { intros h Hh. apply elem_of_cons in Hh as [->|Hh]; [assumption|].
        apply Hout in Hh. set_solver. }
      split; [rewrite !fmap_cons, Hlink, Hlinks; reflexivity|].
      constructor; assumption.
    + apply scrape_himalayas_item_spec in E.
      destruct (IH seen') as (hrefs & Hnodup & Hout & Hlinks & Htitles).
      exists hrefs. repeat split; try assumption.
      intros h Hh. apply Hout in Hh. set_solver.
Qed.

Lemma scrape_workingnomads_item_spec item job :
  scrape_workingnomads_item item = Ret (Some job) -> title job <> [].
Proof.
  unfold scrape_workingnomads_item.
  destruct (query_selector item (pystr "a.job-title, h2 a, h3 a")) as [[title_el|]|];
    simpl; try raised.
  destruct (inner_text title_el) as [t|]; simpl; [|raised].
  destruct (get_attribute title_el _) as [h|]; simpl; [|raised].
  destruct (query_selector item (pystr ".company, [class*='company']")) as [company_el|];
    simpl; [|raised].
  destruct (query_selector item (pystr "[class*='salary']")) as [salary_el|];
    simpl; [|raised].
  destruct (text_of_optional company_el) as [company|]; simpl; [|raised].
  destruct (text_of_optional salary_el) as [salary|]; simpl; [|raised].
  destruct (nonempty (strip t)) eqn:E; simpl; [|raised].
  intros H. inversion H; subst; simpl. apply nonempty_true. assumption.
Qed.

Lemma scrape_workingnomads_items_spec items :
  Forall (fun job => title job <> []) (scrape_workingnomads_items items).
Proof.
  induction items as [|item items IH]; simpl; [constructor|].
  destruct (scrape_workingnomads_item item) as [[job|]|] eqn:E; try assumption.
  constructor; [|assumption]. eapply scrape_workingnomads_item_spec; eassumption.
Qed.

End AdapterFacts.

(** C9, as the code has it.  [scrape_board] skips a candidate whose title is
    shorter than five characters or was already emitted in the run, so its
    listings have pairwise distinct titles of at least five characters.
    [scrape_himalayas] keeps a set of hrefs instead: its listings come from
    pairwise distinct hrefs and have non-empty titles.
    [scrape_workingnomads] keeps no set: its listings have non-empty
    titles. *)
Theorem page_adapters_deduplicate `{U : Unicode} (browser : Browser) (board : Board) :
  (NoDup (title <$> scrape_board browser board) /\
   Forall (fun job => 5 <= length (title job)) (scrape_board browser board)) /\
  (exists hrefs,
     NoDup hrefs /\
     link <$> scrape_himalayas browser = (fun h => make_absolute h himalayas_url) <$> hrefs /\
     Forall (fun job => title job <> []) (scrape_himalayas browser)) /\
  Forall (fun job => title job <> []) (scrape_workingnomads browser).
Proof.
  split; [|split].
  - unfold scrape_board.
    destruct (browser (board_url board)) as [page|]; simpl;
      [|split; constructor].
    destruct (page_query_selector_all page card_selector) as [cards|]; simpl;
      [|split; constructor].
    destruct (scrape_board_cards_spec board (take 60 cards) ∅) as [Hnodup Hall].
    split; [assumption|]. rewrite Forall_forall. intros job Hj. apply Hall. assumption.
  - unfold scrape_himalayas.
    destruct (browser himalayas_url) as [page|]; simpl;
      [|exists []; repeat split; constructor].
    destruct (page_query_selector_all page _) as [items|]; simpl;
      [|exists []; repeat split; constructor].
    destruct (scrape_himalayas_items_spec items ∅) as (hrefs & Hnodup & _ & Hlinks & Ht).
    exists hrefs. auto.
  - unfold scrape_workingnomads.
    destruct (browser workingnomads_url) as [page|]; simpl; [|constructor].
    destruct (page_query_selector_all page _) as [items|]; simpl; [|constructor].
    apply scrape_workingnomads_items_spec.
Qed.

(** Two Working Nomads items with the same two-letter title both become
    listings. *)
Lemma workingnomads_repeats_titles :
  title <$> @scrape_workingnomads ascii_only example_listing = [pystr "QA"; pystr "QA"] /\
  ~ NoDup (title <$> @scrape_workingnomads ascii_only example_listing).
Proof.
  assert (E : title <$> @scrape_workingnomads ascii_only example_listing
              = [pystr "QA"; pystr "QA"]) by (vm_compute; reflexivity).
  split; [exact E|]. rewrite E. intros H.
  apply NoDup_cons in H as [H _]. apply H. left.
Qed.

(** ** Detail fetcher: the strategy list *)

Section TextFacts.

Lemma strip_prefix_spec p : forall s r, strip_prefix p s = Some r <-> s = p ++ r.
Proof.
  induction p as [|a p IH]; intros s r; simpl.
  - split; [intros H; inversion H; reflexivity | intros ->; reflexivity].
  - destruct s as [|c s]; [split; discriminate|].
    destruct (a =? c)%N eqn:E.
    + apply N.eqb_eq in E. subst c. rewrite IH. split; [intros ->; reflexivity|].
      intros H. inversion H. reflexivity.
    + apply N.eqb_neq in E. split; [discriminate|]. intros H. inversion H. congruence.
Qed.

Lemma startswith_spec s p : startswith s p = true <-> exists r, s = p ++ r.
Proof.
  unfold startswith. destruct (strip_prefix p s) as [r|] eqn:E.
  - apply strip_prefix_spec in E. split; [eauto | reflexivity].
  - split; [discriminate|]. intros [r Hr].
    apply strip_prefix_spec in Hr. congruence.
Qed.

Lemma contains_spec s p : contains s p = true <-> occurs_in p s.
Proof.
  unfold occurs_in. induction s as [|c s IH]; simpl.
  - rewrite orb_false_r, startswith_spec. split.
    + intros [r Hr]. exists [], r. assumption.
    + intros (pre & post & H). destruct pre; [|discriminate]. eauto.
  - rewrite orb_true_iff, startswith_spec, IH. split.
    + intros [[r Hr]|(pre & post & ->)].
      * exists [], r. assumption.
      * exists (c :: pre), post. reflexivity.
    + intros (pre & post & H). destruct pre as [|c' pre].
      * left. eauto.
      * right. inversion H. eauto.
Qed.

Lemma find_app {A} (f : A -> bool) l1 l2 :
  List.find f (l1 ++ l2) =
  match List.find f l1 with Some x => Some x | None => List.find f l2 end.
Proof.
  induction l1 as [|x l1 IH]; simpl; [reflexivity|].
  destruct (f x); [reflexivity | assumption].
Qed.

Lemma find_first {A} (f : A -> bool) (P : A -> Prop) :
  (forall x, f x = true <-> P x) ->
  forall rejected x rest,
    Forall (fun y => ~ P y) rejected -> P x ->
    List.find f (rejected ++ x :: rest) = Some x.
Proof.
  intros HP rejected x rest Hrej Hx. induction Hrej as [|y rejected Hy _ IH]; simpl.
  - apply HP in Hx. rewrite Hx. reflexivity.
  - destruct (f y) eqn:E; [apply HP in E; contradiction | assumption].
Qed.

Lemma find_none {A} (f : A -> bool) (P : A -> Prop) :
  (forall x, f x = true <-> P x) ->
  forall l, Forall (fun y => ~ P y) l -> List.find f l = None.
Proof.
  intros HP l Hl. induction Hl as [|y l Hy _ IH]; simpl; [reflexivity|].
  destruct (f y) eqn:E; [apply HP in E; contradiction | assumption].
Qed.

End TextFacts.

Section DetailFacts.
Context `{U : Unicode}.

Lemma accepts_spec text : accepts text = true <-> acceptable text.
Proof.
  unfold accepts, acceptable, has_noise.
  rewrite andb_true_iff, !negb_true_iff, Nat.ltb_ge. apply and_iff_compat_l.
  split.
  - intros Hnone phrase Hin Hocc. apply contains_spec in Hocc.
    assert (Hex : existsb (contains (lower text)) noise_phrases = true).
    { apply existsb_exists. exists phrase. split; [|assumption].
      apply list_elem_of_In. assumption. }
    congruence.
  - intros Hall. destruct (existsb _ _) eqn:E; [|reflexivity].
    apply existsb_exists in E as (phrase & Hin & Hc).
    apply list_elem_of_In in Hin. apply contains_spec in Hc.
    exfalso. exact (Hall phrase Hin Hc).
Qed.

Lemma accepts_v1_spec text : (200 <? length text) = true <-> acceptable_v1 text.
Proof. unfold acceptable_v1. apply Nat.ltb_lt. Qed.

Lemma scan_elements_find els :
  List.find accepts (element_texts els) =
  match scan_elements els with
  | Ret found => found
  | Raised => None
  end.
Proof.
  induction els as [|el els IH]; simpl; [reflexivity|].
  destruct (inner_text el) as [t|]; simpl; [|reflexivity].
  unfold accepts at 1.
  destruct (length (strip t) <? 150); simpl; [assumption|].
  destruct (has_noise (strip t)); simpl; [assumption | reflexivity].
Qed.

Lemma scan_selectors_find page selectors :
  scan_selectors page selectors = List.find accepts (candidate_texts page selectors).
Proof.
  unfold candidate_texts.
  induction selectors as [|selector selectors IH]; simpl; [reflexivity|].
  rewrite find_app.
  destruct (page_query_selector_all page selector) as [els|]; simpl; [|assumption].
  rewrite scan_elements_find.
  destruct (scan_elements els) as [[text|]|]; [reflexivity | assumption | assumption].
Qed.

Lemma v1_scan_find page selectors :
  List.find (fun t => 200 <? length t) (candidate_texts_v1 page selectors) =
  match v1_scan page selectors with
  | Ret found => found
  | Raised => None
  end.
Proof.
  induction selectors as [|selector selectors IH]; simpl; [reflexivity|].
  destruct (page_query_selector page selector) as [[e|]|]; simpl;
    [|assumption|reflexivity].
  destruct (inner_text e) as [t|]; simpl; [|reflexivity].
  destruct (200 <? length (strip t)); [reflexivity | assumption].
Qed.

End DetailFacts.

(** C5, as the code has it.  Once the page of a listing has loaded:
    [fetch_job_detail] of [job_agent_2.py] goes through the candidates in
    strategy order, takes as description the first text of at least 150
    characters whose lower-cased form holds no noise phrase, cut to 3000
    characters, and leaves the listing as it was when no candidate is
    acceptable; [fetch_job_detail] of [job_agent.py] does the same over the
    first element of each of its five selectors with "more than 200
    characters" as its only test. *)
Theorem detail_extraction_takes_first_acceptable
    `{U : Unicode} (browser : Browser) (job : Job) (page : Page) :
  link job <> [] ->
  browser (link job) = Ret page ->
  (has_usable_description job = false ->
   let candidates :=
     candidate_texts page (source_selectors (source job) ++ generic_selectors) in
   (forall rejected text rest,
      candidates = rejected ++ text :: rest ->
      Forall (fun t => ~ acceptable t) rejected -> acceptable text ->
      fetch_job_detail browser job = set_description (take 3000 text) job) /\
   (Forall (fun t => ~ acceptable t) candidates -> fetch_job_detail browser job = job)) /\
  (let candidates := candidate_texts_v1 page v1_selectors in
   (forall rejected text rest,
      candidates = rejected ++ text :: rest ->
      Forall (fun t => ~ acceptable_v1 t) rejected -> acceptable_v1 text ->
      fetch_job_detail_v1 browser job = set_description (take 3000 text) job) /\
   (Forall (fun t => ~ acceptable_v1 t) candidates -> fetch_job_detail_v1 browser job = job)).
Proof.
  intros Hlink Hpage. apply nonempty_true in Hlink. split.
  - intros Hdesc candidates. unfold fetch_job_detail.
    rewrite Hdesc, Hlink, Hpage. simpl. rewrite scan_selectors_find. fold candidates.
    split.
    + intros rejected text rest -> Hrej Hacc.
      rewrite (find_first accepts acceptable accepts_spec) by assumption. reflexivity.
    + intros Hall. rewrite (find_none accepts acceptable accepts_spec) by assumption.
      reflexivity.
  - intros candidates. unfold fetch_job_detail_v1. rewrite Hlink, Hpage.
    change (Ret page ≫= (fun p => v1_scan p v1_selectors))
      with (v1_scan page v1_selectors).
    cbn [negb].
    pose proof (v1_scan_find page v1_selectors) as Hfind. fold candidates in Hfind.
    split.
    + intros rejected text rest E Hrej Hacc. rewrite E in Hfind.
      rewrite (find_first _ acceptable_v1 accepts_v1_spec) in Hfind by assumption.
      destruct (v1_scan page v1_selectors) as [found|]; [|discriminate].
      subst found. reflexivity.
    + intros Hall.
      rewrite (find_none _ acceptable_v1 accepts_v1_spec) in Hfind by assumption.
      destruct (v1_scan page v1_selectors) as [[text|]|]; [discriminate | reflexivity | reflexivity].
Qed.

(** On the example page, [job_agent_2.py] passes over the widget and takes
    the posting that follows it. *)
Lemma detail_extraction_witness :
  @fetch_job_detail ascii_only example_detail_browser (example_job "a")
  = set_description (take 3000 posting_text) (example_job "a").
Proof.
  refine (proj1 (proj1 (@detail_extraction_takes_first_acceptable ascii_only
            example_detail_browser (example_job "a") example_detail_page _ _) _)
            [widget_text] posting_text [widget_text; posting_text] _ _ _).
  - vm_compute. discriminate.
  - reflexivity.
  - reflexivity.
  - vm_compute. reflexivity.
  - constructor; [|constructor]. rewrite <- accepts_spec. vm_compute. discriminate.
  - apply accepts_spec. vm_compute. reflexivity.
Defined.

(** On the same page, [job_agent.py] takes the widget as the description
    although it holds a noise phrase. *)
Lemma detail_extraction_v1_takes_noise :
  description (@fetch_job_detail_v1 ascii_only example_detail_browser (example_job "a"))
  = Some widget_text /\
  ~ @acceptable ascii_only widget_text.
Proof.
  split; [vm_compute; reflexivity|].
  rewrite <- accepts_spec. vm_compute. discriminate.
Qed.

(** ** Salary extraction *)

Section StripFacts.

Lemma lstrip_by_head p c s : p c = false -> lstrip_by p (c :: s) = c :: s.
Proof. intros H. simpl. rewrite H. reflexivity. Qed.

Lemma rstrip_by_last p s c : p c = false -> rstrip_by p (s ++ [c]) = s ++ [c].
Proof.
  intros H. unfold rstrip_by. rewrite rev_app_distr. simpl. rewrite H.
  simpl. rewrite rev_involutive. reflexivity.
Qed.

Lemma strip_by_id p c s d :
  p c = false -> p d = false -> strip_by p (c :: s ++ [d]) = c :: s ++ [d].
Proof.
  intros Hc Hd. unfold strip_by. rewrite lstrip_by_head by assumption.
  exact (rstrip_by_last p (c :: s) d Hd).
Qed.

Lemma strip_by_single p c : p c = false -> strip_by p [c] = [c].
Proof.
  intros Hc. unfold strip_by. rewrite lstrip_by_head by assumption.
  exact (rstrip_by_last p [] c Hc).
Qed.

End StripFacts.

Section LastCharFacts.

Lemma matches_nil_nullable r m : matches r m -> m = [] -> nullable r = true.
Proof.
  induction 1 as [|p c Hp|r1 r2 s1 s2 H1 IH1 H2 IH2|r1 r2 s H1 IH1|r1 r2 s H2 IH2
                  |r|r s H1 IH1|p s Hs]; intros E; simpl; try reflexivity.
  - discriminate.
  - apply app_eq_nil in E as [E1 E2]. rewrite IH1, IH2 by assumption. reflexivity.
  - rewrite IH1 by assumption. reflexivity.
  - rewrite IH2 by assumption. apply orb_true_r.
Qed.

Lemma matches_last_char r m :
  matches r m -> forall body c, m = body ++ [c] -> last_char r c = true.
Proof.
  induction 1 as [|p c0 Hp|r1 r2 s1 s2 H1 IH1 H2 IH2|r1 r2 s H1 IH1|r1 r2 s H2 IH2
                  |r|r s H1 IH1|p s Hs]; intros body c E; simpl.
  - destruct body; discriminate.
  - destruct body as [|? [|? ?]]; try discriminate. inversion E; subst. assumption.
  - destruct (decide (s2 = [])) as [->|Hne].
    + rewrite app_nil_r in E. rewrite (matches_nil_nullable r2 [] H2 eq_refl).
      rewrite (IH1 body c E). apply orb_true_r.
    + destruct (exists_last Hne) as (s2' & c' & ->).
      rewrite app_assoc in E. apply app_inj_tail in E as [_ ->].
      rewrite (IH2 s2' c eq_refl). reflexivity.
  - rewrite (IH1 body c E). reflexivity.
  - rewrite (IH2 body c E). apply orb_true_r.
  - destruct body; discriminate.
  - exact (IH1 body c E).
  - subst s. apply Forall_app in Hs as [_ Hc]. inversion Hc; subst. assumption.
Qed.

End LastCharFacts.

Section SalaryFacts.
Context `{U : Unicode}.

Lemma digit_not_space c : is_digit c = true -> is_space c = false.
Proof.
  unfold is_digit, is_space, is_ascii.
  destruct (c <? 128)%N; [|apply uni_decimal_not_space].
  intros H. apply andb_true_iff in H as [H1 H2].
  apply N.leb_le in H1, H2.
  apply orb_false_iff. split; apply andb_false_iff.
  - right. apply N.leb_gt. lia.
  - right. apply N.leb_gt. lia.
Qed.

Lemma ascii_lower_cases c : ascii_lower c = c \/ ascii_lower c = (c + 32)%N /\ (65 <= c <= 90)%N.
Proof.
  unfold ascii_lower. destruct ((65 <=? c)%N && (c <=? 90)%N) eqn:E; [|left; reflexivity].
  right. apply andb_true_iff in E as [E1 E2]. apply N.leb_le in E1, E2. auto.
Qed.

(** A character that matches a lower-case or upper-case ASCII letter of the
    pattern is not white space. *)
Lemma ci_letter_not_space p c :
  (65 <= p <= 90 \/ 97 <= p <= 122)%N -> ci_eq p c = true -> is_space c = false.
Proof.
  intros Hp. unfold ci_eq, is_space, is_ascii.
  destruct (c <? 128)%N; [|apply uni_caseless_not_space].
  intros H. apply N.eqb_eq in H.
  assert (Hc : (65 <= c)%N).
  { destruct (ascii_lower_cases c) as [Ec|[Ec ?]], (ascii_lower_cases p) as [Ep|[Ep ?]]; lia. }
  apply orb_false_iff. split; apply andb_false_iff; right; apply N.leb_gt; lia.
Qed.

Lemma digit_or_comma_not_space c : digit_or_comma c = true -> is_space c = false.
Proof.
  unfold digit_or_comma. intros H. apply orb_true_iff in H as [H|H].
  - apply digit_not_space. assumption.
  - apply N.eqb_eq in H. subst c. reflexivity.
Qed.

Lemma salary_last_char_not_space c : last_char salary_re c = true -> is_space c = false.
Proof.
  cbn [last_char nullable salary_re salary_unit salary_upper opt_k Plus LitI pystr
       list_ascii_of_string map andb orb].
  rewrite !orb_true_iff.
  intros H.
  repeat match type of H with
         | _ \/ _ => destruct H as [H|H]
         end;
  first [ discriminate H
        | apply digit_or_comma_not_space; assumption
        | eapply ci_letter_not_space; [|exact H]; vm_compute;
          first [left; split; discriminate | right; split; discriminate] ].
Qed.

(** A match of the salary pattern starts with the dollar sign, is at least
    two characters long, and [strip] leaves it as it is. *)
Lemma salary_match_stripped m : matches salary_re m -> dollar ∈ m /\ strip m = m.
Proof.
  intros Hm.
  assert (Hhead : exists c s, m = dollar :: s ++ [c]).
  { unfold salary_re in Hm.
    inversion Hm as [| |? ? s1 s2 H1 H2| | | | |]; subst.
    inversion H1 as [|? c0 Hc| | | | | |]; subst.
    apply N.eqb_eq in Hc. subst c0.
    inversion H2 as [| |? ? s3 s4 H3 H4| | | | |]; subst.
    inversion H3 as [| |? ? s5 s6 H5 H6| | | | |]; subst.
    inversion H5 as [|? c1 Hc1| | | | | |]; subst.
    destruct (exists_last (l := ([c1] ++ s6) ++ s4)) as (s & c & E);
      [destruct s6; discriminate|].
    exists c, s. simpl in *. rewrite E. reflexivity. }
  destruct Hhead as (c & s & ->). split; [left|].
  unfold strip. apply strip_by_id; [reflexivity|].
  apply salary_last_char_not_space.
  exact (matches_last_char _ _ Hm (dollar :: s) c eq_refl).
Qed.

End SalaryFacts.

(** ** Salary extraction: the greedy reading *)

Section GreedyFacts.
Context `{U : Unicode}.

Lemma star_ext {A} p s (k k' : str -> option A) :
  (forall t, k t = k' t) -> star p s k = star p s k'.
Proof.
  intros E. induction s as [|c s IH]; simpl; [apply E|].
  rewrite IH, E. reflexivity.
Qed.

Lemma bt_ext {A} r : forall s (k k' : str -> option A),
  (forall t, k t = k' t) -> bt r s k = bt r s k'.
Proof.
  induction r as [|p|r1 IH1 r2 IH2|r1 IH1 r2 IH2|r1 IH1|p]; simpl; intros s k k' E.
  - apply E.
  - destruct s as [|c s]; [reflexivity|]. rewrite E. reflexivity.
  - apply IH1. intros t. apply IH2. exact E.
  - rewrite (IH1 s k k' E), (IH2 s k k' E). reflexivity.
  - rewrite (IH1 s k k' E), E. reflexivity.
  - apply star_ext. exact E.
Qed.

(** A repetition in front of something that always matches takes all it
    can; so does one in front of something that cannot start with a
    character of the repetition. *)
Lemma star_greedy {A} p s (k : str -> option A) :
  (forall t, k t <> None) -> star p s k = k (lstrip_by p s).
Proof.
  intros Hk. induction s as [|c s IH]; simpl; [reflexivity|].
  destruct (p c); [|reflexivity]. rewrite IH.
  destruct (k (lstrip_by p s)) eqn:E; [reflexivity|]. exfalso. exact (Hk _ E).
Qed.

Lemma star_commit {A} p s (k : str -> option A) :
  (forall c t, p c = true -> k (c :: t) = None) -> star p s k = k (lstrip_by p s).
Proof.
  intros Hk. induction s as [|c s IH]; simpl; [reflexivity|].
  destruct (p c) eqn:Hp; [|reflexivity]. rewrite IH.
  destruct (k (lstrip_by p s)); [reflexivity|]. apply Hk. exact Hp.
Qed.

Lemma bt_LitI {A} w : forall s (k : str -> option A),
  bt (LitI w) s k = match strip_ci w s with Some r => k r | None => None end.
Proof.
  induction w as [|a w IH]; intros s k; simpl; [reflexivity|].
  destruct s as [|c s]; [reflexivity|].
  destruct (ci_eq a c); [apply IH | reflexivity].
Qed.

Lemma bt_opt_k {A} s (k : str -> option A) :
  (forall t, k t <> None) -> bt opt_k s k = k (eat_k s).
Proof.
  intros Hk. unfold opt_k, eat_k. simpl. destruct s as [|c t]; [reflexivity|].
  destruct (ci_eq 107%N c); [|reflexivity].
  destruct (k t) eqn:E; [reflexivity|]. exfalso. exact (Hk _ E).
Qed.

Lemma bt_amount {A} s (k : str -> option A) :
  (forall t, k t <> None) ->
  bt (Plus digit_or_comma) s k = match eat_amount s with Some t => k t | None => None end.
Proof.
  intros Hk. unfold Plus, eat_amount. simpl. destruct s as [|c t]; [reflexivity|].
  destruct (digit_or_comma c); [|reflexivity]. apply star_greedy. exact Hk.
Qed.

Lemma bt_opt_total {A} r s (k : str -> option A) :
  (forall t, k t <> None) -> bt (Opt r) s k <> None.
Proof.
  intros Hk. simpl. destruct (bt r s k); [discriminate | apply Hk].
Qed.

Lemma space_not_dash c : uni_space en_dash = false -> is_space c = true -> dash c = false.
Proof.
  intros Hen Hc. unfold dash. apply orb_false_iff. split; apply N.eqb_neq; intros ->.
  - vm_compute in Hc. discriminate Hc.
  - unfold is_space in Hc. change (is_ascii en_dash) with false in Hc.
    simpl in Hc. congruence.
Qed.

Lemma space_not_amount c : is_space c = true -> digit_or_comma c = false.
Proof.
  intros Hc. destruct (digit_or_comma c) eqn:E; [|reflexivity].
  apply digit_or_comma_not_space in E. congruence.
Qed.

Lemma space_not_letter p c :
  (65 <= p <= 90 \/ 97 <= p <= 122)%N -> is_space c = true -> ci_eq p c = false.
Proof.
  intros Hp Hc. destruct (ci_eq p c) eqn:E; [|reflexivity].
  apply (ci_letter_not_space p c Hp) in E. congruence.
Qed.

Lemma bt_seq {A} r1 r2 s (k : str -> option A) :
  bt (Seq r1 r2) s k = bt r1 s (fun s1 => bt r2 s1 k).
Proof. reflexivity. Qed.

Lemma bt_chr {A} p s (k : str -> option A) :
  bt (Chr p) s k = match s with c :: s' => if p c then k s' else None | [] => None end.
Proof. reflexivity. Qed.

Lemma bt_opt {A} r s (k : str -> option A) :
  bt (Opt r) s k = match bt r s k with Some x => Some x | None => k s end.
Proof. reflexivity. Qed.

Lemma bt_alt {A} r1 r2 s (k : str -> option A) :
  bt (Alt r1 r2) s k = match bt r1 s k with Some x => Some x | None => bt r2 s k end.
Proof. reflexivity. Qed.

Lemma bt_opt_dollar {A} t (k : str -> option A) :
  (forall t', k (dollar :: t') = None) ->
  bt (Opt (Chr (one dollar))) t k = k (eat_dollar t).
Proof.
  intros Hk. rewrite bt_opt, bt_chr. unfold one, eat_dollar.
  destruct t as [|c t']; [reflexivity|].
  destruct (c =? dollar)%N eqn:Ec.
  - destruct (k t') eqn:E; [reflexivity|]. apply N.eqb_eq in Ec. subst c. apply Hk.
  - reflexivity.
Qed.

Lemma bt_amount_k {A} t (k : str -> option A) :
  (forall t, k t <> None) ->
  bt (Seq (Plus digit_or_comma) opt_k) t k
  = match eat_amount t with Some t' => k (eat_k t') | None => None end.
Proof.
  intros Hk. rewrite bt_seq.
  rewrite bt_amount by (intros t'; rewrite bt_opt_k by exact Hk; apply Hk).
  destruct (eat_amount t); [apply bt_opt_k; exact Hk | reflexivity].
Qed.

(** The upper bound, when something that always matches follows it. *)
Lemma bt_upper_body {A} s (k : str -> option A) :
  uni_space en_dash = false -> (forall t, k t <> None) ->
  bt (Seq (Star is_space) (Seq (Chr dash) (Seq (Star is_space)
       (Seq (Opt (Chr (one dollar))) (Seq (Plus digit_or_comma) opt_k))))) s k
  = match eat_upper s with Some t => k t | None => None end.
Proof.
  intros Hen Hk.
  set (kC := fun t : str => match eat_amount t with Some t' => k (eat_k t') | None => None end).
  assert (HkB : forall t,
             bt (Seq (Opt (Chr (one dollar))) (Seq (Plus digit_or_comma) opt_k)) t k
             = kC (eat_dollar t)).
  { intros t. rewrite bt_seq.
    rewrite (bt_ext _ t _ kC) by (intros t'; apply bt_amount_k; exact Hk).
    apply bt_opt_dollar. intros t'. reflexivity. }
  rewrite bt_seq. change (bt (Star is_space) s ?k) with (star is_space s k).
  rewrite star_commit.
  - rewrite bt_seq, bt_chr. unfold eat_upper.
    destruct (lstrip_by is_space s) as [|d t]; [reflexivity|].
    destruct (dash d); [|reflexivity].
    rewrite bt_seq. change (bt (Star is_space) t ?k) with (star is_space t k).
    rewrite star_commit.
    + rewrite HkB. unfold kC.
      destruct (eat_amount (eat_dollar (lstrip_by is_space t))); reflexivity.
    + intros c t0 Hc. rewrite HkB. unfold kC, eat_dollar.
      destruct (c =? dollar)%N eqn:Ec.
      * apply N.eqb_eq in Ec. subst c. vm_compute in Hc. discriminate Hc.
      * unfold eat_amount. rewrite (space_not_amount c Hc). reflexivity.
  - intros c t Hc. rewrite bt_seq, bt_chr. rewrite (space_not_dash c Hen Hc). reflexivity.
Qed.

Lemma bt_salary_upper {A} s (k : str -> option A) :
  uni_space en_dash = false -> (forall t, k t <> None) ->
  bt salary_upper s k = k (or_stay s (eat_upper s)).
Proof.
  intros Hen Hk. unfold salary_upper. rewrite bt_opt, bt_upper_body by assumption.
  destruct (eat_upper s) as [t|]; simpl; [|reflexivity].
  destruct (k t) eqn:E; [reflexivity|]. exfalso. exact (Hk _ E).
Qed.

Lemma bt_slash_ci {A} w t (k : str -> option A) :
  bt (Seq (Chr (one slash)) (LitI w)) t k
  = match strip_slash_ci w t with Some r => k r | None => None end.
Proof.
  rewrite bt_seq, bt_chr. unfold strip_slash_ci, one.
  destruct t as [|c t']; [reflexivity|].
  destruct (c =? slash)%N; [apply bt_LitI | reflexivity].
Qed.

Lemma bt_unit_words {A} t (k : str -> option A) :
  (forall t, k t <> None) ->
  bt (Alt (LitI (pystr "USD"))
     (Alt (Seq (Chr (one slash)) (LitI (pystr "yr")))
     (Alt (Seq (Chr (one slash)) (LitI (pystr "year")))
          (LitI (pystr "annually"))))) t k
  = match eat_unit_word t with Some r => k r | None => None end.
Proof.
  intros Hk. unfold eat_unit_word.
  rewrite !bt_alt, !bt_slash_ci, !bt_LitI.
  destruct (strip_ci (pystr "USD") t) as [r|].
  { destruct (k r) eqn:E; [reflexivity|]. exfalso. exact (Hk _ E). }
  destruct (strip_slash_ci (pystr "yr") t) as [r|].
  { destruct (k r) eqn:E; [reflexivity|]. exfalso. exact (Hk _ E). }
  destruct (strip_slash_ci (pystr "year") t) as [r|].
  { destruct (k r) eqn:E; [reflexivity|]. exfalso. exact (Hk _ E). }
  reflexivity.
Qed.

Lemma eat_unit_word_space c t : is_space c = true -> eat_unit_word (c :: t) = None.
Proof.
  intros Hc. unfold eat_unit_word, strip_slash_ci.
  assert (Hs : (c =? slash)%N = false).
  { apply N.eqb_neq. intros ->. vm_compute in Hc. discriminate Hc. }
  rewrite Hs.
  change (strip_ci (pystr "USD") (c :: t))
    with (if ci_eq 85%N c then strip_ci (pystr "SD") t else None).
  change (strip_ci (pystr "annually") (c :: t))
    with (if ci_eq 97%N c then strip_ci (pystr "nnually") t else None).
  rewrite !(space_not_letter _ c) by (first [left; lia | right; lia] || exact Hc).
  reflexivity.
Qed.

Lemma bt_salary_unit {A} s (k : str -> option A) :
  (forall t, k t <> None) -> bt salary_unit s k = k (or_stay s (eat_unit s)).
Proof.
  intros Hk. unfold salary_unit. rewrite bt_opt, bt_seq.
  change (bt (Star is_space) s ?k) with (star is_space s k).
  rewrite star_commit.
  - rewrite bt_unit_words by exact Hk. unfold eat_unit.
    destruct (eat_unit_word (lstrip_by is_space s)) as [t|]; simpl; [|reflexivity].
    destruct (k t) eqn:E; [reflexivity|]. exfalso. exact (Hk _ E).
  - intros c t Hc. rewrite bt_unit_words by exact Hk.
    rewrite (eat_unit_word_space c t Hc). reflexivity.
Qed.

(** The matcher on the salary pattern reads the text greedily. *)
Lemma bt_salary s :
  uni_space en_dash = false -> bt salary_re s Some = eat_salary s.
Proof.
  intros Hen. unfold salary_re, eat_salary. rewrite bt_seq, bt_chr. unfold one.
  destruct s as [|c s0]; [reflexivity|].
  destruct (c =? dollar)%N; [|reflexivity].
  assert (H4 : forall t, bt salary_unit t Some <> None).
  { intros t. rewrite bt_salary_unit by discriminate. discriminate. }
  assert (H3 : forall t, bt (Seq salary_upper salary_unit) t Some <> None).
  { intros t. rewrite bt_seq, bt_salary_upper by assumption. apply H4. }
  assert (H2 : forall t, bt (Seq opt_k (Seq salary_upper salary_unit)) t Some <> None).
  { intros t. rewrite bt_seq, bt_opt_k by exact H3. apply H3. }
  rewrite bt_seq, bt_amount by exact H2.
  destruct (eat_amount s0) as [s1|]; [|reflexivity].
  rewrite bt_seq, bt_opt_k by exact H3.
  rewrite bt_seq, bt_salary_upper by assumption.
  rewrite bt_salary_unit by discriminate. reflexivity.
Qed.

End GreedyFacts.

(** ** Salary extraction: the pattern and the shape in words *)

Section PatternFacts.
Context `{U : Unicode}.

Lemma matches_seq r1 r2 s :
  matches (Seq r1 r2) s <-> exists s1 s2, s = s1 ++ s2 /\ matches r1 s1 /\ matches r2 s2.
Proof.
  split.
  - intros H. inversion H; subst. eauto.
  - intros (s1 & s2 & -> & H1 & H2). constructor; assumption.
Qed.

Lemma matches_chr p s : matches (Chr p) s <-> exists c, s = [c] /\ p c = true.
Proof.
  split.
  - intros H. inversion H; subst. eauto.
  - intros (c & -> & Hc). constructor. exact Hc.
Qed.

Lemma matches_opt r s : matches (Opt r) s <-> s = [] \/ matches r s.
Proof.
  split.
  - intros H. inversion H; subst; auto.
  - intros [->|H]; [apply m_opt_skip | apply m_opt_take; exact H].
Qed.

Lemma matches_alt r1 r2 s : matches (Alt r1 r2) s <-> matches r1 s \/ matches r2 s.
Proof.
  split.
  - intros H. inversion H; subst; auto.
  - intros [H|H]; [apply m_alt_l | apply m_alt_r]; exact H.
Qed.

Lemma matches_star p s : matches (Star p) s <-> Forall (fun c => p c = true) s.
Proof.
  split.
  - intros H. inversion H; subst. assumption.
  - intros H. constructor. exact H.
Qed.

Lemma matches_plus p s :
  matches (Plus p) s <-> s <> [] /\ Forall (fun c => p c = true) s.
Proof.
  unfold Plus. rewrite matches_seq. split.
  - intros (s1 & s2 & -> & H1 & H2). apply matches_chr in H1 as (c & -> & Hc).
    apply matches_star in H2. split; [discriminate|]. constructor; assumption.
  - intros [Hne Hall]. destruct s as [|c s]; [contradiction|].
    apply Forall_cons in Hall as [Hc Hall]. exists [c], s. split; [reflexivity|].
    split; [apply matches_chr; eauto | apply matches_star; exact Hall].
Qed.

Lemma matches_LitI w : forall s,
  matches (LitI w) s <-> Forall2 (fun p c => ci_eq p c = true) w s.
Proof.
  induction w as [|p w IH]; intros s; simpl.
  - split.
    + intros H. inversion H; subst. constructor.
    + intros H. inversion H; subst. constructor.
  - rewrite matches_seq. split.
    + intros (s1 & s2 & -> & H1 & H2). apply matches_chr in H1 as (c & -> & Hc).
      apply IH in H2. constructor; assumption.
    + intros H. inversion H as [|? c ? s' Hc Hs]; subst.
      exists [c], s'. split; [reflexivity|].
      split; [apply matches_chr; eauto | apply IH; exact Hs].
Qed.

Lemma digit_or_comma_iff c : digit_or_comma c = true <-> is_digit c = true \/ c = comma.
Proof.
  unfold digit_or_comma. rewrite orb_true_iff, N.eqb_eq. reflexivity.
Qed.

Lemma dash_iff d : dash d = true <-> d = hyphen \/ d = en_dash.
Proof. unfold dash. rewrite orb_true_iff, !N.eqb_eq. reflexivity. Qed.

Lemma matches_amount s : matches (Plus digit_or_comma) s <-> amount_text s.
Proof.
  rewrite matches_plus. unfold amount_text. split; intros [Hne Hall]; (split; [exact Hne|]);
    (eapply Forall_impl; [exact Hall|]); intros c Hc; apply digit_or_comma_iff; exact Hc.
Qed.

Lemma matches_opt_k s : matches opt_k s <-> k_text s.
Proof.
  unfold opt_k, k_text, in_either_case. rewrite matches_opt, matches_chr. split.
  - intros [->|(c & -> & Hc)]; [left; reflexivity|]. right. repeat constructor. exact Hc.
  - intros [->|H]; [left; reflexivity|]. right.
    inversion H as [|? c ? s' Hc Hs]; subst. inversion Hs; subst. eauto.
Qed.

Lemma matches_blank s : matches (Star is_space) s <-> blank s.
Proof. apply matches_star. Qed.

Lemma matches_upper s : matches salary_upper s <-> upper_text s.
Proof.
  unfold salary_upper, upper_text. rewrite matches_opt. split.
  - intros [->|H]; [left; reflexivity|]. right.
    apply matches_seq in H as (ws1 & s1 & -> & Hws1 & H).
    apply matches_seq in H as (d0 & s2 & -> & Hd & H).
    apply matches_chr in Hd as (d & -> & Hd).
    apply matches_seq in H as (ws2 & s3 & -> & Hws2 & H).
    apply matches_seq in H as (dol & s4 & -> & Hdol & H).
    apply matches_seq in H as (amt & k & -> & Hamt & Hk).
    exists ws1, d, ws2, dol, amt, k. split; [reflexivity|].
    split; [apply matches_blank; exact Hws1|].
    split; [apply dash_iff; exact Hd|].
    split; [apply matches_blank; exact Hws2|].
    split.
    { apply matches_opt in Hdol as [->|Hdol]; [left; reflexivity|]. right.
      apply matches_chr in Hdol as (c & -> & Hc). apply N.eqb_eq in Hc. subst. reflexivity. }
    split; [apply matches_amount; exact Hamt | apply matches_opt_k; exact Hk].
  - intros [->|(ws1 & d & ws2 & dol & amt & k & -> & Hws1 & Hd & Hws2 & Hdol & Hamt & Hk)];
      [left; reflexivity|]. right.
    apply matches_seq. exists ws1, (d :: ws2 ++ dol ++ amt ++ k). split; [reflexivity|].
    split; [apply matches_blank; exact Hws1|].
    apply matches_seq. exists [d], (ws2 ++ dol ++ amt ++ k). split; [reflexivity|].
    split; [apply matches_chr; exists d; split; [reflexivity | apply dash_iff; exact Hd]|].
    apply matches_seq. exists ws2, (dol ++ amt ++ k). split; [reflexivity|].
    split; [apply matches_blank; exact Hws2|].
    apply matches_seq. exists dol, (amt ++ k). split; [reflexivity|]. split.
    { apply matches_opt. destruct Hdol as [->| ->]; [left; reflexivity|]. right.
      apply matches_chr. exists dollar. split; reflexivity. }
    apply matches_seq. exists amt, k. split; [reflexivity|].
    split; [apply matches_amount; exact Hamt | apply matches_opt_k; exact Hk].
Qed.

Lemma matches_slash_word w s :
  matches (Seq (Chr (one slash)) (LitI (pystr w))) s <->
  exists w', s = slash :: w' /\ in_either_case w w'.
Proof.
  rewrite matches_seq. unfold in_either_case. split.
  - intros (s1 & s2 & -> & H1 & H2). apply matches_chr in H1 as (c & -> & Hc).
    apply N.eqb_eq in Hc. subst c. exists s2. split; [reflexivity|].
    apply matches_LitI. exact H2.
  - intros (w' & -> & Hw). exists [slash], w'. split; [reflexivity|].
    split; [apply matches_chr; exists slash; split; reflexivity | apply matches_LitI; exact Hw].
Qed.

Lemma matches_unit s : matches salary_unit s <-> unit_text s.
Proof.
  unfold salary_unit, unit_text. rewrite matches_opt. split.
  - intros [->|H]; [left; reflexivity|]. right.
    apply matches_seq in H as (ws & w & -> & Hws & Hw).
    exists ws, w. split; [reflexivity|]. split; [apply matches_blank; exact Hws|].
    unfold unit_word.
    apply matches_alt in Hw as [Hw|Hw]; [left; apply matches_LitI; exact Hw|].
    apply matches_alt in Hw as [Hw|Hw].
    { right; left. apply matches_slash_word in Hw as (w' & -> & Hw). eauto. }
    apply matches_alt in Hw as [Hw|Hw].
    { right; left. apply matches_slash_word in Hw as (w' & -> & Hw). eauto. }
    right; right. apply matches_LitI. exact Hw.
  - intros [->|(ws & w & -> & Hws & Hw)]; [left; reflexivity|]. right.
    apply matches_seq. exists ws, w. split; [reflexivity|].
    split; [apply matches_blank; exact Hws|].
    destruct Hw as [Hw|[(w' & -> & [Hw|Hw])|Hw]].
    + apply matches_alt. left. apply matches_LitI. exact Hw.
    + apply matches_alt. right. apply matches_alt. left.
      apply matches_slash_word. eauto.
    + apply matches_alt. right. apply matches_alt. right. apply matches_alt. left.
      apply matches_slash_word. eauto.
    + apply matches_alt. right. apply matches_alt. right. apply matches_alt. right.
      apply matches_LitI. exact Hw.
Qed.

(** The pattern of the code stands for the shape in words. *)
Lemma matches_salary m : matches salary_re m <-> salary_text m.
Proof.
  unfold salary_re, salary_text. split.
  - intros H.
    apply matches_seq in H as (d0 & s1 & -> & Hd & H).
    apply matches_chr in Hd as (d & -> & Hd). apply N.eqb_eq in Hd. subst d.
    apply matches_seq in H as (amt & s2 & -> & Hamt & H).
    apply matches_seq in H as (k & s3 & -> & Hk & H).
    apply matches_seq in H as (up & unit & -> & Hup & Hunit).
    exists amt, k, up, unit. split; [reflexivity|].
    split; [apply matches_amount; exact Hamt|].
    split; [apply matches_opt_k; exact Hk|].
    split; [apply matches_upper; exact Hup | apply matches_unit; exact Hunit].
  - intros (amt & k & up & unit & -> & Hamt & Hk & Hup & Hunit).
    apply matches_seq. exists [dollar], (amt ++ k ++ up ++ unit). split; [reflexivity|].
    split; [apply matches_chr; exists dollar; split; reflexivity|].
    apply matches_seq. exists amt, (k ++ up ++ unit). split; [reflexivity|].
    split; [apply matches_amount; exact Hamt|].
    apply matches_seq. exists k, (up ++ unit). split; [reflexivity|].
    split; [apply matches_opt_k; exact Hk|].
    apply matches_seq. exists up, unit. split; [reflexivity|].
    split; [apply matches_upper; exact Hup | apply matches_unit; exact Hunit].
Qed.

End PatternFacts.

(** ** Salary extraction: the greedy reading is the longest *)

Section LongestFacts.
Context `{U : Unicode}.
Hypothesis Hap : classes_apart.

Lemma ci_eq_ascii p c : is_ascii c = true -> ci_eq p c = (ascii_lower c =? ascii_lower p)%N.
Proof. intros H. unfold ci_eq. rewrite H. reflexivity. Qed.

Lemma ci_eq_other p c : is_ascii c = false -> ci_eq p c = uni_caseless p c.
Proof. intros H. unfold ci_eq. rewrite H. reflexivity. Qed.

(** A character matches at most one letter. *)
Lemma ci_two_letters p p' c :
  ci_eq p c = true -> ci_eq p' c = true -> ascii_lower p = ascii_lower p'.
Proof.
  destruct Hap as (_ & _ & _ & _ & Htwo). unfold ci_eq.
  destruct (is_ascii c); [|apply Htwo].
  intros H1 H2. apply N.eqb_eq in H1, H2. congruence.
Qed.

Lemma ci_other_letter p p' c :
  ascii_lower p <> ascii_lower p' -> ci_eq p c = true -> ci_eq p' c = false.
Proof.
  intros Hne Hp. destruct (ci_eq p' c) eqn:E; [|reflexivity].
  exfalso. apply Hne. eapply ci_two_letters; eassumption.
Qed.

Lemma amount_not_letter p c :
  (65 <= p <= 90 \/ 97 <= p <= 122)%N -> digit_or_comma c = true -> ci_eq p c = false.
Proof.
  destruct Hap as (_ & _ & _ & Hdec & _).
  intros Hp Hc. apply digit_or_comma_iff in Hc. unfold ci_eq, is_digit in *.
  destruct (is_ascii c) eqn:Ha.
  - apply N.eqb_neq.
    assert (Hc' : (48 <= c <= 57)%N \/ c = 44%N).
    { destruct Hc as [Hc|Hc]; [left|right; exact Hc].
      apply andb_true_iff in Hc as [H1 H2]. apply N.leb_le in H1, H2. lia. }
    destruct (ascii_lower_cases c) as [Ec|[Ec ?]], (ascii_lower_cases p) as [Ep|[Ep ?]];
      unfold comma in *; lia.
  - destruct Hc as [Hc| ->]; [apply Hdec; exact Hc | discriminate Ha].
Qed.

Lemma amount_not_dash c : digit_or_comma c = true -> dash c = false.
Proof.
  destruct Hap as (_ & Hen & _).
  intros Hc. destruct (dash c) eqn:Hd; [|reflexivity]. exfalso.
  apply dash_iff in Hd as [-> | ->].
  - vm_compute in Hc. discriminate Hc.
  - apply digit_or_comma_iff in Hc as [Hc|Hc]; [|discriminate Hc].
    unfold is_digit in Hc. change (is_ascii en_dash) with false in Hc. simpl in Hc. congruence.
Qed.

Lemma letter_not_dash p c :
  (65 <= p <= 90 \/ 97 <= p <= 122)%N -> ci_eq p c = true -> dash c = false.
Proof.
  destruct Hap as (_ & _ & Hen & _).
  intros Hp Hc. destruct (dash c) eqn:Hd; [|reflexivity]. exfalso.
  apply dash_iff in Hd as [-> | ->].
  - rewrite ci_eq_ascii in Hc by reflexivity. apply N.eqb_eq in Hc.
    change (ascii_lower hyphen) with 45%N in Hc.
    destruct (ascii_lower_cases p) as [Ep|[Ep ?]]; lia.
  - rewrite ci_eq_other in Hc by reflexivity. rewrite Hen in Hc. discriminate Hc.
Qed.

Lemma letter_not_slash p : (65 <= p <= 90 \/ 97 <= p <= 122)%N -> ci_eq p slash = false.
Proof.
  intros Hp. rewrite ci_eq_ascii by reflexivity. apply N.eqb_neq.
  change (ascii_lower slash) with 47%N.
  destruct (ascii_lower_cases p) as [Ep|[Ep ?]]; lia.
Qed.

Lemma length_lstrip_by p s : length (lstrip_by p s) <= length s.
Proof. induction s as [|c s IH]; simpl; [lia|]. destruct (p c); simpl; lia. Qed.

Lemma lstrip_by_run p a r :
  Forall (fun c => p c = true) a -> lstrip_by p (a ++ r) = lstrip_by p r.
Proof.
  induction 1 as [|c a Hc Ha IH]; [reflexivity|]. simpl. rewrite Hc. exact IH.
Qed.

Lemma lstrip_by_stop p r : (forall c t, r = c :: t -> p c = false) -> lstrip_by p r = r.
Proof.
  intros H. destruct r as [|c t]; [reflexivity|]. simpl. rewrite (H c t eq_refl). reflexivity.
Qed.

Lemma length_eat_k s : length (eat_k s) <= length s.
Proof. destruct s as [|c t]; simpl; [lia|]. destruct (ci_eq 107%N c); simpl; lia. Qed.

Lemma length_eat_dollar s : length (eat_dollar s) <= length s.
Proof. destruct s as [|c t]; simpl; [lia|]. destruct (c =? dollar)%N; simpl; lia. Qed.

Lemma length_eat_amount s t : eat_amount s = Some t -> length t <= length s.
Proof.
  destruct s as [|c s]; simpl; [discriminate|]. destruct (digit_or_comma c); [|discriminate].
  intros E. inversion E; subst. pose proof (length_lstrip_by digit_or_comma s). lia.
Qed.

Lemma length_eat_upper s t : eat_upper s = Some t -> length t <= length s.
Proof.
  unfold eat_upper. pose proof (length_lstrip_by is_space s) as H1.
  destruct (lstrip_by is_space s) as [|d t0]; [discriminate|].
  destruct (dash d); [|discriminate].
  pose proof (length_lstrip_by is_space t0) as H2.
  pose proof (length_eat_dollar (lstrip_by is_space t0)) as H3.
  destruct (eat_amount _) as [t1|] eqn:E; [|discriminate].
  apply length_eat_amount in E. pose proof (length_eat_k t1).
  simpl. intros E'. inversion E'; subst. simpl in H1. lia.
Qed.

Lemma length_strip_ci w : forall s t, strip_ci w s = Some t -> length t <= length s.
Proof.
  induction w as [|p w IH]; intros s t; simpl.
  - intros E. inversion E; subst. lia.
  - destruct s as [|c s]; [discriminate|]. destruct (ci_eq p c); [|discriminate].
    intros E. apply IH in E. simpl. lia.
Qed.

Lemma length_strip_slash_ci w s t : strip_slash_ci w s = Some t -> length t <= length s.
Proof.
  unfold strip_slash_ci. destruct s as [|c s]; [discriminate|].
  destruct (c =? slash)%N; [|discriminate]. intros E. apply length_strip_ci in E. simpl. lia.
Qed.

Lemma length_eat_unit s t : eat_unit s = Some t -> length t <= length s.
Proof.
  unfold eat_unit, eat_unit_word. pose proof (length_lstrip_by is_space s) as H1.
  destruct (strip_ci (pystr "USD") _) eqn:E1.
  { intros E. inversion E; subst. apply length_strip_ci in E1. lia. }
  destruct (strip_slash_ci (pystr "yr") _) eqn:E2.
  { intros E. inversion E; subst. apply length_strip_slash_ci in E2. lia. }
  destruct (strip_slash_ci (pystr "year") _) eqn:E3.
  { intros E. inversion E; subst. apply length_strip_slash_ci in E3. lia. }
  intros E. apply length_strip_ci in E. lia.
Qed.

Lemma length_or_stay_upper s : length (or_stay s (eat_upper s)) <= length s.
Proof.
  destruct (eat_upper s) eqn:E; simpl; [apply length_eat_upper; exact E | lia].
Qed.

Lemma length_or_stay_unit s : length (or_stay s (eat_unit s)) <= length s.
Proof.
  destruct (eat_unit s) eqn:E; simpl; [apply length_eat_unit; exact E | lia].
Qed.

Lemma strip_ci_word w : forall x r,
  Forall2 (fun p c => ci_eq p c = true) w x -> strip_ci w (x ++ r) = Some r.
Proof.
  induction w as [|p w IH]; intros x r H; inversion H as [|? c ? x' Hc Hx]; subst.
  - reflexivity.
  - simpl. rewrite Hc. apply IH. exact Hx.
Qed.

(** The characters that an upper bound or a unit can start with are
    neither of an amount nor a "k". *)
Lemma upper_text_head up c t :
  upper_text up -> up = c :: t -> is_space c = true \/ dash c = true.
Proof.
  intros [->|(ws1 & d & ws2 & dol & amt & k & -> & Hws1 & Hd & _)] E; [discriminate E|].
  destruct ws1 as [|w ws1]; simpl in E; inversion E; subst.
  - right. apply dash_iff. exact Hd.
  - left. apply Forall_cons in Hws1 as [Hw _]. exact Hw.
Qed.

Lemma unit_word_head w :
  unit_word w ->
  exists c t, w = c :: t /\ is_space c = false /\
              (ci_eq 85%N c = true \/ c = slash \/ ci_eq 97%N c = true).
Proof.
  intros [Hw|[(w' & -> & _)|Hw]].
  - inversion Hw as [|? c ? t Hc _]; subst. exists c, t. split; [reflexivity|].
    split; [eapply ci_letter_not_space; [|exact Hc]; left; lia | left; exact Hc].
  - exists slash, w'. split; [reflexivity|]. split; [reflexivity | right; left; reflexivity].
  - inversion Hw as [|? c ? t Hc _]; subst. exists c, t. split; [reflexivity|].
    split; [eapply ci_letter_not_space; [|exact Hc]; right; lia | right; right; exact Hc].
Qed.

Lemma unit_text_head unit c t :
  unit_text unit -> unit = c :: t ->
  is_space c = true \/ ci_eq 85%N c = true \/ c = slash \/ ci_eq 97%N c = true.
Proof.
  intros [->|(ws & w & -> & Hws & Hw)] E; [discriminate E|].
  destruct ws as [|w0 ws]; simpl in E.
  - destruct (unit_word_head w Hw) as (c' & t' & -> & _ & Hc). inversion E; subst.
    right. exact Hc.
  - inversion E; subst. left. apply Forall_cons in Hws as [Hw0 _]. exact Hw0.
Qed.

Lemma head_apart c :
  is_space c = true \/ dash c = true \/ ci_eq 85%N c = true \/ c = slash \/ ci_eq 97%N c = true ->
  digit_or_comma c = false /\ ci_eq 107%N c = false.
Proof.
  intros [H|[H|[H|[H|H]]]].
  - split; [apply space_not_amount; exact H | apply space_not_letter; [right; lia | exact H]].
  - split.
    + destruct (digit_or_comma c) eqn:E; [|reflexivity].
      apply amount_not_dash in E. congruence.
    + destruct (ci_eq 107%N c) eqn:E; [|reflexivity].
      apply letter_not_dash in E; [congruence | right; lia].
  - split.
    + destruct (digit_or_comma c) eqn:E; [|reflexivity].
      apply (amount_not_letter 85%N) in E; [congruence | left; lia].
    + eapply ci_other_letter; [|exact H]. vm_compute. discriminate.
  - subst c. split; [reflexivity | apply letter_not_slash; right; lia].
  - split.
    + destruct (digit_or_comma c) eqn:E; [|reflexivity].
      apply (amount_not_letter 97%N) in E; [congruence | right; lia].
    + eapply ci_other_letter; [|exact H]. vm_compute. discriminate.
Qed.

(** After an amount and an optional "k" of the text, the greedy reading has
    left no more than they leave, and exactly what they leave when that
    does not go on with a character of an amount or a "k". *)
Lemma amount_k_stage amt k R :
  amount_text amt -> k_text k ->
  exists t,
    option_map eat_k (eat_amount (amt ++ k ++ R)) = Some t /\ length t <= length R /\
    ((forall c r, R = c :: r -> digit_or_comma c = false /\ ci_eq 107%N c = false) -> t = R).
Proof.
  intros [Hne Hamt] Hk. destruct amt as [|a amt]; [contradiction|].
  assert (Hall : Forall (fun c => digit_or_comma c = true) (a :: amt)).
  { eapply Forall_impl; [exact Hamt|]. intros c Hc. apply digit_or_comma_iff. exact Hc. }
  apply Forall_cons in Hall as [Ha Hall].
  simpl. rewrite Ha. simpl. rewrite (lstrip_by_run _ _ _ Hall).
  destruct Hk as [->|Hk].
  - simpl. exists (eat_k (lstrip_by digit_or_comma R)). split; [reflexivity|]. split.
    + pose proof (length_eat_k (lstrip_by digit_or_comma R)).
      pose proof (length_lstrip_by digit_or_comma R). lia.
    + intros Hsafe. rewrite lstrip_by_stop by (intros c r E; apply (Hsafe c r E)).
      destruct R as [|c r]; [reflexivity|]. simpl.
      destruct (Hsafe c r eq_refl) as [_ ->]. reflexivity.
  - inversion Hk as [|? kc ? k' Hkc Hk']; subst. inversion Hk'; subst.
    change (ci_eq 107%N kc = true) in Hkc.
    assert (Hd : digit_or_comma kc = false).
    { destruct (digit_or_comma kc) eqn:E; [|reflexivity].
      apply (amount_not_letter 107%N) in E; [congruence | right; lia]. }
    simpl. rewrite Hd. simpl. rewrite Hkc. exists R. split; [reflexivity|].
    split; [lia | reflexivity].
Qed.

Lemma upper_stage up R :
  upper_text up -> up <> [] ->
  exists t,
    eat_upper (up ++ R) = Some t /\ length t <= length R /\
    ((forall c r, R = c :: r -> digit_or_comma c = false /\ ci_eq 107%N c = false) -> t = R).
Proof.
  destruct Hap as (Hen & _).
  intros [->|(ws1 & d & ws2 & dol & amt & k & -> & Hws1 & Hd & Hws2 & Hdol & Hamt & Hk)] Hne;
    [contradiction|].
  apply dash_iff in Hd. unfold eat_upper.
  rewrite <- app_assoc. rewrite (lstrip_by_run _ _ _ Hws1).
  assert (Hds : is_space d = false).
  { destruct (is_space d) eqn:E; [|reflexivity].
    rewrite (space_not_dash d Hen E) in Hd. discriminate Hd. }
  simpl. rewrite Hds, Hd.
  rewrite <- !app_assoc. rewrite (lstrip_by_run _ _ _ Hws2).
  destruct Hamt as [Hane Hamt]. destruct amt as [|a amt]; [contradiction|].
  assert (Ha : digit_or_comma a = true).
  { apply digit_or_comma_iff. apply Forall_cons in Hamt as [Ha _]. exact Ha. }
  assert (Has : is_space a = false) by (apply digit_or_comma_not_space; exact Ha).
  assert (Hrest : eat_dollar (lstrip_by is_space (dol ++ (a :: amt) ++ k ++ R))
                  = (a :: amt) ++ k ++ R).
  { destruct Hdol as [-> | ->]; simpl.
    - rewrite Has. simpl. destruct (a =? dollar)%N eqn:E; [|reflexivity].
      apply N.eqb_eq in E. subst a. discriminate Ha.
    - reflexivity. }
  rewrite Hrest. apply amount_k_stage; [split; assumption | exact Hk].
Qed.

Lemma upper_absent unit R :
  unit_text unit -> unit <> [] -> eat_upper (unit ++ R) = None.
Proof.
  intros [->|(ws & w & -> & Hws & Hw)] Hne; [contradiction|].
  destruct (unit_word_head w Hw) as (c & t & -> & Hcs & Hc).
  unfold eat_upper. rewrite <- app_assoc. rewrite (lstrip_by_run _ _ _ Hws).
  simpl. rewrite Hcs.
  assert (Hd : dash c = false).
  { destruct Hc as [Hc|[->|Hc]].
    - eapply letter_not_dash; [|exact Hc]. left; lia.
    - reflexivity.
    - eapply letter_not_dash; [|exact Hc]. right; lia. }
  rewrite Hd. reflexivity.
Qed.

Lemma unit_stage unit R :
  unit_text unit -> unit <> [] -> eat_unit (unit ++ R) = Some R.
Proof.
  intros [->|(ws & w & -> & Hws & Hw)] Hne; [contradiction|].
  destruct (unit_word_head w Hw) as (c & t & Ew & Hcs & _).
  unfold eat_unit. rewrite <- app_assoc. rewrite (lstrip_by_run _ _ _ Hws).
  rewrite lstrip_by_stop by (intros c' t' E; rewrite Ew in E; inversion E; subst; exact Hcs).
  clear c t Ew Hcs. unfold eat_unit_word.
  destruct Hw as [Hw|[(w' & -> & [Hw|Hw])|Hw]].
  - rewrite (strip_ci_word _ _ R Hw). reflexivity.
  - assert (E1 : strip_ci (pystr "USD") ((slash :: w') ++ R) = None).
    { reflexivity. }
    rewrite E1.
    change (strip_slash_ci (pystr "yr") ((slash :: w') ++ R))
      with (strip_ci (pystr "yr") (w' ++ R)).
    rewrite (strip_ci_word _ _ R Hw). reflexivity.
  - assert (E1 : strip_ci (pystr "USD") ((slash :: w') ++ R) = None).
    { reflexivity. }
    rewrite E1.
    change (strip_slash_ci (pystr "yr") ((slash :: w') ++ R))
      with (strip_ci (pystr "yr") (w' ++ R)).
    change (strip_slash_ci (pystr "year") ((slash :: w') ++ R))
      with (strip_ci (pystr "year") (w' ++ R)).
    assert (E2 : strip_ci (pystr "yr") (w' ++ R) = None).
    { inversion Hw as [|? y ? w1 Hy Hw1]; subst.
      inversion Hw1 as [|? e ? w2 He Hw2]; subst.
      change (ci_eq 121%N y = true) in Hy. change (ci_eq 101%N e = true) in He.
      change (strip_ci (pystr "yr") ((y :: e :: w2) ++ R))
        with (if ci_eq 121%N y
              then if ci_eq 114%N e then Some (w2 ++ R) else None else None).
      rewrite Hy.
      rewrite (ci_other_letter 101%N 114%N e) by (first [exact He | vm_compute; discriminate]).
      reflexivity. }
    rewrite E2. rewrite (strip_ci_word _ _ R Hw). reflexivity.
  - inversion Hw as [|? a ? w1 Ha Hw1]; subst.
    change (ci_eq 97%N a = true) in Ha.
    assert (E1 : strip_ci (pystr "USD") ((a :: w1) ++ R) = None).
    { change (strip_ci (pystr "USD") ((a :: w1) ++ R))
        with (if ci_eq 85%N a then strip_ci (pystr "SD") (w1 ++ R) else None).
      rewrite (ci_other_letter 97%N 85%N a)
        by (first [exact Ha | vm_compute; discriminate]). reflexivity. }
    rewrite E1.
    assert (Es : (a =? slash)%N = false).
    { apply N.eqb_neq. intros ->. rewrite letter_not_slash in Ha by (right; lia).
      discriminate Ha. }
    change (strip_slash_ci (pystr "yr") ((a :: w1) ++ R))
      with (if (a =? slash)%N then strip_ci (pystr "yr") (w1 ++ R) else None).
    change (strip_slash_ci (pystr "year") ((a :: w1) ++ R))
      with (if (a =? slash)%N then strip_ci (pystr "year") (w1 ++ R) else None).
    rewrite Es. apply (strip_ci_word _ (a :: w1) R). exact Hw.
Qed.

(** No word of the shape that starts where the greedy reading starts goes
    beyond what the greedy reading takes. *)
Lemma eat_salary_longest s rest m' post' :
  eat_salary s = Some rest -> s = m' ++ post' -> salary_text m' ->
  length rest <= length post'.
Proof.
  intros Heat -> (amt & k & up & unit & -> & Hamt & Hk & Hup & Hunit).
  unfold eat_salary in Heat. simpl in Heat.
  rewrite <- !app_assoc in Heat.
  destruct (amount_k_stage amt k (up ++ unit ++ post') Hamt Hk) as (s2 & E2 & Hlen2 & Hsame2).
  destruct (eat_amount (amt ++ k ++ up ++ unit ++ post')) as [s1|]; [|discriminate E2].
  simpl in E2. inversion E2; subst s2. clear E2.
  inversion Heat; subst rest. clear Heat.
  set (s2 := eat_k s1) in *. set (s3 := or_stay s2 (eat_upper s2)).
  pose proof (length_or_stay_upper s2) as H3. fold s3 in H3.
  pose proof (length_or_stay_unit s3) as H4.
  destruct up as [|cu up].
  - destruct unit as [|cn unit].
    + simpl in *. lia.
    + assert (Hs2 : s2 = (cn :: unit) ++ post').
      { apply Hsame2. intros c r E. inversion E; subst. apply head_apart.
        destruct (unit_text_head _ _ _ Hunit eq_refl) as [H|H]; auto. }
      assert (Hs3 : s3 = (cn :: unit) ++ post').
      { unfold s3. rewrite Hs2. rewrite upper_absent by (assumption || discriminate).
        reflexivity. }
      rewrite Hs3. rewrite unit_stage by (assumption || discriminate). simpl. lia.
  - assert (Hs2 : s2 = (cu :: up) ++ unit ++ post').
    { apply Hsame2. intros c r E. inversion E; subst. apply head_apart.
      destruct (upper_text_head _ _ _ Hup eq_refl) as [H|H]; auto. }
    destruct (upper_stage (cu :: up) (unit ++ post') Hup ltac:(discriminate))
      as (t & Et & Hlent & Hsamet).
    assert (Hs3 : s3 = t) by (unfold s3; rewrite Hs2, Et; reflexivity).
    destruct unit as [|cn unit].
    + simpl app in Hlent.
      assert (length s3 <= length post') by (rewrite Hs3; exact Hlent). lia.
    + assert (Ht : t = (cn :: unit) ++ post').
      { apply Hsamet. intros c r E. inversion E; subst. apply head_apart.
        destruct (unit_text_head _ _ _ Hunit eq_refl) as [H|H]; auto. }
      rewrite Hs3, Ht. rewrite unit_stage by (assumption || discriminate). simpl. lia.
Qed.

End LongestFacts.

Section SearchFacts.

Lemma re_match_bt r s m rest : re_match r s = Some (m, rest) -> bt r s Some = Some rest.
Proof.
  unfold re_match. destruct (bt r s Some) as [rest'|]; [|discriminate].
  intros E. inversion E; subst. reflexivity.
Qed.

(** Where [re.search] finds its match, the matcher has run on the text from
    there. *)
Lemma re_search_bt r s : forall pre m post,
  re_search r s = Some (pre, m, post) -> bt r (m ++ post) Some = Some post.
Proof.
  induction s as [|c s IH]; intros pre m post; simpl.
  - destruct (re_match r []) as [[m0 rest0]|] eqn:Hm; [|discriminate].
    intros E. inversion E; subst.
    destruct (re_match_sound _ _ _ _ Hm) as [Hs _]. rewrite <- Hs.
    eapply re_match_bt. exact Hm.
  - destruct (re_match r (c :: s)) as [[m0 rest0]|] eqn:Hm.
    + intros E. inversion E; subst.
      destruct (re_match_sound _ _ _ _ Hm) as [Hs _]. rewrite <- Hs.
      eapply re_match_bt. exact Hm.
    + destruct (re_search r s) as [[[pre0 m0] post0]|] eqn:Hs; [|discriminate].
      intros E. inversion E; subst. eapply IH. reflexivity.
Qed.

End SearchFacts.

(** C3, as the code has it.  [extract_salary] returns the leftmost substring
    of the text that has the shape of a salary -- a dollar sign, a run of
    digits and commas, an optional "k", an optional upper bound joined by a
    hyphen or an en dash with optional white space around it and made of an
    optional dollar sign, a run of digits and commas and an optional "k",
    and an optional unit ("USD", "/yr", "/year", "annually") after optional
    white space, letters in either case -- and of the substrings of this
    shape that start there, the longest; it returns the empty string when no
    substring has the shape.  A text without a dollar sign yields the empty
    string, and "$90,000 - $110,000/year" yields itself. *)
Theorem extract_salary_leftmost_longest `{U : Unicode} (text : str) :
  classes_apart ->
  leftmost_longest salary_text text (extract_salary text) /\
  (dollar ∉ text -> extract_salary text = []) /\
  extract_salary (pystr "$90,000 - $110,000/year") = pystr "$90,000 - $110,000/year".
Proof.
  intros Hap.
  assert (Hspec : leftmost_longest salary_text text (extract_salary text)).
  { unfold extract_salary.
    destruct (re_search salary_re text) as [[[pre m] post]|] eqn:E.
    - pose proof (re_search_bt _ _ _ _ _ E) as Hbt.
      rewrite bt_salary in Hbt by apply Hap.
      apply re_search_some in E as (Htext & Hm & Hleft).
      destruct (salary_match_stripped m Hm) as [_ ->].
      left. exists pre, post. split; [exact Htext|].
      split; [apply matches_salary; exact Hm|].
      intros pre' m' post' E' Hshape.
      pose proof (Hleft pre' m' post' E' (proj2 (matches_salary m') Hshape)) as Hle.
      destruct (Nat.eq_dec (length pre) (length pre')) as [Heq|Hne]; [right | left; lia].
      split; [exact Heq|].
      rewrite Htext in E'. apply app_inj_1 in E' as [_ E']; [|exact Heq].
      pose proof (eat_salary_longest Hap _ _ _ _ Hbt E' Hshape) as Hlen.
      apply (f_equal length) in E'. rewrite !length_app in E'. lia.
    - right. split; [reflexivity|]. intros pre' m' post' E' Hshape.
      apply (re_search_none _ _ E pre' m' post' E'). apply matches_salary. exact Hshape. }
  split; [exact Hspec|]. split; [|vm_compute; reflexivity].
  intros Hno. destruct Hspec as [(pre & post & Htext & Hm & _)|[Hnil _]]; [|assumption].
  exfalso. apply Hno. rewrite Htext.
  destruct Hm as (amt & k & up & unit & -> & _).
  apply elem_of_app. right. left.
Qed.

(** In "pay $80k-130k usd now" the salary is "$80k-130k usd": neither "$8"
    nor "$80k", which have the shape and start at the same place. *)
Lemma extract_salary_leftmost_longest_witness :
  leftmost_longest (@salary_text ascii_only) (pystr "pay $80k-130k usd now")
    (@extract_salary ascii_only (pystr "pay $80k-130k usd now")) /\
  @extract_salary ascii_only (pystr "pay $80k-130k usd now") = pystr "$80k-130k usd".
Proof.
  split; [|reflexivity].
  refine (proj1 (@extract_salary_leftmost_longest ascii_only
                   (pystr "pay $80k-130k usd now") _)).
  repeat split; intros; first [reflexivity | discriminate].
Defined.

(** For "$80k-130k" the result is the whole text, whose upper bound has no
    dollar sign: it is not a word of the shape that the specification
    describes, whose upper bound starts with one. *)
Lemma extract_salary_upper_bound_without_dollar :
  @extract_salary ascii_only (pystr "$80k-130k") = pystr "$80k-130k" /\
  ~ leftmost_match (matches (@claimed_salary_re ascii_only)) (pystr "$80k-130k")
      (@extract_salary ascii_only (pystr "$80k-130k")).
Proof.
  assert (E : @extract_salary ascii_only (pystr "$80k-130k") = pystr "$80k-130k")
    by (vm_compute; reflexivity).
  split; [exact E|]. rewrite E.
  intros [(pre & post & _ & Hm & _)|[Hnil _]]; [|discriminate Hnil].
  apply re_fullmatch_spec in Hm. vm_compute in Hm. discriminate Hm.
Qed.

(** ** Scoring client: fences *)

Section DeleteFacts.

Lemma bt_Lit {A} p : forall s (k : str -> option A),
  bt (Lit p) s k = match strip_prefix p s with Some r => k r | None => None end.
Proof.
  induction p as [|a p IH]; intros s k; simpl; [reflexivity|].
  destruct s as [|c s]; [reflexivity|].
  unfold one. rewrite N.eqb_sym. destruct (a =? c)%N; [apply IH | reflexivity].
Qed.

Lemma re_delete_from_skip r s : forall n,
  re_delete_from r n s = re_delete_from r 0 (drop n s).
Proof.
  induction s as [|c s IH]; intros [|n]; simpl; try reflexivity.
  rewrite IH. reflexivity.
Qed.

(** One step of the scan. *)
Lemma re_delete_cons r c s :
  re_delete r (c :: s) =
  match bt r (c :: s) Some with
  | Some rest =>
      if length rest <? S (length s) then re_delete r rest else c :: re_delete r s
  | None => c :: re_delete r s
  end.
Proof.
  unfold re_delete. simpl re_delete_from. unfold re_match.
  destruct (bt r (c :: s) Some) as [rest|] eqn:E; [|reflexivity].
  destruct (bt_sound _ _ _ _ E) as (m & rest' & Hs & _ & Hk).
  inversion Hk; subst rest'. clear Hk.
  assert (Hlen : S (length s) = length m + length rest).
  { change (S (length s)) with (length (c :: s)). rewrite Hs. apply length_app. }
  simpl length. rewrite Hlen.
  replace (length m + length rest - length rest) with (length m) by lia.
  rewrite Hs, take_app_length.
  destruct m as [|c0 m]; simpl in *.
  - replace (length rest <? length rest) with false by (symmetry; apply Nat.ltb_ge; lia).
    reflexivity.
  - replace (length rest <? S (length m + length rest)) with true
      by (symmetry; apply Nat.ltb_lt; lia).
    inversion Hs; subst. rewrite re_delete_from_skip, drop_app_length. reflexivity.
Qed.

Lemma bt_fence_re s :
  bt fence_re s Some =
  match strip_prefix fence s with
  | Some r1 =>
      match strip_prefix (pystr "json") r1 with
      | Some r2 => Some r2
      | None => Some r1
      end
  | None => None
  end.
Proof.
  unfold fence_re.
  change (bt (Seq (Lit fence) (Opt (Lit (pystr "json")))) s Some)
    with (bt (Lit fence) s (fun s1 =>
            match bt (Lit (pystr "json")) s1 Some with
            | Some x => Some x
            | None => Some s1
            end)).
  rewrite bt_Lit. destruct (strip_prefix fence s) as [r1|]; [|reflexivity].
  rewrite bt_Lit. destruct (strip_prefix (pystr "json") r1); reflexivity.
Qed.

(** One step of the scan for the fence pattern. *)
Lemma re_delete_fence_cons c s :
  re_delete fence_re (c :: s) =
  match strip_prefix fence (c :: s) with
  | Some r1 =>
      match strip_prefix (pystr "json") r1 with
      | Some r2 => re_delete fence_re r2
      | None => re_delete fence_re r1
      end
  | None => c :: re_delete fence_re s
  end.
Proof.
  rewrite re_delete_cons, bt_fence_re.
  destruct (strip_prefix fence (c :: s)) as [r1|] eqn:E1; [|reflexivity].
  apply strip_prefix_spec in E1.
  assert (H1 : S (length s) = 3 + length r1).
  { change (S (length s)) with (length (c :: s)). rewrite E1. reflexivity. }
  destruct (strip_prefix (pystr "json") r1) as [r2|] eqn:E2.
  - apply strip_prefix_spec in E2.
    assert (H2 : length r1 = 4 + length r2) by (rewrite E2; reflexivity).
    replace (length r2 <? S (length s)) with true by (symmetry; apply Nat.ltb_lt; lia).
    reflexivity.
  - replace (length r1 <? S (length s)) with true by (symmetry; apply Nat.ltb_lt; lia).
    reflexivity.
Qed.

Lemma re_delete_fence_other c s :
  c <> backtick -> re_delete fence_re (c :: s) = c :: re_delete fence_re s.
Proof.
  intros Hc. rewrite re_delete_fence_cons.
  destruct (strip_prefix fence (c :: s)) as [r1|] eqn:E; [|reflexivity].
  apply strip_prefix_spec in E. inversion E. contradiction.
Qed.

Lemma re_delete_fence_prefix (w s : str) :
  Forall (fun c => c <> backtick) w ->
  re_delete fence_re (w ++ s) = w ++ re_delete fence_re s.
Proof.
  induction 1 as [|c w Hc _ IH]; simpl; [reflexivity|].
  rewrite re_delete_fence_other by assumption. rewrite IH. reflexivity.
Qed.

Lemma re_delete_fence_free s :
  contains s fence = false -> re_delete fence_re s = s.
Proof.
  induction s as [|c s IH]; [reflexivity|].
  simpl contains. intros H. apply orb_false_iff in H as [H1 H2].
  rewrite re_delete_fence_cons. unfold startswith in H1.
  destruct (strip_prefix fence (c :: s)); [discriminate|].
  rewrite IH by assumption. reflexivity.
Qed.

(** A character [d] that is not in the prefix [p] stops the prefix test
    from looking beyond it. *)
Lemma strip_prefix_blocked (d : char) (t : str) p : forall a,
  d ∉ p ->
  match strip_prefix p (a ++ [d]) with
  | Some r =>
      exists a', r = a' ++ [d] /\ length a' + length p = length a /\
        strip_prefix p ((a ++ [d]) ++ t) = Some ((a' ++ [d]) ++ t)
  | None => strip_prefix p ((a ++ [d]) ++ t) = None
  end.
Proof.
  induction p as [|x p IH]; intros a Hd; simpl.
  - exists a. split; [reflexivity|]. split; [lia | reflexivity].
  - assert (Hx : x <> d) by set_solver.
    assert (Hp : d ∉ p) by set_solver.
    destruct a as [|c a]; simpl.
    + destruct (x =? d)%N eqn:E; [apply N.eqb_eq in E; contradiction | reflexivity].
    + destruct (x =? c)%N; [|reflexivity].
      specialize (IH a Hp). destruct (strip_prefix p (a ++ [d])) as [r|]; [|assumption].
      destruct IH as (a' & -> & Hlen & Hrest). exists a'.
      split; [reflexivity|]. split; [lia | assumption].
Qed.

(** The scan of a text that ends with a closing brace ends at that brace:
    what follows is scanned afresh, and the brace stays last. *)
Lemma re_delete_fence_closed (t : str) (n : nat) : forall a,
  length a < n ->
  re_delete fence_re ((a ++ [rbrace]) ++ t)
  = re_delete fence_re (a ++ [rbrace]) ++ re_delete fence_re t /\
  exists mid, re_delete fence_re (a ++ [rbrace]) = mid ++ [rbrace].
Proof.
  induction n as [|n IH]; intros a Hlen; [lia|].
  destruct a as [|c a].
  - simpl. rewrite !re_delete_fence_other by discriminate.
    split; [reflexivity|]. exists []. reflexivity.
  - assert (Hf : rbrace ∉ fence) by (vm_compute; set_solver).
    assert (Hj : rbrace ∉ pystr "json") by (vm_compute; set_solver).
    change ((c :: a) ++ [rbrace]) with (c :: (a ++ [rbrace])).
    change ((c :: a ++ [rbrace]) ++ t) with (c :: ((a ++ [rbrace]) ++ t)).
    rewrite !re_delete_fence_cons.
    change (c :: (a ++ [rbrace]) ++ t) with (((c :: a) ++ [rbrace]) ++ t).
    change (c :: a ++ [rbrace]) with ((c :: a) ++ [rbrace]).
    pose proof (strip_prefix_blocked rbrace t fence (c :: a) Hf) as H1.
    destruct (strip_prefix fence ((c :: a) ++ [rbrace])) as [r1|].
    + destruct H1 as (a1 & -> & Hl1 & ->).
      pose proof (strip_prefix_blocked rbrace t (pystr "json") a1 Hj) as H2.
      destruct (strip_prefix (pystr "json") (a1 ++ [rbrace])) as [r2|].
      * destruct H2 as (a2 & -> & Hl2 & ->). apply IH. simpl in *. lia.
      * rewrite H2. apply IH. simpl in *. lia.
    + rewrite H1. simpl in Hlen.
      destruct (IH a ltac:(lia)) as (-> & mid & ->).
      split; [reflexivity|]. exists (c :: mid). reflexivity.
Qed.

End DeleteFacts.

Section FenceFacts.
Context `{U : Unicode}.

Lemma lstrip_by_blank p w s :
  Forall (fun c => p c = true) w -> lstrip_by p (w ++ s) = lstrip_by p s.
Proof.
  induction 1 as [|c w Hc _ IH]; simpl; [reflexivity|]. rewrite Hc. assumption.
Qed.

Lemma rstrip_by_blank p s w :
  Forall (fun c => p c = true) w -> rstrip_by p (s ++ w) = rstrip_by p s.
Proof.
  intros Hw. unfold rstrip_by. rewrite rev_app_distr.
  rewrite lstrip_by_blank; [reflexivity|].
  rewrite Forall_forall in *. intros c Hc. apply Hw.
  apply list_elem_of_In. apply in_rev. apply list_elem_of_In. assumption.
Qed.

(** [strip] of a text between white space, when the text neither starts
    nor ends with white space. *)
Lemma strip_surround w c s d w' :
  blank w -> blank w' -> is_space c = false -> is_space d = false ->
  strip (w ++ (c :: s ++ [d]) ++ w') = c :: s ++ [d].
Proof.
  intros Hw Hw' Hc Hd. unfold strip, strip_by.
  rewrite lstrip_by_blank by assumption.
  change ((c :: s ++ [d]) ++ w') with (c :: (s ++ [d]) ++ w').
  rewrite lstrip_by_head by assumption.
  change (c :: (s ++ [d]) ++ w') with ((c :: s ++ [d]) ++ w').
  rewrite rstrip_by_blank by assumption.
  exact (rstrip_by_last is_space (c :: s) d Hd).
Qed.

Lemma blank_no_backtick w : blank w -> Forall (fun c => c <> backtick) w.
Proof.
  intros H. eapply Forall_impl; [exact H|]. intros c Hc ->. discriminate Hc.
Qed.

Lemma blank_app w w' : blank w -> blank w' -> blank (w ++ w').
Proof. intros. apply Forall_app. auto. Qed.

(** What the fence handling makes of a fenced object text, and of the bare
    one. *)
Lemma strip_fences_of_object w1 body w2 :
  blank w1 -> blank w2 ->
  let x := w1 ++ (lbrace :: body ++ [rbrace]) ++ w2 in
  let cleaned := re_delete fence_re (lbrace :: body ++ [rbrace]) in
  (forall ws1 ws2, blank ws1 -> blank ws2 ->
     strip_fences (strip (fenced ws1 x ws2)) = cleaned) /\
  strip_fences (strip x) = cleaned /\
  (contains x fence = false -> cleaned = strip x).
Proof.
  intros Hw1 Hw2 x cleaned.
  destruct (re_delete_fence_closed [] (S (length body)) body ltac:(lia)) as (_ & mid & Hmid).
  assert (Hcleaned : cleaned = lbrace :: mid ++ [rbrace]).
  { unfold cleaned. rewrite re_delete_fence_other by discriminate. rewrite Hmid. reflexivity. }
  assert (Hstrip_x : strip x = lbrace :: body ++ [rbrace]).
  { unfold x. apply strip_surround; auto. }
  assert (Hclean_id : strip_by (one backtick) (strip cleaned) = cleaned).
  { rewrite Hcleaned. unfold strip. rewrite strip_by_id by reflexivity.
    apply strip_by_id; reflexivity. }
  split; [|split].
  - intros ws1 ws2 Hws1 Hws2.
    assert (Hwrap : fenced ws1 x ws2
                    = backtick :: ([backtick; backtick] ++ pystr "json" ++ ws1 ++ x ++ ws2
                                   ++ [backtick; backtick]) ++ [backtick]).
    { unfold fenced, fence. simpl. rewrite <- !app_assoc. reflexivity. }
    assert (Hs : strip (fenced ws1 x ws2) = fenced ws1 x ws2).
    { rewrite Hwrap. unfold strip. apply strip_by_id; reflexivity. }
    rewrite Hs. unfold strip_fences.
    replace (contains (fenced ws1 x ws2) fence) with true
      by (symmetry; apply contains_spec; exists [], (pystr "json" ++ ws1 ++ x ++ ws2 ++ fence);
          reflexivity).
    assert (Hdel : re_delete fence_re (fenced ws1 x ws2)
                   = (ws1 ++ w1) ++ cleaned ++ (w2 ++ ws2)).
    { unfold fenced.
      change (fence ++ pystr "json" ++ ws1 ++ x ++ ws2 ++ fence)
        with (backtick :: [backtick; backtick] ++ pystr "json" ++ ws1 ++ x ++ ws2 ++ fence).
      rewrite re_delete_fence_cons.
      replace (strip_prefix fence
                 (backtick :: [backtick; backtick] ++ pystr "json" ++ ws1 ++ x ++ ws2 ++ fence))
        with (Some (pystr "json" ++ ws1 ++ x ++ ws2 ++ fence))
        by (symmetry; apply strip_prefix_spec; reflexivity).
      replace (strip_prefix (pystr "json") (pystr "json" ++ ws1 ++ x ++ ws2 ++ fence))
        with (Some (ws1 ++ x ++ ws2 ++ fence))
        by (symmetry; apply strip_prefix_spec; reflexivity).
      rewrite re_delete_fence_prefix by (apply blank_no_backtick; assumption).
      unfold x. rewrite <- !app_assoc.
      rewrite re_delete_fence_prefix by (apply blank_no_backtick; assumption).
      change (lbrace :: body ++ [rbrace]) with ((lbrace :: body) ++ [rbrace]).
      rewrite (app_assoc ((lbrace :: body) ++ [rbrace])).
      destruct (re_delete_fence_closed (w2 ++ ws2 ++ fence) (S (S (length body)))
                  (lbrace :: body) ltac:(simpl; lia)) as (Hsplit & _).
      rewrite <- !app_assoc in Hsplit. rewrite <- !app_assoc. rewrite Hsplit.
      rewrite (re_delete_fence_prefix w2) by (apply blank_no_backtick; assumption).
      rewrite (re_delete_fence_prefix ws2) by (apply blank_no_backtick; assumption).
      replace (re_delete fence_re fence) with (@nil char) by (vm_compute; reflexivity).
      rewrite ?app_nil_r. unfold cleaned. reflexivity. }
    rewrite Hdel, Hcleaned.
    rewrite strip_surround by (auto using blank_app; reflexivity).
    apply strip_by_id; reflexivity.
  - rewrite Hstrip_x. unfold strip_fences.
    destruct (contains (lbrace :: body ++ [rbrace]) fence) eqn:Ec.
    + exact Hclean_id.
    + symmetry. apply re_delete_fence_free. assumption.
  - intros Hfree. rewrite Hstrip_x. apply re_delete_fence_free.
    destruct (contains (lbrace :: body ++ [rbrace]) fence) eqn:Ec; [|reflexivity].
    apply contains_spec in Ec as (pre & post & E).
    assert (Hx : contains x fence = true).
    { apply contains_spec. exists (w1 ++ pre), (post ++ w2). unfold x. rewrite E.
      rewrite <- !app_assoc. reflexivity. }
    congruence.
Qed.

End FenceFacts.

(** C6.  For the text [x] of a JSON object, the response that wraps [x] in
    a fence marked [json] parses to what the response [x] itself parses to;
    and when [x] holds no fence of its own, to what [json.loads] makes of
    [x] without its surrounding white space. *)
Theorem fenced_response_parses_alike
    `{U : Unicode} (json_loads : str -> outcome pyval) (x ws1 ws2 : str) :
  json_object_text x -> blank ws1 -> blank ws2 ->
  parse_response json_loads (fenced ws1 x ws2) = parse_response json_loads x /\
  (contains x fence = false ->
   parse_response json_loads (fenced ws1 x ws2) = json_loads (strip x)).
Proof.
  intros (w1 & body & w2 & -> & Hw1 & Hw2) Hws1 Hws2.
  destruct (strip_fences_of_object w1 body w2 Hw1 Hw2) as (Hwrapped & Hbare & Hfree).
  unfold parse_response. rewrite (Hwrapped ws1 ws2 Hws1 Hws2), Hbare.
  split; [reflexivity|]. intros Hno. rewrite (Hfree Hno). reflexivity.
Qed.

Lemma fenced_response_witness :
  @parse_response ascii_only example_loads (fenced [newline] three_field_text [newline])
  = @parse_response ascii_only example_loads three_field_text.
Proof.
  refine (proj1 (@fenced_response_parses_alike ascii_only example_loads
            three_field_text [newline] [newline] _ _ _)).
  - exists [], (removelast (tail three_field_text)), [].
    split; [vm_compute; reflexivity|]. split; constructor.
  - constructor; [reflexivity | constructor].
  - constructor; [reflexivity | constructor].
Defined.

(** ** Scoring client: failures *)

Section FailureFacts.
Context `{U : Unicode} `{S : PySort}.
Variable post : ScoringRequest -> HttpReply.
Variable json_loads : str -> outcome pyval.

(** One call posts one request, whatever comes back. *)
Lemma score_posts_once job :
  fst (score_job_with_ollama post json_loads job) = [build_request job].
Proof. reflexivity. Qed.

Lemma score_failure_none job :
  scoring_failure json_loads (post (build_request job)) ->
  score_job_with_ollama post json_loads job = ([build_request job], VNone).
Proof.
  unfold score_job_with_ollama. intros Hfail. f_equal.
  inversion Hfail as [E|E|E|body Hbody E|body text Hbody Hparse E]; try reflexivity.
  - simpl. rewrite Hbody. reflexivity.
  - simpl. rewrite Hbody. simpl. rewrite Hparse. reflexivity.
Qed.

Lemma filter_scored_without job l2 : forall l1,
  filter_scored (l1 ++ (job, VNone) :: l2) = filter_scored (l1 ++ l2).
Proof.
  induction l1 as [|[job1 a1] l1 IH]; simpl.
  - destruct (filter_scored l2); reflexivity.
  - rewrite IH. reflexivity.
Qed.

Lemma main_scoring_snd jobs :
  snd (main_scoring post json_loads jobs)
  = (s ← snd (scoring_loop post json_loads jobs); Ret (rank s)).
Proof.
  unfold main_scoring. destruct (scoring_loop post json_loads jobs). reflexivity.
Qed.

Lemma main_scoring_fst jobs :
  fst (main_scoring post json_loads jobs) = fst (scoring_loop post json_loads jobs).
Proof.
  unfold main_scoring. destruct (scoring_loop post json_loads jobs). reflexivity.
Qed.

(** A loop that runs to its end has posted one request per listing. *)
Lemma scoring_loop_posts jobs : forall scored,
  snd (scoring_loop post json_loads jobs) = Ret scored ->
  fst (scoring_loop post json_loads jobs) = map build_request jobs.
Proof.
  induction jobs as [|job jobs IH]; intros scored; [reflexivity|].
  simpl. destruct (passes_filter _) as [keep|]; [|discriminate].
  destruct (scoring_loop post json_loads jobs) as [posted' rest]. simpl in *.
  destruct rest as [scored'|]; [|discriminate].
  intros _. rewrite (IH scored' eq_refl). reflexivity.
Qed.

End FailureFacts.

(** C7, as the code has it.  When the scoring call of a listing fails --
    the transport fails, the call times out, the reply is not JSON or has no
    text under "response", or the generated text is not JSON -- the call has
    posted exactly one request and returns [None] instead of raising; the
    shortlist is the one the run would produce without that listing; and a
    run that ends with a shortlist has posted one request for every listing,
    this one included.  When the generated text parses, the call returns the
    parsed value as it is, again after exactly one request. *)
Theorem failed_scoring_drops_the_listing `{U : Unicode} `{S : PySort}
    (post : ScoringRequest -> HttpReply) (json_loads : str -> outcome pyval) (job : Job) :
  (scoring_failure json_loads (post (build_request job)) ->
   score_job_with_ollama post json_loads job = ([build_request job], VNone) /\
   forall before after,
     snd (main_scoring post json_loads (before ++ job :: after))
     = snd (main_scoring post json_loads (before ++ after)) /\
     forall shortlist,
       snd (main_scoring post json_loads (before ++ job :: after)) = Ret shortlist ->
       fst (main_scoring post json_loads (before ++ job :: after))
       = map build_request (before ++ job :: after)) /\
  (forall body text v,
     post (build_request job) = Replied (Ret body) ->
     response_text body = Ret text ->
     parse_response json_loads text = Ret v ->
     score_job_with_ollama post json_loads job = ([build_request job], v)).
Proof.
  split.
  - intros Hfail. pose proof (score_failure_none post json_loads job Hfail) as Hnone.
    split; [assumption|]. intros before after. split.
    + rewrite !main_scoring_snd, !scoring_loop_filters, !map_app, map_cons.
      rewrite Hnone. cbn [snd]. rewrite filter_scored_without. reflexivity.
    + intros shortlist Hs. rewrite main_scoring_snd in Hs. rewrite main_scoring_fst.
      destruct (snd (scoring_loop post json_loads (before ++ job :: after)))
        as [scored|] eqn:E; [|discriminate].
      exact (scoring_loop_posts post json_loads _ scored E).
  - intros body text v Hpost Hbody Hparse. unfold score_job_with_ollama.
    rewrite Hpost. simpl. rewrite Hbody. simpl. rewrite Hparse. reflexivity.
Qed.

Lemma failed_scoring_witness :
  @score_job_with_ollama ascii_only (fun _ => TimedOut) example_loads (example_job "a")
  = ([@build_request (example_job "a")], VNone).
Proof.
  refine (proj1 (proj1 (@failed_scoring_drops_the_listing ascii_only sort_as_is
            (fun _ => TimedOut) example_loads (example_job "a")) _)).
  constructor.
Defined.

(** A generated text that is a JSON object with only three of the eight
    required fields is returned as the assessment, and the listing is
    shortlisted. *)
Lemma three_field_reply_is_shortlisted :
  @score_job_with_ollama ascii_only example_post example_loads (example_job "a")
  = ([@build_request (example_job "a")], VDict three_fields) /\
  snd (@main_scoring ascii_only sort_as_is example_post example_loads [example_job "a"])
  = Ret [(example_job "a", VDict three_fields)].
Proof.
  split; vm_compute; reflexivity.
Qed.

(** ** Recency filter *)

(** C4, a defect.  The feed dates its entries in UTC, and [is_recent] hands
    the UTC tuple to [time.mktime], which reads it as local time.  On a host
    two hours ahead of UTC, an entry that is exactly thirty days old (its
    UTC instant is 30 * 86400 seconds before the reading of the clock) is
    measured as older than thirty days and rejected with a window of thirty
    days; on a host in UTC the same entry is admitted. *)
Theorem is_recent_reads_utc_as_local :
  timegm boundary_stamp = 1768003200%Z /\
  ((time_time boundary_clock - inject_Z (timegm boundary_stamp)) / 86400 == 30)%Q /\
  @is_recent ascii_only (zone_timelib 7200) boundary_clock boundary_entry 30 = Ret false /\
  @is_recent ascii_only (zone_timelib 0) boundary_clock boundary_entry 30 = Ret true.
Proof. repeat split; vm_compute; reflexivity. Qed.

(** * Further properties of the scripts *)

(** ** Stripping, splitting and joining *)

Section MoreTextFacts.

Lemma lstrip_by_split p s :
  exists w, s = w ++ lstrip_by p s /\ Forall (fun c => p c = true) w.
Proof.
  induction s as [|c s (w & Hs & Hw)]; simpl.
  - exists []. split; [reflexivity | constructor].
  - destruct (p c) eqn:E.
    + exists (c :: w). split; [simpl; congruence | constructor; assumption].
    + exists []. split; [reflexivity | constructor].
Qed.

Lemma lstrip_by_first p s c s' : lstrip_by p s = c :: s' -> p c = false.
Proof.
  induction s as [|d s IH]; simpl; [discriminate|].
  destruct (p d) eqn:E; [assumption|]. intros H. inversion H; subst. assumption.
Qed.

Lemma rstrip_by_split p s :
  exists w, s = rstrip_by p s ++ w /\ Forall (fun c => p c = true) w.
Proof.
  unfold rstrip_by. destruct (lstrip_by_split p (rev s)) as (w & Hs & Hw).
  exists (rev w). split.
  - rewrite <- rev_app_distr, <- Hs, rev_involutive. reflexivity.
  - rewrite Forall_forall in *. intros c Hc. apply Hw.
    apply list_elem_of_In. apply in_rev. apply list_elem_of_In. assumption.
Qed.

Lemma rstrip_by_last_char p s s' c : rstrip_by p s = s' ++ [c] -> p c = false.
Proof.
  unfold rstrip_by. intros H.
  assert (E : lstrip_by p (rev s) = c :: rev s').
  { rewrite <- (rev_involutive (lstrip_by p (rev s))), H, rev_app_distr. reflexivity. }
  exact (lstrip_by_first _ _ _ _ E).
Qed.

(** What [strip] leaves: the text between a stripped prefix and a stripped
    suffix, neither starting nor ending with a stripped character. *)
Lemma strip_by_spec p s :
  (exists w1 w2, s = w1 ++ strip_by p s ++ w2 /\
     Forall (fun c => p c = true) w1 /\ Forall (fun c => p c = true) w2) /\
  trimmed p (strip_by p s).
Proof.
  unfold strip_by.
  destruct (lstrip_by_split p s) as (w1 & Hs1 & Hw1).
  destruct (rstrip_by_split p (lstrip_by p s)) as (w2 & Hs2 & Hw2).
  split.
  - exists w1, w2. split; [|auto]. rewrite <- Hs2. assumption.
  - split.
    + intros c s' E. rewrite E in Hs2. simpl in Hs2.
      apply (lstrip_by_first p s c ((s' ++ w2))). assumption.
    + intros s' c E. exact (rstrip_by_last_char _ _ _ _ E).
Qed.

Lemma trimmed_strip_by p s : trimmed p s -> strip_by p s = s.
Proof.
  intros [Hfirst Hlast]. destruct s as [|c s]; [reflexivity|].
  destruct (exists_last (l := c :: s)) as (s' & d & E); [discriminate|].
  pose proof (Hfirst c s eq_refl) as Hc. pose proof (Hlast s' d E) as Hd.
  destruct s' as [|c' s'].
  - inversion E; subst. apply strip_by_single. assumption.
  - inversion E; subst. apply strip_by_id; assumption.
Qed.

Lemma split_on_nonempty sep s : split_on sep s <> [].
Proof.
  destruct s as [|c s]; simpl; [discriminate|].
  destruct (c =? sep)%N; [discriminate|]. destruct (split_on sep s); discriminate.
Qed.

Lemma split_on_cons_other sep c s :
  c <> sep ->
  exists w ws, split_on sep s = w :: ws /\ split_on sep (c :: s) = (c :: w) :: ws.
Proof.
  intros Hc. simpl. destruct (c =? sep)%N eqn:E; [apply N.eqb_eq in E; contradiction|].
  destruct (split_on sep s) as [|w ws] eqn:Es; [exfalso; exact (split_on_nonempty _ _ Es)|].
  eauto.
Qed.

Lemma split_on_no_sep sep s w : w ∈ split_on sep s -> sep ∉ w.
Proof.
  revert w. induction s as [|c s IH]; simpl; intros w Hw.
  - apply list_elem_of_singleton in Hw. subst. set_solver.
  - destruct (c =? sep)%N eqn:E.
    + apply elem_of_cons in Hw as [->|Hw]; [set_solver | auto].
    + apply N.eqb_neq in E.
      destruct (split_on sep s) as [|w0 ws]; [apply list_elem_of_singleton in Hw; subst; set_solver|].
      apply elem_of_cons in Hw as [->|Hw].
      * assert (sep ∉ w0) by (apply IH; left). set_solver.
      * apply IH. right. assumption.
Qed.

Lemma join_cons_char sep c w l : join sep ((c :: w) :: l) = c :: join sep (w :: l).
Proof. destruct l; reflexivity. Qed.

End MoreTextFacts.

(** ** URL helper and line splitting *)

Section UrlFacts.

Lemma make_absolute_nil href base_url : make_absolute href base_url = [] <-> href = [].
Proof.
  unfold make_absolute. destruct href as [|c href]; simpl; [tauto|].
  destruct (startswith (c :: href) (pystr "http")); [tauto|].
  split; [|discriminate]. intros E. apply app_eq_nil in E as [_ E]. discriminate.
Qed.

Lemma domain_starts_with_http base_url :
  startswith base_url (pystr "http") = true ->
  startswith (join [slash] (take 3 (split_on slash base_url))) (pystr "http") = true.
Proof.
  intros Hb. apply startswith_spec in Hb as [r ->].
  change (pystr "http" ++ r) with (104 :: 116 :: 116 :: 112 :: r)%N.
  destruct (split_on_cons_other slash 112%N r ltac:(discriminate)) as (w1 & ws1 & _ & E1).
  destruct (split_on_cons_other slash 116%N (112%N :: r) ltac:(discriminate))
    as (w2 & ws2 & E2 & E2').
  pose proof (eq_trans (eq_sym E1) E2) as X2. inversion X2; subst w2 ws2. clear X2 E2.
  destruct (split_on_cons_other slash 116%N (116 :: 112 :: r)%N ltac:(discriminate))
    as (w3 & ws3 & E3 & E3').
  pose proof (eq_trans (eq_sym E2') E3) as X3. inversion X3; subst w3 ws3. clear X3 E3.
  destruct (split_on_cons_other slash 104%N (116 :: 116 :: 112 :: r)%N ltac:(discriminate))
    as (w4 & ws4 & E4 & E4').
  pose proof (eq_trans (eq_sym E3') E4) as X4. inversion X4; subst w4 ws4. clear X4 E4.
  match goal with |- context [take 3 ?t] =>
    replace t with ((104 :: 116 :: 116 :: 112 :: w1)%N :: ws1) by (symmetry; exact E4') end.
  simpl take. rewrite !join_cons_char. reflexivity.
Qed.

Lemma make_absolute_http href base_url :
  startswith base_url (pystr "http") = true ->
  make_absolute href base_url = [] \/
  startswith (make_absolute href base_url) (pystr "http") = true.
Proof.
  intros Hb. unfold make_absolute. destruct (nonempty href); simpl; [|left; reflexivity].
  destruct (startswith href (pystr "http")) eqn:Hs; [right; assumption|].
  right. apply startswith_spec.
  apply domain_starts_with_http, startswith_spec in Hb as [r ->].
  exists (r ++ href). rewrite <- !app_assoc. reflexivity.
Qed.

End UrlFacts.

Section PieceFacts.

Lemma split_on_piece sep w : sep ∉ w -> split_on sep w = [w].
Proof.
  induction w as [|c w IH]; intros Hw; [reflexivity|].
  simpl. destruct (c =? sep)%N eqn:E; [apply N.eqb_eq in E; subst; set_solver|].
  rewrite IH by set_solver. reflexivity.
Qed.

Lemma split_on_piece_sep sep w s :
  sep ∉ w -> split_on sep (w ++ sep :: s) = w :: split_on sep s.
Proof.
  induction w as [|c w IH]; intros Hw.
  - simpl. rewrite N.eqb_refl. reflexivity.
  - simpl. destruct (c =? sep)%N eqn:E; [apply N.eqb_eq in E; subst; set_solver|].
    rewrite IH by set_solver. reflexivity.
Qed.

(** Pieces without the separator, joined by it, split into the pieces
    again. *)
Lemma split_on_join sep pieces :
  pieces <> [] -> Forall (fun w => sep ∉ w) pieces ->
  split_on sep (join [sep] pieces) = pieces.
Proof.
  induction pieces as [|w pieces IH]; intros Hne Hall; [contradiction|].
  apply Forall_cons in Hall as [Hw Hall].
  destruct pieces as [|w' pieces]; [apply split_on_piece; exact Hw|].
  change (join [sep] (w :: w' :: pieces)) with (w ++ sep :: join [sep] (w' :: pieces)).
  rewrite split_on_piece_sep by exact Hw. rewrite IH; [reflexivity | discriminate | exact Hall].
Qed.

End PieceFacts.

(** X1.  [make_absolute] returns the empty string exactly for an empty
    href and returns an href that starts with "http" as it is.  For any
    other href, and a base URL that is made of pieces without a slash,
    joined by slashes, it returns the first three of these pieces joined by
    slashes, followed by the href: "/jobs/1" on the Himalayas URL gives
    "https://himalayas.app/jobs/1". *)
Theorem make_absolute_cases (href base_url : str) :
  (make_absolute href base_url = [] <-> href = []) /\
  (startswith href (pystr "http") = true -> make_absolute href base_url = href) /\
  (href <> [] -> startswith href (pystr "http") = false ->
   forall pieces,
     pieces <> [] -> Forall (fun w => slash ∉ w) pieces ->
     base_url = join [slash] pieces ->
     make_absolute href base_url = join [slash] (take 3 pieces) ++ href) /\
  make_absolute (pystr "/jobs/1") (pystr "https://himalayas.app/jobs/engineering")
  = pystr "https://himalayas.app/jobs/1".
Proof.
  split; [apply make_absolute_nil|]. split; [|split; [|reflexivity]].
  - intros Hs. unfold make_absolute. rewrite Hs.
    destruct href; [discriminate Hs | reflexivity].
  - intros Hne Hs pieces Hp Hall ->. unfold make_absolute. rewrite Hs.
    apply nonempty_true in Hne. rewrite Hne. simpl.
    rewrite split_on_join by assumption. reflexivity.
Qed.

(** X2.  For a base URL that starts with "http", the result of
    [make_absolute] is empty or starts with "http" itself, and applying
    [make_absolute] to it again changes nothing. *)
Theorem make_absolute_idempotent (href base_url : str) :
  startswith base_url (pystr "http") = true ->
  (make_absolute href base_url = [] \/
   startswith (make_absolute href base_url) (pystr "http") = true) /\
  make_absolute (make_absolute href base_url) base_url = make_absolute href base_url.
Proof.
  intros Hb.
  pose proof (make_absolute_http href base_url Hb) as Habs.
  split; [assumption|]. destruct Habs as [->|Hs]; [reflexivity|].
  generalize dependent (make_absolute href base_url). intros u Hu.
  unfold make_absolute. rewrite Hu. destruct u; [discriminate Hu | reflexivity].
Qed.

Lemma make_absolute_idempotent_witness :
  make_absolute (make_absolute (pystr "/jobs/acme/backend") himalayas_url) himalayas_url
  = make_absolute (pystr "/jobs/acme/backend") himalayas_url.
Proof.
  refine (proj2 (make_absolute_idempotent (pystr "/jobs/acme/backend") himalayas_url _)).
  vm_compute. reflexivity.
Defined.

Lemma nonblank_line_clean `{U : Unicode} (text line : str) :
  line ∈ nonblank_lines text ->
  line <> [] /\ trimmed is_space line /\ newline ∉ line.
Proof.
  intros Hline. unfold nonblank_lines in Hline.
  apply list_elem_of_In, filter_In in Hline as [Hin Hne].
  apply in_map_iff in Hin as (w & <- & Hw). apply list_elem_of_In in Hw.
  split; [apply nonempty_true; assumption|].
  destruct (strip_by_spec is_space w) as [(w1 & w2 & Hsplit & _) Htrim].
  split; [exact Htrim|].
  pose proof (split_on_no_sep _ _ _ Hw) as Hno. intros Hin. apply Hno.
  rewrite Hsplit. apply elem_of_app. right. apply elem_of_app. left. assumption.
Qed.

(** X3.  Every line that [nonblank_lines] returns is non-empty, has no
    white space at either end, and holds no newline. *)
Theorem nonblank_lines_are_clean `{U : Unicode} (text : str) :
  Forall (fun line => line <> [] /\ trimmed is_space line /\ newline ∉ line)
         (nonblank_lines text).
Proof.
  rewrite Forall_forall. intros line Hline. apply (nonblank_line_clean text). exact Hline.
Qed.

(** ** Shape of the listings of the page-based adapters *)

Section ShapeFacts.
Context `{U : Unicode}.

Lemma extract_salary_dollar text : extract_salary text = [] \/ dollar ∈ extract_salary text.
Proof.
  unfold extract_salary. destruct (re_search salary_re text) as [[[pre m] post]|] eqn:E;
    [|left; reflexivity].
  apply re_search_some in E as (_ & Hm & _).
  apply salary_match_stripped in Hm as [Hd Hs]. right. rewrite Hs. exact Hd.
Qed.

Lemma length_take_le {A} n (l : list A) : length (take n l) <= n.
Proof. rewrite length_take. lia. Qed.

Lemma scrape_board_cards_length board cards : forall seen,
  length (scrape_board_cards board seen cards) <= length cards.
Proof.
  induction cards as [|card cards IH]; intros seen; simpl; [lia|].
  destruct (scrape_board_card board seen card) as [[seen' [job|]]|]; simpl;
    [specialize (IH seen') | specialize (IH seen') | specialize (IH seen)]; lia.
Qed.

Lemma scrape_board_card_shape board seen card seen' job :
  scrape_board_card board seen card = Ret (seen', Some job) -> board_listing board job.
Proof.
  unfold scrape_board_card.
  destruct (inner_text card) as [text|]; simpl; [|raised].
  destruct (_ || _); [raised|].
  destruct (query_selector card _) as [link_el|]; simpl; [|raised].
  match goal with |- context [mbind _ ?m] => destruct m as [lnk|] end;
    simpl; [|raised].
  destruct (nonblank_lines _) as [|first more] eqn:El; [raised|].
  destruct (bool_decide _ || _) eqn:E; [raised|].
  intros H; inversion H; subst; simpl. clear H.
  unfold board_listing. simpl. repeat split; try reflexivity.
  - apply length_take_le.
  - assert (Hin : first ∈ nonblank_lines (strip text)) by (rewrite El; left).
    unfold nonblank_lines in Hin.
    apply list_elem_of_In, filter_In in Hin as [Hin _].
    apply in_map_iff in Hin as (w & <- & Hw). apply list_elem_of_In in Hw.
    destruct (strip_by_spec is_space w) as [(w1 & w2 & Hsplit & _) _].
    pose proof (split_on_no_sep _ _ _ Hw) as Hno. intros Hin. apply Hno.
    rewrite Hsplit. apply elem_of_app. right. apply elem_of_app. left.
    rewrite <- (take_drop 120 (strip_by is_space w)). apply elem_of_app. left. exact Hin.
  - apply extract_salary_dollar.
Qed.

Lemma scrape_board_cards_shape board cards : forall seen,
  Forall (board_listing board) (scrape_board_cards board seen cards).
Proof.
  induction cards as [|card cards IH]; intros seen; simpl; [constructor|].
  destruct (scrape_board_card board seen card) as [[seen' [job|]]|] eqn:E; auto.
  constructor; [|apply IH]. eapply scrape_board_card_shape; eassumption.
Qed.

End ShapeFacts.

(** X4.  [scrape_board] returns at most 60 listings, and each has a title
    of at most 120 characters without a newline, no company and no
    description, the name of the board as its source, and a salary that is
    empty or holds a dollar sign. *)
Theorem scrape_board_listings `{U : Unicode} (browser : Browser) (board : Board) :
  length (scrape_board browser board) <= 60 /\
  Forall (board_listing board) (scrape_board browser board).
Proof.
  unfold scrape_board.
  destruct (browser (board_url board)) as [page|]; simpl; [|split; [lia | constructor]].
  destruct (page_query_selector_all page card_selector) as [cards|]; simpl;
    [|split; [lia | constructor]].
  split; [|apply scrape_board_cards_shape].
  pose proof (scrape_board_cards_length board (take 60 cards) ∅) as Hlen.
  pose proof (length_take_le 60 cards). lia.
Qed.

(** X5.  For a board URL that reads scheme, two slashes, host, the link that
    [scrape_board] builds inline for a card is the one that [make_absolute]
    of [job_agent_2.py] returns for the same href and URL. *)
Theorem scrape_board_link_agrees `{U : Unicode} (board : Board) (seen seen' : gset str)
    (card a : Element) (h : option str) (job : Job) (scheme host : str) (rest : list str) :
  split_on slash (board_url board) = scheme :: [] :: host :: rest ->
  query_selector card (pystr "a") = Ret (Some a) ->
  get_attribute a (pystr "href") = Ret h ->
  scrape_board_card board seen card = Ret (seen', Some job) ->
  link job = make_absolute (or_empty h) (board_url board).
Proof.
  intros Hurl Ha Hh. unfold scrape_board_card.
  destruct (inner_text card) as [text|]; simpl; [|raised].
  destruct (_ || _); [raised|].
  rewrite Ha. simpl. rewrite Hh. simpl. rewrite Hurl. unfold index. simpl.
  assert (Hlink : forall l, l = (if nonempty (or_empty h) &&
                                     negb (startswith (or_empty h) (pystr "http"))
                                  then (scheme ++ pystr "//" ++ host) ++ or_empty h
                                  else or_empty h) ->
                  l = make_absolute (or_empty h) (board_url board)).
  { intros l ->. unfold make_absolute. rewrite Hurl.
    destruct (nonempty (or_empty h)) eqn:Hne; simpl.
    - destruct (startswith (or_empty h) (pystr "http")); simpl; [reflexivity|].
      rewrite <- !app_assoc. reflexivity.
    - destruct (or_empty h); [reflexivity | discriminate Hne]. }
  destruct (nonempty (or_empty h) && negb (startswith (or_empty h) (pystr "http")));
    simpl; (destruct (nonblank_lines _) as [|first more]; [raised|]);
    (destruct (bool_decide _ || _); [raised|]);
    intros H; inversion H; subst; simpl; apply Hlink; reflexivity.
Qed.

Lemma scrape_board_link_agrees_witness :
  exists seen' job,
    @scrape_board_card ascii_only example_board ∅ example_card = Ret (seen', Some job) /\
    link job = pystr "https://example.com/jobs/1".
Proof.
  destruct (@scrape_board_card ascii_only example_board ∅ example_card)
    as [[seen' [job|]]|] eqn:E.
  - exists seen', job. split; [reflexivity|].
    rewrite (@scrape_board_link_agrees ascii_only example_board ∅ seen' example_card
               (El Raised (fun _ => Ret (Some (pystr "/jobs/1"))) (fun _ => Raised))
               (Some (pystr "/jobs/1")) job (pystr "https:") (pystr "example.com")
               [pystr "jobs"] eq_refl eq_refl eq_refl E).
    reflexivity.
  - exfalso. vm_compute in E. discriminate E.
  - exfalso. vm_compute in E. discriminate E.
Defined.

Section ShapeFacts2.
Context `{U : Unicode}.

Lemma himalayas_url_http : startswith himalayas_url (pystr "http") = true.
Proof. reflexivity. Qed.

Lemma workingnomads_url_http : startswith workingnomads_url (pystr "http") = true.
Proof. reflexivity. Qed.

Lemma scrape_himalayas_item_shape seen item seen' job :
  scrape_himalayas_item seen item = (seen', Some job) ->
  startswith (link job) (pystr "http") = true /\
  (exists c, company job = Some c) /\ description job = None /\
  source job = himalayas_source /\ trimmed is_space (title job).
Proof.
  unfold scrape_himalayas_item.
  destruct (get_attribute item _) as [h|]; [|raised].
  destruct (_ <? 2) eqn:Hparts; [raised|].
  destruct (bool_decide _); [raised|].
  destruct (inner_text item) as [t|]; [|raised].
  destruct (nonblank_lines _) as [|first more] eqn:El; [raised|].
  intros H; inversion H; subst; simpl. clear H.
  split; [|split; [eauto|]].
  - destruct (make_absolute_http (or_empty h) himalayas_url himalayas_url_http) as [E|E];
      [|exact E].
    apply make_absolute_nil in E. rewrite E in Hparts. discriminate Hparts.
  - split; [reflexivity|]. split; [reflexivity|].
    apply (nonblank_line_clean (strip t)). rewrite El. left.
Qed.

End ShapeFacts2.

Section ShapeFacts3.
Context `{U : Unicode}.

Lemma scrape_himalayas_items_shape items : forall seen,
  Forall (fun job =>
            startswith (link job) (pystr "http") = true /\
            (exists c, company job = Some c) /\ description job = None /\
            source job = himalayas_source /\ trimmed is_space (title job))
         (scrape_himalayas_items seen items).
Proof.
  induction items as [|item items IH]; intros seen; simpl; [constructor|].
  destruct (scrape_himalayas_item seen item) as [seen' [job|]] eqn:E; [|apply IH].
  constructor; [|apply IH]. eapply scrape_himalayas_item_shape; eassumption.
Qed.

Lemma text_of_optional_trimmed el s :
  text_of_optional el = Ret s -> trimmed is_space s.
Proof.
  destruct el as [e|]; simpl.
  - destruct (inner_text e) as [t|]; simpl; [|raised].
    intros H; inversion H. apply strip_by_spec.
  - intros H; inversion H. split; intros ? ? E; [discriminate E|].
    destruct s'; discriminate E.
Qed.

Lemma scrape_workingnomads_item_shape item job :
  scrape_workingnomads_item item = Ret (Some job) ->
  (link job = [] \/ startswith (link job) (pystr "http") = true) /\
  company job = Some (summary job) /\ description job = None /\
  source job = workingnomads_source /\
  trimmed is_space (title job) /\ trimmed is_space (summary job) /\
  trimmed is_space (salary job).
Proof.
  unfold scrape_workingnomads_item.
  destruct (query_selector item (pystr "a.job-title, h2 a, h3 a")) as [[title_el|]|];
    simpl; try raised.
  destruct (inner_text title_el) as [t|]; simpl; [|raised].
  destruct (get_attribute title_el _) as [h|]; simpl; [|raised].
  destruct (query_selector item (pystr ".company, [class*='company']")) as [company_el|];
    simpl; [|raised].
  destruct (query_selector item (pystr "[class*='salary']")) as [salary_el|];
    simpl; [|raised].
  destruct (text_of_optional company_el) as [company|] eqn:Ec; simpl; [|raised].
  destruct (text_of_optional salary_el) as [salary|] eqn:Es; simpl; [|raised].
  destruct (nonempty (strip t)) eqn:E; simpl; [|raised].
  intros H. inversion H; subst; simpl. clear H.
  split; [apply make_absolute_http, workingnomads_url_http|].
  repeat (split; [reflexivity|]).
  split; [apply strip_by_spec|].
  split; eapply text_of_optional_trimmed; eassumption.
Qed.

End ShapeFacts3.

(** X6.  Every listing of [scrape_himalayas] has a link that starts with
    "http" (so none is empty), a company, no description, the source
    "Himalayas", and a title without white space at either end. *)
Theorem scrape_himalayas_listings `{U : Unicode} (browser : Browser) :
  Forall (fun job =>
            startswith (link job) (pystr "http") = true /\
            (exists c, company job = Some c) /\ description job = None /\
            source job = himalayas_source /\ trimmed is_space (title job))
         (scrape_himalayas browser).
Proof.
  unfold scrape_himalayas.
  destruct (browser himalayas_url) as [page|]; simpl; [|constructor].
  destruct (page_query_selector_all page _) as [items|]; simpl; [|constructor].
  apply scrape_himalayas_items_shape.
Qed.

(** X7.  Every listing of [scrape_workingnomads] has a link that is empty
    or starts with "http", the company text also as its summary, no
    description, the source "Working Nomads", and a title, company and
    salary without white space at either end. *)
Theorem scrape_workingnomads_listings `{U : Unicode} (browser : Browser) :
  Forall (fun job =>
            (link job = [] \/ startswith (link job) (pystr "http") = true) /\
            company job = Some (summary job) /\ description job = None /\
            source job = workingnomads_source /\
            trimmed is_space (title job) /\ trimmed is_space (summary job) /\
            trimmed is_space (salary job))
         (scrape_workingnomads browser).
Proof.
  unfold scrape_workingnomads.
  destruct (browser workingnomads_url) as [page|]; simpl; [|constructor].
  destruct (page_query_selector_all page _) as [items|]; simpl; [|constructor].
  induction items as [|item items IH]; simpl; [constructor|].
  destruct (scrape_workingnomads_item item) as [[job|]|] eqn:E; try assumption.
  constructor; [|assumption]. eapply scrape_workingnomads_item_shape; eassumption.
Qed.

(** ** Normaliser: composition *)

Section DedupFacts2.

Lemma fold_dedup_from l : forall seen acc,
  snd (fold_left dedup_step l (seen, acc)) = acc ++ dedup_from seen l.
Proof.
  induction l as [|job l IH]; intros seen acc; simpl; [rewrite app_nil_r; reflexivity|].
  destruct (nonempty (link job) && bool_decide (link job ∉ seen)).
  - rewrite IH, <- app_assoc. reflexivity.
  - apply IH.
Qed.

Lemma dedup_by_link_from l : dedup_by_link l = dedup_from ∅ l.
Proof. unfold dedup_by_link. rewrite fold_dedup_from. reflexivity. Qed.

Lemma seen_links_cons job l :
  seen_links (job :: l)
  = if nonempty (link job) then {[link job]} ∪ seen_links l else seen_links l.
Proof. unfold seen_links. simpl. destruct (nonempty (link job)); reflexivity. Qed.

Lemma elem_of_seen_links k l :
  k ∈ seen_links l <-> k <> [] /\ exists job, job ∈ l /\ link job = k.
Proof.
  induction l as [|job l IH].
  - unfold seen_links. simpl. split; [set_solver|]. intros (_ & j & Hj & _). inversion Hj.
  - rewrite seen_links_cons. destruct (nonempty (link job)) eqn:Hne.
    + rewrite elem_of_union, IH, elem_of_singleton. apply nonempty_true in Hne. split.
      * intros [->|(Hk & j & Hj & E)]; (split; [assumption|]).
        -- exists job. split; [left | reflexivity].
        -- exists j. split; [right; assumption | assumption].
      * intros (Hk & j & Hj & E). apply elem_of_cons in Hj as [->|Hj]; [left; auto|].
        right. eauto.
    + rewrite IH. split.
      * intros (Hk & j & Hj & E). split; [assumption|]. exists j. split; [right|]; assumption.
      * intros (Hk & j & Hj & E). split; [assumption|].
        apply elem_of_cons in Hj as [->|Hj]; [|eauto].
        exfalso. apply nonempty_true in Hk. congruence.
Qed.

Lemma dedup_from_app a : forall seen b,
  dedup_from seen (a ++ b) = dedup_from seen a ++ dedup_from (seen ∪ seen_links a) b.
Proof.
  induction a as [|job a IH]; intros seen b.
  - simpl. replace (seen ∪ seen_links []) with seen; [reflexivity|].
    unfold seen_links. simpl. set_solver.
  - simpl. rewrite seen_links_cons.
    destruct (nonempty (link job)) eqn:Hne; simpl.
    + destruct (bool_decide (link job ∉ seen)) eqn:Hseen.
      * rewrite IH. simpl. do 3 f_equal. set_solver.
      * rewrite IH. do 2 f_equal. apply bool_decide_eq_false in Hseen.
        assert (link job ∈ seen) by (destruct (decide (link job ∈ seen)); tauto).
        set_solver.
    + apply IH.
Qed.

Lemma dedup_from_out l : forall seen,
  NoDup (link <$> dedup_from seen l) /\
  Forall (fun job => link job <> [] /\ link job ∉ seen) (dedup_from seen l).
Proof.
  induction l as [|job l IH]; intros seen; simpl; [split; constructor|].
  destruct (nonempty (link job) && bool_decide (link job ∉ seen)) eqn:Hkeep; [|apply IH].
  apply andb_true_iff in Hkeep as [Hne Hseen].
  apply nonempty_true in Hne. apply bool_decide_eq_true in Hseen.
  destruct (IH ({[link job]} ∪ seen)) as [Hnodup Hall]. split.
  - simpl. constructor; [|assumption]. intros Hin.
    apply list_elem_of_fmap in Hin as (j & E & Hj).
    rewrite Forall_forall in Hall. apply Hall in Hj as [_ Hj]. set_solver.
  - constructor; [auto|]. eapply Forall_impl; [exact Hall|].
    intros j [? ?]. split; [assumption | set_solver].
Qed.

Lemma dedup_from_fixed l : forall seen,
  NoDup (link <$> l) ->
  Forall (fun job => link job <> [] /\ link job ∉ seen) l ->
  dedup_from seen l = l.
Proof.
  induction l as [|job l IH]; intros seen Hnodup Hall; simpl; [reflexivity|].
  apply Forall_cons in Hall as [[Hne Hseen] Hall].
  rewrite fmap_cons in Hnodup. apply NoDup_cons in Hnodup as [Hfirst Hnodup].
  apply nonempty_true in Hne. rewrite Hne. rewrite bool_decide_eq_true_2 by assumption.
  simpl. f_equal. apply IH; [assumption|].
  rewrite Forall_forall in *. intros j Hj. destruct (Hall j Hj) as [? ?].
  split; [assumption|]. intros Hin. apply elem_of_union in Hin as [Hin|Hin]; [|tauto].
  apply elem_of_singleton in Hin. apply Hfirst. rewrite <- Hin.
  apply list_elem_of_fmap. eauto.
Qed.

Lemma dedup_from_filter (f : Job -> bool) (s1 : gset str) :
  (forall job, link job <> [] -> (f job = true <-> link job ∉ s1)) ->
  forall b s2, dedup_from (s1 ∪ s2) b = dedup_from s2 (List.filter f b).
Proof.
  intros Hf. induction b as [|job b IH]; intros s2; simpl; [reflexivity|].
  destruct (nonempty (link job)) eqn:Hne; simpl.
  - apply nonempty_true in Hne. specialize (Hf job Hne).
    destruct (f job) eqn:Efj.
    + assert (Hs1 : link job ∉ s1) by (apply Hf; reflexivity).
      simpl. apply nonempty_true in Hne. rewrite Hne. simpl.
      destruct (decide (link job ∈ s2)) as [Hin|Hout].
      * rewrite !bool_decide_eq_false_2 by set_solver. apply IH.
      * rewrite !bool_decide_eq_true_2 by set_solver. f_equal.
        rewrite <- IH. f_equal. set_solver.
    + assert (Hs1 : link job ∈ s1).
      { destruct (decide (link job ∈ s1)); [assumption|].
        assert (false = true) by (apply Hf; assumption). discriminate. }
      rewrite bool_decide_eq_false_2 by set_solver. apply IH.
  - destruct (f job); simpl; [rewrite Hne; simpl|]; apply IH.
Qed.

Lemma link_unseen_in_spec a job :
  link job <> [] -> (link_unseen_in a job = true <-> link job ∉ seen_links a).
Proof.
  intros Hne. unfold link_unseen_in. rewrite forallb_forall, elem_of_seen_links. split.
  - intros Hall (_ & j & Hj & E). apply list_elem_of_In, Hall in Hj.
    rewrite bool_decide_eq_true_2 in Hj by assumption. discriminate Hj.
  - intros Hno j Hj. apply negb_true_iff, bool_decide_eq_false. intros E.
    apply Hno. split; [assumption|]. exists j. split; [apply list_elem_of_In|]; assumption.
Qed.

End DedupFacts2.

(** X8.  The normaliser leaves a sequence as it is exactly when no link in
    it is empty and no two listings share a link; so running it on its own
    output changes nothing. *)
Theorem dedup_by_link_fixed_points (all_jobs : list Job) :
  (dedup_by_link all_jobs = all_jobs <->
   NoDup (link <$> all_jobs) /\ Forall (fun job => link job <> []) all_jobs) /\
  dedup_by_link (dedup_by_link all_jobs) = dedup_by_link all_jobs.
Proof.
  assert (Hfix : forall l, NoDup (link <$> l) -> Forall (fun job => link job <> []) l ->
                           dedup_by_link l = l).
  { intros l Hnodup Hall. rewrite dedup_by_link_from. apply dedup_from_fixed; [assumption|].
    eapply Forall_impl; [exact Hall|]. intros j Hj. split; [assumption | set_solver]. }
  assert (Hout : NoDup (link <$> dedup_by_link all_jobs) /\
                 Forall (fun job => link job <> []) (dedup_by_link all_jobs)).
  { rewrite dedup_by_link_from. destruct (dedup_from_out all_jobs ∅) as [Hnodup Hall].
    split; [assumption|]. eapply Forall_impl; [exact Hall|]. intros j [? _]. assumption. }
  split; [split|].
  - intros E. rewrite E in Hout. exact Hout.
  - intros [Hnodup Hall]. apply Hfix; assumption.
  - apply Hfix; apply Hout.
Qed.

(** X9.  Normalising two sequences one after the other gives the normalised
    first sequence, followed by the normalised listings of the second whose
    link no listing of the first carries.  So in [scrape_all_boards] the
    We Work Remotely listings are judged on their own and stand first. *)
Theorem dedup_by_link_app (a b : list Job) (remotive himalayas workingnomads : list Job) :
  dedup_by_link (a ++ b)
  = dedup_by_link a ++ dedup_by_link (List.filter (link_unseen_in a) b) /\
  scrape_all_boards a remotive himalayas workingnomads
  = dedup_by_link a ++
    dedup_by_link (List.filter (link_unseen_in a) (remotive ++ himalayas ++ workingnomads)).
Proof.
  assert (Happ : forall b',
            dedup_by_link (a ++ b')
            = dedup_by_link a ++ dedup_by_link (List.filter (link_unseen_in a) b')).
  { intros b'. rewrite !dedup_by_link_from, dedup_from_app. f_equal.
    replace (∅ ∪ seen_links a) with (seen_links a ∪ ∅) by set_solver.
    apply dedup_from_filter. intros job. apply link_unseen_in_spec. }
  split; [|unfold scrape_all_boards]; apply Happ.
Qed.

(** ** Feed-based adapters *)

Section PartitionFacts.

Lemma str_partition_spec sep s : forall b f r,
  sep <> [] -> str_partition sep s = (b, f, r) ->
  (forall k, k < length b -> startswith (drop k s) sep = false) /\
  ((f = sep /\ s = b ++ sep ++ r) \/
   (f = [] /\ r = [] /\ b = s /\ forall k, startswith (drop k s) sep = false)).
Proof.
  induction s as [|c s IH]; intros b f r Hsep.
  - destruct sep as [|a sep]; [contradiction|]. simpl. intros E. inversion E; subst.
    split; [simpl; intros; lia|]. right. repeat split. intros k. rewrite drop_nil. reflexivity.
  - cbn [str_partition]. destruct (strip_prefix sep (c :: s)) as [rest|] eqn:Ep.
    + intros E. inversion E; subst. split; [simpl; intros; lia|].
      left. split; [reflexivity|]. apply strip_prefix_spec in Ep. exact Ep.
    + destruct (str_partition sep s) as [[b' f'] r'] eqn:Es.
      intros E. inversion E; subst. clear E.
      destruct (IH b' f r Hsep eq_refl) as [Hfirst Hcase].
      assert (H0 : startswith (c :: s) sep = false) by (unfold startswith; rewrite Ep; reflexivity).
      split.
      * intros [|k] Hk; [exact H0|]. simpl in *. apply Hfirst. lia.
      * destruct Hcase as [[-> ->]|(-> & -> & -> & Hnone)].
        -- left. split; reflexivity.
        -- right. repeat split. intros [|k]; [exact H0 | apply Hnone].
Qed.

Lemma wwr_title_split_spec title company job_title :
  wwr_title_split title = (company, job_title) ->
  (job_title <> [] /\ title = company ++ pystr ": " ++ job_title /\
   forall k, k < length company -> startswith (drop k title) (pystr ": ") = false) \/
  (company = [] /\ job_title = title /\
   forall k, startswith (drop k title) (pystr ": ") = true -> drop k title = pystr ": ").
Proof.
  unfold wwr_title_split.
  destruct (str_partition (pystr ": ") title) as [[b f] r] eqn:Ep.
  apply str_partition_spec in Ep as [Hfirst Hcase]; [|discriminate].
  destruct (nonempty r) eqn:Hr; intros E; inversion E; subst; clear E.
  - left. apply nonempty_true in Hr. split; [assumption|].
    destruct Hcase as [[_ ->]|(_ & -> & _)]; [|contradiction]. split; [reflexivity|].
    exact Hfirst.
  - right. split; [reflexivity|]. split; [reflexivity|]. intros k Hk.
    destruct Hcase as [[_ Ht]|(_ & _ & _ & Hnone)]; [|rewrite Hnone in Hk; discriminate Hk].
    destruct r; [|discriminate Hr]. subst job_title.
    destruct (Nat.lt_ge_cases k (length b)) as [Hlt|Hge];
      [rewrite (Hfirst k Hlt) in Hk; discriminate Hk|].
    rewrite app_nil_r in *. rewrite drop_app_ge in * by assumption.
    destruct (k - length b) as [|[|n]]; [reflexivity | vm_compute in Hk; discriminate Hk |].
    change (drop (S (S n)) (pystr ": ")) with (drop n (@nil char)) in Hk.
    rewrite drop_nil in Hk. discriminate Hk.
Qed.

End PartitionFacts.

(** X10.  [wwr_title_split] either cuts the title at the first ": " that has
    text after it, so that company, ": " and job title make up the title
    again; or, when every ": " of the title stands at its very end, returns
    the whole title with an empty company.  The job title is empty only for
    an empty title. *)
Theorem wwr_title_split_round_trip (title : str) :
  let '(company, job_title) := wwr_title_split title in
  (job_title = [] <-> title = []) /\
  ((job_title <> [] /\ title = company ++ pystr ": " ++ job_title /\
    forall k, k < length company -> startswith (drop k title) (pystr ": ") = false) \/
   (company = [] /\ job_title = title /\
    forall k, startswith (drop k title) (pystr ": ") = true -> drop k title = pystr ": ")).
Proof.
  destruct (wwr_title_split title) as [company job_title] eqn:E.
  pose proof (wwr_title_split_spec _ _ _ E) as Hspec. split; [|exact Hspec].
  destruct Hspec as [(Hne & Ht & _)|(_ & -> & _)]; [|tauto].
  split; [contradiction|]. intros ->. destruct company; discriminate Ht.
Qed.

Section FeedFacts.
Context `{U : Unicode} `{T : TimeLib} `{Hl : HtmlLib}.

Lemma length_strip_by_le p s : length (strip_by p s) <= length s.
Proof.
  destruct (strip_by_spec p s) as [(w1 & w2 & Hs & _) _].
  rewrite Hs at 2. rewrite !length_app. lia.
Qed.

Lemma trimmed_nil p : trimmed p [].
Proof.
  split; intros ? ? E; [discriminate E|]. destruct s'; discriminate E.
Qed.

(** A non-empty end of a trimmed text is not all white space. *)
Lemma strip_by_suffix_nonempty p t pre j :
  trimmed p t -> t = pre ++ j -> j <> [] -> strip_by p j <> [].
Proof.
  intros [_ Hlast] Ht Hj Hstrip.
  destruct (exists_last Hj) as (j' & c & ->).
  assert (Hc : p c = false) by (apply (Hlast (pre ++ j') c); rewrite Ht, app_assoc; reflexivity).
  destruct (strip_by_spec p (j' ++ [c])) as [(w1 & w2 & Hs & Hw1 & Hw2) _].
  rewrite Hstrip in Hs. simpl in Hs.
  assert (Hall : Forall (fun c => p c = true) (j' ++ [c]))
    by (rewrite Hs; apply Forall_app; split; assumption).
  apply Forall_app in Hall as [_ Hall]. apply Forall_cons in Hall as [Hall _]. congruence.
Qed.

Lemma summary_shape text :
  let d := strip (take 2000 text) in length d <= 2000 /\ trimmed is_space d.
Proof.
  simpl. split; [|apply strip_by_spec].
  pose proof (length_strip_by_le is_space (take 2000 text)).
  pose proof (length_take_le 2000 text). unfold strip. lia.
Qed.

Lemma weworkremotely_entry_shape clock item job :
  weworkremotely_entry clock item = Ret (Some job) ->
  is_recent clock (item_entry item) 30 = Ret true /\
  link job = strip (or_empty (item_link item)) /\
  feed_listing weworkremotely_source job.
Proof.
  unfold weworkremotely_entry.
  destruct (is_recent clock (item_entry item) 30) as [[|]|]; simpl; try raised.
  destruct (wwr_title_split _) as [company job_title] eqn:Ew.
  destruct (get_text _) as [text|]; simpl; [|raised].
  destruct (nonempty job_title) eqn:Hj; simpl; [|raised].
  destruct (nonempty (strip (or_empty (item_link item)))) eqn:Hlink; simpl; [|raised].
  intros E. inversion E; subst; clear E. split; [reflexivity|]. split; [reflexivity|].
  unfold feed_listing. simpl. apply nonempty_true in Hj, Hlink.
  destruct (summary_shape text) as [Hlen Htrim].
  assert (Htitle : trimmed is_space (strip (or_empty (item_title item))))
    by apply strip_by_spec.
  split.
  { apply wwr_title_split_spec in Ew as [(_ & Ht & _)|(_ & Ht & _)].
    - apply (strip_by_suffix_nonempty is_space _ (company ++ pystr ": ") job_title Htitle);
        [rewrite <- app_assoc; exact Ht | assumption].
    - subst job_title. unfold strip at 1. rewrite trimmed_strip_by by assumption. assumption. }
  split; [apply strip_by_spec|]. split; [assumption|]. split; [apply strip_by_spec|].
  split; [eexists; split; [reflexivity|apply strip_by_spec]|].
  split; [reflexivity|]. eexists. repeat split; try reflexivity; try assumption; apply Htrim.
Qed.

Lemma remotive_entry_shape clock item job :
  remotive_entry clock item = Ret (Some job) ->
  is_recent clock (item_entry item) 30 = Ret true /\
  link job = strip (or_empty (item_link item)) /\
  feed_listing remotive_source job.
Proof.
  unfold remotive_entry.
  destruct (is_recent clock (item_entry item) 30) as [[|]|]; simpl; try raised.
  destruct (get_text _) as [text|]; simpl; [|raised].
  destruct (nonempty (strip (or_empty (item_title item)))) eqn:Hj; simpl; [|raised].
  destruct (nonempty (strip (or_empty (item_link item)))) eqn:Hlink; simpl; [|raised].
  intros E. inversion E; subst; clear E. split; [reflexivity|]. split; [reflexivity|].
  unfold feed_listing. simpl. apply nonempty_true in Hj, Hlink.
  destruct (summary_shape text) as [Hlen Htrim].
  split; [assumption|]. split; [apply strip_by_spec|].
  split; [assumption|]. split; [apply strip_by_spec|].
  split; [eexists; split; [reflexivity|apply strip_by_spec]|].
  split; [reflexivity|]. eexists. repeat split; try reflexivity; try assumption; apply Htrim.
Qed.

Lemma feed_entries_elem entry items job :
  job ∈ feed_entries entry items ->
  exists clock item, (clock, item) ∈ items /\ entry clock item = Ret (Some job).
Proof.
  induction items as [|[clock item] items IH]; simpl; intros Hj; [inversion Hj|].
  destruct (entry clock item) as [[job0|]|] eqn:E.
  - apply elem_of_cons in Hj as [->|Hj].
    + exists clock, item. split; [left | assumption].
    + destruct (IH Hj) as (c & i & Hin & Hi). exists c, i. split; [right|]; assumption.
  - destruct (IH Hj) as (c & i & Hin & Hi). exists c, i. split; [right|]; assumption.
  - inversion Hj.
Qed.

Lemma feed_entries_raise entry pre clock item post :
  entry clock item = Raised ->
  feed_entries entry (pre ++ (clock, item) :: post) = feed_entries entry pre.
Proof.
  intros Hr. induction pre as [|[c i] pre IH]; simpl.
  - rewrite Hr. reflexivity.
  - destruct (entry c i) as [[job|]|]; [f_equal; exact IH | exact IH | reflexivity].
Qed.

Lemma is_recent_mktime_raises clock entry days st :
  first_some (published_parsed entry) (updated_parsed entry) = Some st ->
  mktime st = Raised -> is_recent clock entry days = Raised.
Proof. intros Hst Hm. unfold is_recent. rewrite Hst, Hm. reflexivity. Qed.

End FeedFacts.

(** X11.  Every listing of the two feed adapters has the shape of a feed
    listing -- a non-empty title and link without white space at either
    end, a company, a description of at most 2000 characters, its first 300
    characters as summary, and the salary found in it -- and comes from an
    entry of the feed that [is_recent] judged recent, whose link it has. *)
Theorem feed_adapters_listings `{U : Unicode} `{T : TimeLib} `{Hl : HtmlLib}
    (feed : outcome (list (Clock * FeedItem))) :
  Forall (feed_listing weworkremotely_source) (scrape_weworkremotely_rss feed) /\
  Forall (feed_listing remotive_source) (scrape_remotive_rss feed) /\
  forall job,
    job ∈ scrape_weworkremotely_rss feed \/ job ∈ scrape_remotive_rss feed ->
    exists items clock item,
      feed = Ret items /\ (clock, item) ∈ items /\
      is_recent clock (item_entry item) 30 = Ret true /\
      link job = strip (or_empty (item_link item)).
Proof.
  destruct feed as [items|]; simpl;
    [|split; [constructor|split; [constructor|intros job [Hj|Hj]; inversion Hj]]].
  split; [|split].
  - rewrite Forall_forall. intros job Hj.
    apply feed_entries_elem in Hj as (c & i & _ & E).
    apply weworkremotely_entry_shape in E. apply E.
  - rewrite Forall_forall. intros job Hj.
    apply feed_entries_elem in Hj as (c & i & _ & E).
    apply remotive_entry_shape in E. apply E.
  - intros job [Hj|Hj]; apply feed_entries_elem in Hj as (c & i & Hin & E);
      exists items, c, i; (split; [reflexivity|]); (split; [assumption|]).
    + apply weworkremotely_entry_shape in E as (? & ? & _). auto.
    + apply remotive_entry_shape in E as (? & ? & _). auto.
Qed.

(** X12.  [is_recent] calls [mktime] outside any [try]: at an entry with a
    structured date on which [mktime] raises, the loop of either feed adapter
    ends, and the adapter returns the listings of the entries before it,
    whatever follows in the feed. *)
Theorem feed_adapters_stop_at_raise `{U : Unicode} `{T : TimeLib} `{Hl : HtmlLib}
    (pre post : list (Clock * FeedItem)) (clock : Clock) (item : FeedItem) (st : struct_time) :
  first_some (published_parsed (item_entry item)) (updated_parsed (item_entry item)) = Some st ->
  mktime st = Raised ->
  scrape_weworkremotely_rss (Ret (pre ++ (clock, item) :: post))
  = scrape_weworkremotely_rss (Ret pre) /\
  scrape_remotive_rss (Ret (pre ++ (clock, item) :: post)) = scrape_remotive_rss (Ret pre).
Proof.
  intros Hst Hm. pose proof (is_recent_mktime_raises clock _ 30 st Hst Hm) as Hr.
  split; simpl; apply feed_entries_raise.
  - unfold weworkremotely_entry. rewrite Hr. reflexivity.
  - unfold remotive_entry. rewrite Hr. reflexivity.
Qed.

Lemma feed_adapters_stop_at_raise_witness :
  @scrape_weworkremotely_rss ascii_only failing_timelib plain_html
     (Ret ([] ++ (example_clock, example_feed_item) :: [(example_clock, example_feed_item)]))
  = [].
Proof.
  refine (proj1 (@feed_adapters_stop_at_raise ascii_only failing_timelib plain_html
                   [] [(example_clock, example_feed_item)] example_clock example_feed_item
                   _ _ _)).
  - reflexivity.
  - reflexivity.
Defined.

(** ** Recency filter: the window and the raise *)

(** X13.  [is_recent] is monotone in the window: an entry that is judged
    recent for [days] days is judged recent for every longer window, on the
    same clock reading. *)
Theorem is_recent_monotone `{U : Unicode} `{T : TimeLib}
    (clock : Clock) (entry : FeedEntry) (days days' : Z) :
  (days <= days')%Z ->
  is_recent clock entry days = Ret true ->
  is_recent clock entry days' = Ret true.
Proof.
  intros Hle. unfold is_recent.
  destruct (first_some (published_parsed entry) (updated_parsed entry)) as [st|].
  - destruct (mktime st) as [t|]; simpl; [|raised].
    intros E. inversion E as [Hq]. rewrite Hq. f_equal.
    apply Qle_bool_iff. apply Qle_bool_iff in Hq.
    eapply Qle_trans; [exact Hq|]. rewrite <- Zle_Qle. exact Hle.
  - destruct (nonempty (raw_date entry)).
    + destruct (parsedate_to_datetime (raw_date entry)) as [parsed|].
      * intros E. inversion E as [Hq]. rewrite Hq. f_equal.
        apply Z.leb_le. apply Z.leb_le in Hq. lia.
      * destruct (date_in_body _) as [parsed|]; [|reflexivity].
        intros E. inversion E as [Hq]. rewrite Hq. f_equal.
        apply Z.leb_le. apply Z.leb_le in Hq. lia.
    + destruct (date_in_body _) as [parsed|]; [|reflexivity].
      intros E. inversion E as [Hq]. rewrite Hq. f_equal.
      apply Z.leb_le. apply Z.leb_le in Hq. lia.
Qed.

Lemma is_recent_monotone_witness :
  @is_recent ascii_only example_timelib example_clock example_entry 45 = Ret true.
Proof.
  refine (@is_recent_monotone ascii_only example_timelib example_clock example_entry 30 45 _ _).
  - lia.
  - vm_compute. reflexivity.
Defined.

(** X14.  [is_recent] raises exactly when the entry has a structured date
    and [mktime] raises on it; a raise of either text parser is caught. *)
Theorem is_recent_raises_iff `{U : Unicode} `{T : TimeLib}
    (clock : Clock) (entry : FeedEntry) (days : Z) :
  is_recent clock entry days = Raised <->
  exists st,
    first_some (published_parsed entry) (updated_parsed entry) = Some st /\
    mktime st = Raised.
Proof.
  unfold is_recent.
  destruct (first_some (published_parsed entry) (updated_parsed entry)) as [st|].
  - destruct (mktime st) as [t|] eqn:Em; simpl.
    + split; [raised|]. intros (st' & E & Hm). inversion E; subst. congruence.
    + split; [|reflexivity]. intros _. exists st. auto.
  - split; [|intros (st & E & _); discriminate E].
    destruct (nonempty (raw_date entry));
      [destruct (parsedate_to_datetime (raw_date entry))|];
      try destruct (date_in_body _); raised.
Qed.

(** ** Detail fetcher: the length of a fetched description *)

Section BoundFacts.
Context `{U : Unicode}.

Lemma scan_elements_length els text :
  scan_elements els = Ret (Some text) -> 150 <= length text.
Proof.
  induction els as [|el els IH]; simpl; [raised|].
  destruct (inner_text el) as [t|]; simpl; [|raised].
  destruct (length (strip t) <? 150) eqn:El; [exact IH|].
  destruct (has_noise (strip t)); [exact IH|].
  intros E. inversion E; subst. apply Nat.ltb_ge in El. exact El.
Qed.

Lemma scan_selectors_length page selectors text :
  scan_selectors page selectors = Some text -> 150 <= length text.
Proof.
  induction selectors as [|selector selectors IH]; simpl; [raised|].
  destruct (page_query_selector_all page selector) as [els|]; simpl; [|exact IH].
  destruct (scan_elements els) as [[t|]|] eqn:Es; try exact IH.
  intros E. inversion E; subst. eapply scan_elements_length; eassumption.
Qed.

Lemma v1_scan_length page selectors text :
  v1_scan page selectors = Ret (Some text) -> 200 < length text.
Proof.
  induction selectors as [|selector selectors IH]; simpl; [raised|].
  destruct (page_query_selector page selector) as [[e|]|]; simpl; try raised; [|exact IH].
  destruct (inner_text e) as [t|]; simpl; [|raised].
  destruct (200 <? length (strip t)) eqn:El; [|exact IH].
  intros E. inversion E; subst. apply Nat.ltb_lt in El. exact El.
Qed.

Lemma length_take_3000 (text : str) n :
  n <= length text -> n <= 3000 -> n <= length (take 3000 text) <= 3000.
Proof. rewrite length_take. lia. Qed.

End BoundFacts.

(** X15.  Whatever the browser shows, [fetch_job_detail] of [job_agent_2.py]
    returns the listing as it is or with a description of 150 to 3000
    characters, and [fetch_job_detail] of [job_agent.py] returns it as it is
    or with a description of 201 to 3000 characters. *)
Theorem fetch_job_detail_description_length `{U : Unicode} (browser : Browser) (job : Job) :
  (fetch_job_detail browser job = job \/
   exists d, fetch_job_detail browser job = set_description d job /\
             150 <= length d <= 3000) /\
  (fetch_job_detail_v1 browser job = job \/
   exists d, fetch_job_detail_v1 browser job = set_description d job /\
             200 < length d <= 3000).
Proof.
  split.
  - unfold fetch_job_detail.
    destruct (has_usable_description job); [left; reflexivity|].
    destruct (negb (nonempty (link job))); [left; reflexivity|].
    destruct (browser (link job)) as [page|]; [|left; reflexivity].
    destruct (scan_selectors page _) as [text|] eqn:Es; [|left; reflexivity].
    right. exists (take 3000 text). split; [reflexivity|].
    apply scan_selectors_length in Es. apply length_take_3000; lia.
  - unfold fetch_job_detail_v1.
    destruct (negb (nonempty (link job))); [left; reflexivity|].
    destruct (browser (link job)) as [page|]; [|left; reflexivity].
    change (Ret page ≫= (fun p => v1_scan p v1_selectors)) with (v1_scan page v1_selectors).
    destruct (v1_scan page v1_selectors) as [[text|]|] eqn:Es; try (left; reflexivity).
    right. exists (take 3000 text). split; [reflexivity|].
    apply v1_scan_length in Es. apply (length_take_3000 text 201); lia.
Qed.

(** ** Scoring loop, filter and rank over arbitrary replies *)

(** X16.  The tests of the filter raise exactly when the verdict is truthy
    and is not a dictionary, or is a dictionary whose "is_backend" and
    "is_remote" values are truthy and whose "fit_score" value (0 when the
    key is missing) is not a number. *)
Theorem passes_filter_raises_iff (analysis : pyval) :
  passes_filter analysis = Raised <->
  truthy analysis = true /\
  (is_dict analysis = false \/
   exists b r f,
     py_get analysis (pystr "is_backend") VNone = Ret b /\ truthy b = true /\
     py_get analysis (pystr "is_remote") VNone = Ret r /\ truthy r = true /\
     py_get analysis (pystr "fit_score") (VInt 0) = Ret f /\ number f = Raised).
Proof.
  unfold passes_filter. destruct (truthy analysis) eqn:Ht; simpl.
  2: { split; [raised | intros [E _]; discriminate E]. }
  destruct analysis as [| | | | | |d]; simpl;
    try (split; [intros _; split; [reflexivity | left; reflexivity] | reflexivity]).
  set (b := match d !! pystr "is_backend" with Some x => x | None => VNone end).
  set (r := match d !! pystr "is_remote" with Some x => x | None => VNone end).
  set (f := match d !! pystr "fit_score" with Some x => x | None => VInt 0 end).
  split.
  - intros E. split; [reflexivity|]. right. exists b, r, f.
    destruct (truthy b); simpl in E; [|discriminate E].
    destruct (truthy r); simpl in E; [|discriminate E].
    unfold py_lt_int in E. destruct (number f); simpl in E; [discriminate E|].
    repeat split.
  - intros [_ [E|(b' & r' & f' & Eb & Hb & Er & Hr & Ef & Hf)]]; [discriminate E|].
    inversion Eb; inversion Er; inversion Ef. subst b' r' f'.
    rewrite Hb. simpl. rewrite Hr. simpl. unfold py_lt_int. rewrite Hf. reflexivity.
Qed.

Section LoopFacts.
Context `{U : Unicode}.
Variable post : ScoringRequest -> HttpReply.
Variable json_loads : str -> outcome pyval.

Lemma scoring_loop_raise pre job rest :
  passes_filter (snd (score_job_with_ollama post json_loads job)) = Raised ->
  snd (scoring_loop post json_loads (pre ++ job :: rest)) = Raised /\
  fst (scoring_loop post json_loads (pre ++ job :: rest))
  = fst (scoring_loop post json_loads (pre ++ [job])).
Proof.
  intros Hr. induction pre as [|job0 pre IH]; simpl.
  - simpl in Hr. rewrite Hr. split; reflexivity.
  - clear Hr. destruct (passes_filter _) as [keep|]; [|split; reflexivity].
    destruct (scoring_loop post json_loads (pre ++ job :: rest)) as [posted1 rest1].
    destruct (scoring_loop post json_loads (pre ++ [job])) as [posted2 rest2].
    simpl in *. destruct IH as [-> ->]. split; reflexivity.
Qed.

Lemma scoring_loop_fst_prefix jobs :
  exists n, fst (scoring_loop post json_loads jobs) = map build_request (take n jobs).
Proof.
  induction jobs as [|job jobs IH]; [exists 0; reflexivity|].
  simpl. destruct (passes_filter _) as [keep|]; [|exists 1; reflexivity].
  destruct (scoring_loop post json_loads jobs) as [posted' rest]. simpl in *.
  destruct IH as [n ->]. exists (S n). reflexivity.
Qed.

End LoopFacts.

(** X17.  Nothing in [main] catches an exception of the filter: when the
    tests raise on the verdict of a listing, the scoring loop ends with that
    exception, no request is posted for any later listing, and step 3
    produces no shortlist. *)
Theorem scoring_loop_stops_at_raise `{U : Unicode} `{S : PySort}
    (post : ScoringRequest -> HttpReply) (json_loads : str -> outcome pyval)
    (pre rest : list Job) (job : Job) :
  passes_filter (snd (score_job_with_ollama post json_loads job)) = Raised ->
  snd (scoring_loop post json_loads (pre ++ job :: rest)) = Raised /\
  snd (main_scoring post json_loads (pre ++ job :: rest)) = Raised /\
  fst (main_scoring post json_loads (pre ++ job :: rest))
  = fst (main_scoring post json_loads (pre ++ [job])) /\
  length (fst (main_scoring post json_loads (pre ++ job :: rest))) <= length pre + 1.
Proof.
  intros Hr. destruct (scoring_loop_raise post json_loads pre job rest Hr) as [Hs Hf].
  split; [exact Hs|]. split; [rewrite main_scoring_snd, Hs; reflexivity|].
  rewrite !main_scoring_fst. split; [exact Hf|]. rewrite Hf.
  destruct (scoring_loop_fst_prefix post json_loads (pre ++ [job])) as [n ->].
  rewrite length_map, length_take, length_app. simpl. lia.
Qed.

Lemma scoring_loop_stops_at_raise_witness :
  snd (@main_scoring ascii_only sort_as_is array_post array_loads
         ([] ++ example_job "a" :: [example_job "b"]))
  = Raised.
Proof.
  refine (proj1 (proj2 (@scoring_loop_stops_at_raise ascii_only sort_as_is array_post array_loads
                          [] [example_job "b"] (example_job "a") _))).
  vm_compute. reflexivity.
Defined.

Section RankFacts.

Lemma filter_scored_sublist pairs : forall kept,
  filter_scored pairs = Ret kept -> kept `sublist_of` pairs.
Proof.
  induction pairs as [|[job a] pairs IH]; simpl; intros kept E.
  - inversion E. constructor.
  - destruct (passes_filter a) as [keep|]; [|discriminate E]. simpl in E.
    destruct (filter_scored pairs) as [scored|]; [|discriminate E]. simpl in E.
    inversion E; subst kept. destruct keep.
    + apply sublist_skip. apply IH. reflexivity.
    + apply sublist_cons. apply IH. reflexivity.
Qed.

Lemma filter_scored_complete pairs : forall kept p,
  filter_scored pairs = Ret kept -> p ∈ pairs -> passes_filter (snd p) = Ret true ->
  p ∈ kept.
Proof.
  induction pairs as [|[job a] pairs IH]; simpl; intros kept p E Hp Hpass.
  - inversion Hp.
  - destruct (passes_filter a) as [keep|] eqn:Ea; [|discriminate E]. simpl in E.
    destruct (filter_scored pairs) as [scored|]; [|discriminate E]. simpl in E.
    inversion E; subst kept. apply elem_of_cons in Hp as [->|Hp].
    + simpl in Hpass. rewrite Ea in Hpass. inversion Hpass; subst. left.
    + specialize (IH scored p eq_refl Hp Hpass). destruct keep; [right|]; assumption.
Qed.

Lemma filter_scored_raised pairs :
  filter_scored pairs = Raised -> exists p, p ∈ pairs /\ passes_filter (snd p) = Raised.
Proof.
  induction pairs as [|[job a] pairs IH]; simpl; [raised|].
  destruct (passes_filter a) as [keep|] eqn:Ea; simpl.
  - destruct (filter_scored pairs) as [scored|]; simpl; [raised|].
    intros _. destruct (IH eq_refl) as (p & Hp & Hr). exists p. split; [right|]; assumption.
  - intros _. exists (job, a). split; [left | assumption].
Qed.

Lemma StronglySorted_app_order {A} (R : A -> A -> Prop) l1 : forall l2,
  StronglySorted R (l1 ++ l2) -> forall x y, x ∈ l1 -> y ∈ l2 -> R x y.
Proof.
  induction l1 as [|a l1 IH]; intros l2 Hs x y Hx Hy; [inversion Hx|].
  simpl in Hs. apply StronglySorted_inv in Hs as [Hs Hall].
  apply elem_of_cons in Hx as [->|Hx]; [|eapply IH; eassumption].
  rewrite Forall_forall in Hall. apply Hall. apply elem_of_app. right. assumption.
Qed.

Lemma StronglySorted_take {A} (R : A -> A -> Prop) n l :
  StronglySorted R l -> StronglySorted R (take n l).
Proof.
  intros Hs. revert n. induction Hs as [|a l Hs IH Hall]; intros [|n]; simpl;
    try constructor; [apply IH|].
  rewrite Forall_forall in *. intros x Hx. apply Hall.
  rewrite <- (take_drop n l). apply elem_of_app. left. assumption.
Qed.

Lemma rank_spec `{S : PySort} kept :
  length (rank kept) <= 10 /\
  rank kept `sublist_of` list_sort_desc fit_key kept /\
  (forall p, p ∈ kept -> p ∈ rank kept \/ length (rank kept) = 10) /\
  (ordered_keys fit_key kept = true ->
   StronglySorted (key_ge fit_key) (rank kept) /\
   forall p, p ∈ kept ->
     p ∈ rank kept \/ Forall (fun q => float_le (fit_key p) (fit_key q) = true) (rank kept)).
Proof.
  unfold rank. split; [apply length_take_le|]. split; [apply sublist_take|]. split.
  - intros p Hp. rewrite <- (list_sort_desc_perm fit_key kept) in Hp.
    rewrite <- (take_drop 10 (list_sort_desc fit_key kept)) in Hp.
    apply elem_of_app in Hp as [Hp|Hp]; [left; assumption|]. right.
    rewrite length_take. apply list_elem_of_lookup in Hp as [i Hi].
    apply lookup_lt_Some in Hi. rewrite length_drop in Hi. lia.
  - intros Hord. rewrite (list_sort_desc_ordered fit_key kept Hord).
    pose proof (sort_desc_sorted fit_key kept Hord) as Hs.
    split; [apply StronglySorted_take; exact Hs|].
    intros p Hp. rewrite <- (sort_desc_perm fit_key kept) in Hp.
    rewrite <- (take_drop 10 (sort_desc fit_key kept)) in Hp, Hs.
    apply elem_of_app in Hp as [Hp|Hp]; [left; assumption|]. right.
    rewrite Forall_forall. intros q Hq.
    exact (StronglySorted_app_order _ _ _ Hs q p Hq Hp).
Qed.

Lemma filter_scored_keys pairs : forall kept,
  filter_scored pairs = Ret kept ->
  Forall (fun p => is_nan (fit_key p) = false) pairs -> ordered_keys fit_key kept = true.
Proof.
  intros kept E Hall. unfold ordered_keys. apply forallb_forall. intros p Hp.
  apply list_elem_of_In in Hp. destruct (filter_scored_elem pairs kept E p Hp) as [_ Hin].
  rewrite Forall_forall in Hall. rewrite (Hall p Hin). reflexivity.
Qed.

End RankFacts.

(** X18.  Filter and rank over pairs with arbitrary verdicts: when no test
    raises, the shortlist has at most ten pairs, each a pair of the input
    that passed the tests, and every pair of the input that passed the
    tests is in the shortlist unless the shortlist is full.  When moreover
    no sort key is [nan], the shortlist is in order of non-increasing key,
    and a pair that passed and is left out has a key no higher than any key
    in the shortlist.  When a test raises, it is on the verdict of a pair
    of the input. *)
Theorem filter_rank_shortlist `{S : PySort} (pairs : list (Job * pyval)) :
  match filter_rank pairs with
  | Ret shortlist =>
      length shortlist <= 10 /\
      Forall (fun p => p ∈ pairs /\ passes_filter (snd p) = Ret true) shortlist /\
      (forall p, p ∈ pairs -> passes_filter (snd p) = Ret true ->
         p ∈ shortlist \/ length shortlist = 10) /\
      (Forall (fun p => is_nan (fit_key p) = false) pairs ->
       StronglySorted (key_ge fit_key) shortlist /\
       forall p, p ∈ pairs -> passes_filter (snd p) = Ret true ->
         p ∈ shortlist \/
         Forall (fun q => float_le (fit_key p) (fit_key q) = true) shortlist)
  | Raised => exists p, p ∈ pairs /\ passes_filter (snd p) = Raised
  end.
Proof.
  unfold filter_rank. destruct (filter_scored pairs) as [kept|] eqn:E; simpl;
    [|apply filter_scored_raised; assumption].
  destruct (rank_spec kept) as (Hlen & Hsub & Hfull & Hord).
  split; [assumption|]. split; [|split].
  - rewrite Forall_forall. intros p Hp.
    assert (Hk : p ∈ kept).
    { rewrite <- (list_sort_desc_perm fit_key kept). eapply elem_of_sublist; eassumption. }
    destruct (filter_scored_elem pairs kept E p Hk). auto.
  - intros p Hp Hpass. apply Hfull. eapply filter_scored_complete; eassumption.
  - intros Hnan. destruct (Hord (filter_scored_keys pairs kept E Hnan)) as [Hsorted Hrest].
    split; [assumption|]. intros p Hp Hpass. apply Hrest.
    eapply filter_scored_complete; eassumption.
Qed.

(** With a [nan] score the order is open: for the verdicts scored 6, [nan],
    9 and 7, all four pass the tests, and an interpreter that leaves such a
    list as it is returns them in this order. *)
Lemma filter_rank_with_nan_score :
  @filter_rank sort_as_is
    [(example_job "a", scored_verdict (VInt 6)); (example_job "b", scored_verdict (VFloat NaN));
     (example_job "c", scored_verdict (VInt 9)); (example_job "d", scored_verdict (VInt 7))]
  = Ret [(example_job "a", scored_verdict (VInt 6)); (example_job "b", scored_verdict (VFloat NaN));
         (example_job "c", scored_verdict (VInt 9)); (example_job "d", scored_verdict (VInt 7))].
Proof. vm_compute. reflexivity. Qed.

Section MainFacts.
Context `{U : Unicode} `{S : PySort}.
Variable post : ScoringRequest -> HttpReply.
Variable json_loads : str -> outcome pyval.

Lemma fetch_job_detail_link browser job : link (fetch_job_detail browser job) = link job.
Proof.
  unfold fetch_job_detail.
  destruct (has_usable_description job); [reflexivity|].
  destruct (negb (nonempty (link job))); [reflexivity|].
  destruct (browser (link job)) as [page|]; [|reflexivity].
  destruct (scan_selectors page _); reflexivity.
Qed.

Lemma fetch_job_detail_v1_link browser job : link (fetch_job_detail_v1 browser job) = link job.
Proof.
  unfold fetch_job_detail_v1.
  destruct (negb (nonempty (link job))); [reflexivity|].
  destruct (_ ≫= _) as [[text|]|]; reflexivity.
Qed.

(** Step 3 over at most 40 listings with distinct, non-empty links. *)
Lemma main_scoring_bounds jobs :
  length jobs <= 40 -> NoDup (link <$> jobs) -> Forall (fun job => link job <> []) jobs ->
  length (fst (main_scoring post json_loads jobs)) <= 40 /\
  match snd (main_scoring post json_loads jobs) with
  | Ret shortlist =>
      length shortlist <= 10 /\
      NoDup ((fun p => link (fst p)) <$> shortlist) /\
      Forall (fun p => link (fst p) <> []) shortlist
  | Raised => True
  end.
Proof.
  intros Hlen Hnodup Hne. split.
  - rewrite main_scoring_fst.
    destruct (scoring_loop_fst_prefix post json_loads jobs) as [n ->].
    rewrite length_map, length_take. lia.
  - rewrite main_scoring_snd, scoring_loop_filters.
    set (pairs := map (fun job => (job, snd (score_job_with_ollama post json_loads job))) jobs).
    destruct (filter_scored pairs) as [kept|] eqn:E; simpl; [|exact I].
    destruct (rank_spec kept) as (Hlen10 & Hsub & _ & _).
    assert (Hlinks : (fun p : Job * pyval => link (fst p)) <$> pairs = link <$> jobs).
    { unfold pairs. clear. induction jobs as [|job jobs IH]; [reflexivity|].
      rewrite map_cons, !fmap_cons. simpl fst. f_equal. exact IH. }
    apply filter_scored_sublist in E.
    split; [assumption|]. split.
    + eapply sublist_NoDup; [|apply fmap_sublist; exact Hsub].
      rewrite (list_sort_desc_perm fit_key kept).
      eapply sublist_NoDup; [|apply fmap_sublist; exact E].
      rewrite Hlinks. assumption.
    + rewrite Forall_forall. intros p Hp.
      assert (Hin : link (fst p) ∈ link <$> jobs).
      { rewrite <- Hlinks. apply list_elem_of_fmap. exists p. split; [reflexivity|].
        eapply elem_of_sublist; [|exact E].
        rewrite <- (list_sort_desc_perm fit_key kept). eapply elem_of_sublist; eassumption. }
      apply list_elem_of_fmap in Hin as (job & -> & Hjob).
      rewrite Forall_forall in Hne. apply Hne. assumption.
Qed.

Lemma dedup_take_links n l :
  length (take n (dedup_by_link l)) <= n /\
  NoDup (link <$> take n (dedup_by_link l)) /\
  Forall (fun job => link job <> []) (take n (dedup_by_link l)).
Proof.
  split; [apply length_take_le|].
  rewrite dedup_by_link_from. destruct (dedup_from_out l ∅) as [Hnodup Hall]. split.
  - eapply sublist_NoDup; [exact Hnodup | apply fmap_sublist, sublist_take].
  - apply Forall_take. eapply Forall_impl; [exact Hall|]. intros j [? _]. assumption.
Qed.

End MainFacts.

(** X19.  A run of either [main] posts at most 40 scoring requests; and a
    run that ends with a shortlist has at most ten pairs in it, whose
    listings have non-empty, pairwise distinct links. *)
Theorem main_bounds `{U : Unicode} `{S : PySort}
    (post : ScoringRequest -> HttpReply) (json_loads : str -> outcome pyval)
    (browser : Browser) (weworkremotely remotive : list Job) (boards : list Board) :
  let bounded (run : list ScoringRequest * outcome (list (Job * pyval))) :=
    length (fst run) <= 40 /\
    match snd run with
    | Ret shortlist =>
        length shortlist <= 10 /\
        NoDup ((fun p => link (fst p)) <$> shortlist) /\
        Forall (fun p => link (fst p) <> []) shortlist
    | Raised => True
    end in
  bounded (main post json_loads browser weworkremotely remotive) /\
  bounded (main_v1 post json_loads browser boards).
Proof.
  intros bounded. unfold bounded. split.
  - unfold main, scrape_all_boards.
    match goal with |- context [take 40 (dedup_by_link ?l)] =>
      destruct (dedup_take_links 40 l) as (Hlen40 & Hnodup & Hne);
      revert Hlen40 Hnodup Hne;
      generalize (take 40 (dedup_by_link l)); intros jobs Hlen40 Hnodup Hne
    end.
    apply main_scoring_bounds.
    + rewrite length_map. exact Hlen40.
    + rewrite <- list_fmap_compose.
      rewrite (list_fmap_ext _ link jobs) by (intros; apply fetch_job_detail_link).
      assumption.
    + rewrite Forall_forall in *. intros j Hj.
      apply list_elem_of_fmap in Hj as (j0 & -> & Hj0).
      rewrite fetch_job_detail_link. auto.
  - unfold main_v1.
    match goal with |- context [take 40 (dedup_by_link ?l)] =>
      destruct (dedup_take_links 40 l) as (Hlen40 & Hnodup & Hne);
      revert Hlen40 Hnodup Hne;
      generalize (take 40 (dedup_by_link l)); intros jobs Hlen40 Hnodup Hne
    end.
    apply main_scoring_bounds.
    + rewrite length_map. exact Hlen40.
    + rewrite <- list_fmap_compose.
      rewrite (list_fmap_ext _ link jobs) by (intros; apply fetch_job_detail_v1_link).
      assumption.
    + rewrite Forall_forall in *. intros j Hj.
      apply list_elem_of_fmap in Hj as (j0 & -> & Hj0).
      rewrite fetch_job_detail_v1_link. auto.
Qed.

(** ** Digest: the band of a score *)

Section BandFacts.

Lemma float_le_false x y :
  is_nan x = false -> is_nan y = false -> float_le x y = false -> float_lt y x = true.
Proof.
  destruct x as [a| | |], y as [b| | |]; simpl; try reflexivity; try discriminate.
  intros _ _ H. unfold Qlt_bool. rewrite H. reflexivity.
Qed.

Lemma float_le_number x y : float_le x y = true -> is_nan y = false.
Proof. destruct x, y; simpl; try reflexivity; discriminate. Qed.

Lemma score_band score x :
  number score = Ret x ->
  exists b,
    score_color score = Ret (band_color b) /\ score_label score = Ret (band_label b) /\
    match b with
    | Strong => float_le (of_int 8) x = true
    | Decent => float_le (of_int 6) x = true /\ float_lt x (of_int 8) = true
    | Weak => float_le (of_int 6) x = false
    end.
Proof.
  intros Hx. unfold score_color, score_label, py_ge_int. rewrite Hx.
  cbn -[float_le of_int]. destruct (float_le (of_int 8) x) eqn:E8.
  - exists Strong. repeat split.
  - destruct (float_le (of_int 6) x) eqn:E6.
    + exists Decent. repeat split.
      apply float_le_false; [reflexivity | eapply float_le_number; exact E6 | exact E8].
    + exists Weak. repeat split.
Qed.

Lemma passes_filter_score analysis :
  passes_filter analysis = Ret true ->
  exists score x,
    card_score analysis = Ret score /\ number score = Ret x /\
    float_lt x (of_int 5) = false.
Proof.
  unfold passes_filter, card_score.
  destruct (truthy analysis); simpl; [|raised].
  destruct analysis as [| | | | | |d]; simpl; try raised.
  destruct (truthy _); simpl; [|raised].
  destruct (truthy _); simpl; [|raised].
  unfold py_lt_int.
  destruct (number _) as [x|] eqn:En; simpl; [|raised].
  intros E. injection E as Hx. apply negb_true_iff in Hx.
  eexists _, x. split; [reflexivity|]. split; [exact En | exact Hx].
Qed.

End BandFacts.

(** X20.  For a verdict that passed the tests of the filter, the digest card
    finds a number under "fit_score", and [score_color] and [score_label]
    return without raising and name the same band: strong from 8, decent
    from 6 to below 8, and weak otherwise, which is from 5 to below 6 or
    [nan] (a [nan] score passes the tests, since [nan < 5] is false). *)
Theorem digest_band_of_shortlisted (analysis : pyval) :
  passes_filter analysis = Ret true ->
  exists score x b,
    card_score analysis = Ret score /\ number score = Ret x /\
    score_color score = Ret (band_color b) /\ score_label score = Ret (band_label b) /\
    match b with
    | Strong => float_le (of_int 8) x = true
    | Decent => float_le (of_int 6) x = true /\ float_lt x (of_int 8) = true
    | Weak => (float_le (of_int 5) x = true /\ float_lt x (of_int 6) = true) \/ x = NaN
    end.
Proof.
  intros Hpass. apply passes_filter_score in Hpass as (score & x & Hs & Hx & H5).
  destruct (score_band score x Hx) as (b & Hc & Hl & Hb).
  exists score, x, b. repeat (split; [assumption|]).
  destruct b; [exact Hb | exact Hb |].
  destruct (is_nan x) eqn:En; [right; destruct x; try discriminate En; reflexivity|].
  left. split.
  - apply float_lt_false; [exact En | reflexivity | exact H5].
  - apply float_le_false; [reflexivity | exact En | exact Hb].
Qed.

Lemma digest_band_of_shortlisted_witness :
  exists score x b,
    card_score (VDict three_fields) = Ret score /\ number score = Ret x /\
    score_color score = Ret (band_color b) /\ score_label score = Ret (band_label b) /\
    match b with
    | Strong => float_le (of_int 8) x = true
    | Decent => float_le (of_int 6) x = true /\ float_lt x (of_int 8) = true
    | Weak => (float_le (of_int 5) x = true /\ float_lt x (of_int 6) = true) \/ x = NaN
    end.
Proof.
  apply (digest_band_of_shortlisted (VDict three_fields)). vm_compute. reflexivity.
Defined.

(** A verdict scored [nan] passes the tests and is shown as a weak fit. *)
Lemma digest_band_of_nan_score :
  passes_filter (scored_verdict (VFloat NaN)) = Ret true /\
  score_color (VFloat NaN) = Ret (band_color Weak) /\
  score_label (VFloat NaN) = Ret (band_label Weak).
Proof. repeat split; vm_compute; reflexivity. Qed.

(** ** Scoring client: the request *)

(** X21.  The request for a listing carries at most 2000 characters of
    description and a salary text that is never empty; the description is
    empty only when the listing has no description, no summary and no title
    to fall back on. *)
Theorem build_request_bounds (job : Job) :
  length (req_description (build_request job)) <= 2000 /\
  req_salary (build_request job) <> [] /\
  (req_description (build_request job) = [] <->
   (description job = None \/ description job = Some []) /\
   summary job = [] /\ title job = []).
Proof.
  unfold build_request. simpl. split; [apply length_take_le|]. split.
  - destruct (salary job); simpl; discriminate.
  - destruct (description job) as [[|c d]|]; simpl;
      destruct (summary job) as [|c' s]; simpl;
      destruct (title job) as [|c'' t]; simpl;
      split; try discriminate; try tauto;
      try (intros [[E|E] [E1 E2]]; discriminate);
      try (intros [_ [E1 E2]]; discriminate).
Qed.
